(** * AMBER nmropt restraints: a model of CDI/amberio/rstr.py
      and of its predecessor CDI/amberio/AmberRestraint.py

    Conventions of the embedding.

    - A Python [float] is an exact rational ([Q]); [==] on floats is [Qeq].
      The constant [math.pi] is the rational that the double of that name
      denotes.  The rounding of arithmetic is therefore not modelled: the
      statements about [rstr] and [AmberRestraint] are about the arithmetic
      the code writes down, carried out exactly.  Two places of the sources
      are modelled more closely.  Where a float is turned into text
      ([str], in [WriteRstNamelist]) the text keeps twelve significant
      digits, and [Py.str_float] is the number that text spells.  The
      module [Binary64] repeats the one loop of the sources on machine
      doubles, where rounding decides whether the loop exits; what is
      stated of [rstr.nearest_image] is stated of the loop carried out
      exactly.
    - An exception is a value of [Py.exn]; a call that may raise returns a
      [Py.result].  A method that mutates [self] before it raises returns
      the mutated object together with the outcome.
    - The module [coordinates] (bond, angle and dihedral values with their
      derivatives) and the module [namelist] (the reader of [&rst] groups)
      are not part of these sources; the first is a parameter, the second
      is represented by the groups it returns. *)

From Stdlib Require Import String ZArith QArith Qabs Qround Qpower Lqa Lia.
From Stdlib Require Import Bool List Permutation.
From Stdlib Require PrimFloat FloatOps SpecFloat DecimalString.
Import ListNotations.

Local Open Scope Q_scope.

(** ** The fragment of Python the sources rely on *)

Module Py.

Inductive exn : Type :=
| ValueError
| TypeError
| IndexError
| NameError
| AssertionError
| KeyError
| Exception.

Inductive result (A : Type) : Type :=
| Ok (a : A)
| Raise (e : exn).

Arguments Ok {A} a.
Arguments Raise {A} e.

Definition bind {A B : Type} (c : result A) (k : A -> result B) : result B :=
  match c with
  | Ok a => k a
  | Raise e => Raise e
  end.

(** [math.pi], the double 0x1.921fb54442d18p+1 read as a rational. *)
Definition pi : Q := 884279719003555 # 281474976710656.

(** [x < y] and [x <= y] on floats. *)
Definition ltb (x y : Q) : bool := negb (Qle_bool y x).
Definition leb (x y : Q) : bool := Qle_bool x y.

(** Keyword arguments ([**rstr_params]) and string-keyed dicts. *)
Definition dict (V : Type) : Type := list (string * V).

Fixpoint get {V : Type} (k : string) (d : dict V) : option V :=
  match d with
  | [] => None
  | (k', v) :: d' => if String.eqb k k' then Some v else get k d'
  end.

Definition has_key {V : Type} (k : string) (d : dict V) : bool :=
  match get k d with
  | Some _ => true
  | None => false
  end.

(** [d[k] = v] on a dict that may or may not hold [k]. *)
Fixpoint setitem {V : Type} (k : string) (v : V) (d : dict V) : dict V :=
  match d with
  | [] => [(k, v)]
  | (k', v') :: d' =>
      if String.eqb k k' then (k, v) :: d' else (k', v') :: setitem k v d'
  end.

(** [d[k] += v]. *)
Definition iadd_key (k : string) (v : Q) (d : dict Q) : result (dict Q) :=
  match get k d with
  | Some old => Ok (setitem k (old + v) d)
  | None => Raise KeyError
  end.

(** [l[i]] on a list or tuple: a negative index counts from the end, an
    index out of range raises [IndexError]. *)
Definition norm_index (n i : Z) : option nat :=
  let j := (if i <? 0 then i + n else i)%Z in
  if ((0 <=? j) && (j <? n))%Z then Some (Z.to_nat j) else None.

Definition getitem {A : Type} (l : list A) (i : Z) : result A :=
  match norm_index (Z.of_nat (length l)) i with
  | Some j =>
      match nth_error l j with
      | Some a => Ok a
      | None => Raise IndexError
      end
  | None => Raise IndexError
  end.

Fixpoint update_nth {A : Type} (j : nat) (f : A -> A) (l : list A) : list A :=
  match l, j with
  | [], _ => []
  | a :: l', O => f a :: l'
  | a :: l', S j' => a :: update_nth j' f l'
  end.

(** [l[i] += v]. *)
Definition iadd_item (l : list Q) (i : Z) (v : Q) : result (list Q) :=
  match norm_index (Z.of_nat (length l)) i with
  | Some j => Ok (update_nth j (fun a => a + v) l)
  | None => Raise IndexError
  end.

(** [l[lo:hi] = v]: slice bounds are clamped, never an error. *)
Definition slice_bound (n i : Z) : Z :=
  (if i <? 0 then Z.max 0 (i + n) else Z.min i n)%Z.

Definition slice_assign {A : Type} (l : list A) (lo hi : Z) (v : list A)
  : list A :=
  let n := Z.of_nat (length l) in
  let a := slice_bound n lo in
  let b := Z.max a (slice_bound n hi) in
  firstn (Z.to_nat a) l ++ v ++ skipn (Z.to_nat b) l.

(** [[0. for n in range(len(crds))]]. *)
Definition zeros (n : nat) : list Q := repeat 0 n.

(** [str(x)] for a float [x].  Python 2 formats a float with ['%.12g']:
    twelve significant decimal digits, the digits beyond them rounded to
    the nearest, a tie to the even neighbour.  [str_float x] is the number
    that the text spells, which is what a reader of the text gets back. *)

(** The integer nearest to [q], a tie going to the even one. *)
Definition round_half_even (q : Q) : Z :=
  let f := Qfloor q in
  match Qcompare (q - inject_Z f) (1 # 2) with
  | Lt => f
  | Gt => (f + 1)%Z
  | Eq => if Z.even f then f else (f + 1)%Z
  end.

(** The decimal exponent of a positive [x]: the [e] with
    [10 ^ e <= x < 10 ^ (e + 1)], searched downwards from an upper
    estimate. *)
Fixpoint exponent_loop (fuel : nat) (e : Z) (x : Q) : Z :=
  match fuel with
  | O => e
  | S fuel' => if Qle_bool (10 ^ e) x then e else exponent_loop fuel' (e - 1) x
  end.

Definition decimal_exponent (x : Q) : Z :=
  let hi := Z.log2 (Qnum x) in
  let lo := (- (Z.log2 (Z.pos (Qden x)) + 1))%Z in
  exponent_loop (Z.to_nat (hi - lo)) hi x.

(** A positive [x] rounded to twelve significant digits. *)
Definition round_significant (x : Q) : Q :=
  let e := decimal_exponent x in
  inject_Z (round_half_even (x / 10 ^ (e - 11))) * 10 ^ (e - 11).

Definition str_float (x : Q) : Q :=
  match Qcompare x 0 with
  | Eq => 0
  | Gt => round_significant x
  | Lt => - round_significant (- x)
  end.

End Py.

Import Py.

Notation "x <- c ;; k" := (Py.bind c (fun x => k))
  (at level 61, c at next level, right associativity).
Notation "' p <- c ;; k" := (Py.bind c (fun x => let 'p := x in k))
  (at level 61, p pattern, c at next level, right associativity).

(** ** The external module [coordinates]

    Only its interface is fixed here: indices are zero-based atom numbers
    into a flat list of 3N Cartesian coordinates. *)

Record coordinates : Type := {
  Bond : list Q -> Z -> Z -> Q;
  BondAndGradients : list Q -> Z -> Z -> Q * list Q * list Q;
  Angle : list Q -> Z -> Z -> Z -> Q;
  AngleAndGradients : list Q -> Z -> Z -> Z -> Q * list Q * list Q * list Q;
  Dihedral : list Q -> Z -> Z -> Z -> Z -> Q;
  DihedralAndGradients :
    list Q -> Z -> Z -> Z -> Z -> Q * list Q * list Q * list Q * list Q
}.

(** The part of that module's contract the restraints depend on: the value
    returned together with the gradients is the value returned alone. *)
Record coordinates_ok (geom : coordinates) : Prop := {
  Bond_value : forall crds i j,
    fst (fst (BondAndGradients geom crds i j)) = Bond geom crds i j;
  Angle_value : forall crds i j k,
    fst (fst (fst (AngleAndGradients geom crds i j k))) = Angle geom crds i j k;
  Dihedral_value : forall crds i j k l,
    fst (fst (fst (fst (DihedralAndGradients geom crds i j k l))))
    = Dihedral geom crds i j k l
}.

(** ** The external module [namelist]

    One group of a restraint file as [namelist.ReadNamelists] hands it
    over: its name and its keys.  The text of a value is represented by
    what the code converts it to: [iat] by the integers between its
    commas, [rstwt] by the floats between its commas, every other key by
    its float.  An empty list stands for the empty string, which neither
    [int] nor [float] converts. *)
Record namelist : Type := mkNamelist {
  name : string;
  iat_value : option (list Z);
  rstwt_value : option (list Q);
  float_values : dict Q
}.

(** ** rstr.py *)

Module rstr.

(** The four concrete classes; [type(rst)] is one of them. *)
Inductive rstr_class : Type :=
| BondRestraint
| AngleRestraint
| TorsionRestraint
| GenDistCoordRestraint.

(** An instance.  [r1 .. r4] are [self._r[0] .. self._r[3]], [rk2] and [rk3]
    are [self._rk[0]] and [self._rk[1]]; [rstwt] is empty except on a
    [GenDistCoordRestraint]. *)
Record NmroptRestraint : Type := mkRestraint {
  class_of : rstr_class;
  iat : list Z;
  r1 : Q;
  r2 : Q;
  r3 : Q;
  r4 : Q;
  rk2 : Q;
  rk3 : Q;
  rstwt : list Q
}.

Definition set_r (self : NmroptRestraint) (a b c d : Q) : NmroptRestraint :=
  mkRestraint (class_of self) (iat self) a b c d (rk2 self) (rk3 self)
              (rstwt self).

Definition set_rk (self : NmroptRestraint) (k2 k3 : Q) : NmroptRestraint :=
  mkRestraint (class_of self) (iat self) (r1 self) (r2 self) (r3 self)
              (r4 self) k2 k3 (rstwt self).

Definition set_rstwt (self : NmroptRestraint) (w : list Q) : NmroptRestraint :=
  mkRestraint (class_of self) (iat self) (r1 self) (r2 self) (r3 self)
              (r4 self) (rk2 self) (rk3 self) w.

(** [self._report_conversion], set by each class's [__init__]. *)
Definition _report_conversion (self : NmroptRestraint) : Q :=
  match class_of self with
  | BondRestraint => 1
  | AngleRestraint => 180 / pi
  | TorsionRestraint => 180 / pi
  | GenDistCoordRestraint => 1
  end.

Definition _harmonic_r1 (self : NmroptRestraint) : Q :=
  match class_of self with
  | BondRestraint => r2 self - 500
  | AngleRestraint => 0
  | TorsionRestraint => r2 self - 180
  | GenDistCoordRestraint => r2 self - 500
  end.

Definition _harmonic_r4 (self : NmroptRestraint) : Q :=
  match class_of self with
  | BondRestraint => r2 self + 500
  | AngleRestraint => 180
  | TorsionRestraint => r2 self + 180
  | GenDistCoordRestraint => r2 self + 500
  end.

(** [r1 <= r2 <= r3 <= r4] as the chained comparison evaluates it. *)
Definition monotonic (self : NmroptRestraint) : bool :=
  leb (r1 self) (r2 self) && leb (r2 self) (r3 self)
  && leb (r3 self) (r4 self).

(** The value a key takes when given, the stored one otherwise. *)
Definition given (rstr_params : dict Q) (key : string) (conv old : Q) : Q :=
  match get key rstr_params with
  | Some v => v / conv
  | None => old
  end.

(** The first half of [SetRestraintParameters]: with [r0] a pure harmonic
    well, otherwise the positions that are given, one by one. *)
Definition set_positions (rstr_params : dict Q) (self : NmroptRestraint)
  : NmroptRestraint :=
  let conv := _report_conversion self in
  match get "r0"%string rstr_params with
  | Some r0 =>
      let self := set_r self (r1 self) r0 r0 (r4 self) in
      let self := set_r self (_harmonic_r1 self) (r2 self) (r3 self)
                        (r4 self) in
      let self := set_r self (r1 self) (r2 self) (r3 self)
                        (_harmonic_r4 self) in
      set_r self (r1 self / conv) (r2 self / conv) (r3 self / conv)
            (r4 self / conv)
  | None =>
      set_r self
            (given rstr_params "r1" conv (r1 self))
            (given rstr_params "r2" conv (r2 self))
            (given rstr_params "r3" conv (r3 self))
            (given rstr_params "r4" conv (r4 self))
  end.

(** The second half: with [k0] both force constants, otherwise those that
    are given. *)
Definition set_force_constants (rstr_params : dict Q)
    (self : NmroptRestraint) : NmroptRestraint :=
  match get "k0"%string rstr_params with
  | Some k0 => set_rk self k0 k0
  | None =>
      let k2 := match get "rk2"%string rstr_params with
                | Some v => v
                | None => rk2 self
                end in
      let k3 := match get "rk3"%string rstr_params with
                | Some v => v
                | None => rk3 self
                end in
      set_rk self k2 k3
  end.

(** [NmroptRestraint.SetRestraintParameters].  The positions are assigned
    before they are checked, so the object that comes back with
    [Raise ValueError] already carries them. *)
Definition SetRestraintParameters (rstr_params : dict Q)
    (self : NmroptRestraint) : NmroptRestraint * result unit :=
  let self := set_positions rstr_params self in
  if negb (monotonic self) then (self, Raise ValueError)
  else
    let self := set_force_constants rstr_params self in
    (self, Ok tt).

(** [NmroptRestraint.__init__] as each subclass reaches it. *)
Definition NmroptRestraint_init (c : rstr_class) (iat : list Z)
    (rstr_params : dict Q) : result NmroptRestraint :=
  let self := mkRestraint c iat 0 0 0 0 0 0 [] in
  match SetRestraintParameters rstr_params self with
  | (self, Ok _) => Ok self
  | (_, Raise e) => Raise e
  end.

Definition BondRestraint_init (iat : list Z) (rstr_params : dict Q)
  : result NmroptRestraint :=
  if (length iat =? 2)%nat
  then NmroptRestraint_init BondRestraint iat rstr_params
  else Raise AssertionError.

Definition AngleRestraint_init (iat : list Z) (rstr_params : dict Q)
  : result NmroptRestraint :=
  if (length iat =? 3)%nat
  then NmroptRestraint_init AngleRestraint iat rstr_params
  else Raise AssertionError.

Definition TorsionRestraint_init (iat : list Z) (rstr_params : dict Q)
  : result NmroptRestraint :=
  if (length iat =? 4)%nat
  then NmroptRestraint_init TorsionRestraint iat rstr_params
  else Raise AssertionError.

(** [[float(w) for w in rstwt.split(',')]]: [w] holds the floats between
    the commas of [rstwt].  A string always splits into at least one field,
    so no float at all stands for the empty string, which [float] rejects. *)
Definition floats_of_fields (w : list Q) : result (list Q) :=
  match w with
  | [] => Raise ValueError
  | _ => Ok w
  end.

Definition GenDistCoordRestraint_init (iat : list Z) (w : list Q)
    (rstr_params : dict Q) : result NmroptRestraint :=
  if (Nat.modulo (length iat) 2 =? 0)%nat
  then
    self <- NmroptRestraint_init GenDistCoordRestraint iat rstr_params ;;
    w <- floats_of_fields w ;;
    let self := set_rstwt self w in
    if negb (length (rstwt self) =? Nat.div (length iat) 2)%nat
    then Raise Exception
    else Ok self
  else Raise AssertionError.

(** *** Restraint coordinates *)

(** The [while not isNearestImage] loop of [TorsionRestraint.Coord] and
    [TorsionRestraint.CoordAndGradients], run for at most [fuel] tests of
    its condition; [None] when they do not suffice. *)
Fixpoint nearest_image_loop (fuel : nat) (rmean r : Q) : option Q :=
  match fuel with
  | O => None
  | S fuel' =>
      if ltb pi (r - rmean) then nearest_image_loop fuel' rmean (r - 2 * pi)
      else if ltb pi (rmean - r)
           then nearest_image_loop fuel' rmean (r + 2 * pi)
           else Some r
  end.

(** A number of tests that always suffices (lemma [image_fuel_enough]):
    one more than the whole periods between [r] and [rmean], rounded to
    the nearest. *)
Definition image_fuel (rmean r : Q) : nat :=
  S (Z.to_nat (Qfloor (Qabs (r - rmean) / (2 * pi) + (1 # 2)))).

(** The loop run to its end, in exact arithmetic, where [image_fuel] tests
    always suffice, so that the default is never taken.  On doubles the
    loop need not exit: see [Binary64] below. *)
Definition nearest_image (rmean r : Q) : Q :=
  match nearest_image_loop (image_fuel rmean r) rmean r with
  | Some r' => r'
  | None => r
  end.

Section Geometry.

Variable geom : coordinates.

(** The loop of [GenDistCoordRestraint.Coord] from index [k] on; [ws] are
    the weights [self.rstwt[k:]]. *)
Fixpoint gdc_coord_loop (self : NmroptRestraint) (crds : list Q) (k : Z)
    (ws : list Q) (r : Q) : result Q :=
  match ws with
  | [] => Ok r
  | w :: ws' =>
      ii <- getitem (iat self) (2 * k + 0) ;;
      jj <- getitem (iat self) (2 * k + 1) ;;
      let '(x, drdxi, drdxj) :=
        BondAndGradients geom crds (ii - 1) (jj - 1) in
      gdc_coord_loop self crds (k + 1) ws' (r + w * x)
  end.

(** [Coord], by class. *)
Definition Coord (self : NmroptRestraint) (crds : list Q) : result Q :=
  match class_of self with
  | BondRestraint =>
      ii <- getitem (iat self) 0 ;;
      jj <- getitem (iat self) 1 ;;
      Ok (Bond geom crds (ii - 1) (jj - 1))
  | AngleRestraint =>
      ii <- getitem (iat self) 0 ;;
      jj <- getitem (iat self) 1 ;;
      kk <- getitem (iat self) 2 ;;
      Ok (Angle geom crds (ii - 1) (jj - 1) (kk - 1))
  | TorsionRestraint =>
      ii <- getitem (iat self) 0 ;;
      jj <- getitem (iat self) 1 ;;
      kk <- getitem (iat self) 2 ;;
      ll <- getitem (iat self) 3 ;;
      let r := Dihedral geom crds (ii - 1) (jj - 1) (kk - 1) (ll - 1) in
      let rmean := (r2 self + r3 self) / 2 in
      Ok (nearest_image rmean r)
  | GenDistCoordRestraint =>
      gdc_coord_loop self crds 0 (rstwt self) 0
  end.

(** [for m in range(3): drdx[3*i+m] += w*drdxi[m]; drdx[3*j+m] += w*drdxj[m]]. *)
Fixpoint gdc_grad_inner (ms : list Z) (i j : Z) (w : Q) (drdxi drdxj : list Q)
    (drdx : list Q) : result (list Q) :=
  match ms with
  | [] => Ok drdx
  | m :: ms' =>
      gi <- getitem drdxi m ;;
      drdx <- iadd_item drdx (3 * i + m) (w * gi) ;;
      gj <- getitem drdxj m ;;
      drdx <- iadd_item drdx (3 * j + m) (w * gj) ;;
      gdc_grad_inner ms' i j w drdxi drdxj drdx
  end.

Fixpoint gdc_grad_loop (self : NmroptRestraint) (crds : list Q) (k : Z)
    (ws : list Q) (r : Q) (drdx : list Q) : result (Q * list Q) :=
  match ws with
  | [] => Ok (r, drdx)
  | w :: ws' =>
      ii <- getitem (iat self) (2 * k + 0) ;;
      jj <- getitem (iat self) (2 * k + 1) ;;
      let i := (ii - 1)%Z in
      let j := (jj - 1)%Z in
      let '(x, drdxi, drdxj) := BondAndGradients geom crds i j in
      drdx <- gdc_grad_inner [0; 1; 2]%Z i j w drdxi drdxj drdx ;;
      gdc_grad_loop self crds (k + 1) ws' (r + w * x) drdx
  end.

(** [CoordAndGradients], by class. *)
Definition CoordAndGradients (self : NmroptRestraint) (crds : list Q)
  : result (Q * list Q) :=
  let drdx := zeros (length crds) in
  match class_of self with
  | BondRestraint =>
      ii <- getitem (iat self) 0 ;;
      jj <- getitem (iat self) 1 ;;
      let i := (ii - 1)%Z in
      let j := (jj - 1)%Z in
      let '(r, drdxi, drdxj) := BondAndGradients geom crds i j in
      let drdx := slice_assign drdx (3 * i) (3 * (i + 1)) drdxi in
      let drdx := slice_assign drdx (3 * j) (3 * (j + 1)) drdxj in
      Ok (r, drdx)
  | AngleRestraint =>
      ii <- getitem (iat self) 0 ;;
      jj <- getitem (iat self) 1 ;;
      kk <- getitem (iat self) 2 ;;
      let i := (ii - 1)%Z in
      let j := (jj - 1)%Z in
      let k := (kk - 1)%Z in
      let '(r, drdxi, drdxj, drdxk) := AngleAndGradients geom crds i j k in
      let drdx := slice_assign drdx (3 * i) (3 * (i + 1)) drdxi in
      let drdx := slice_assign drdx (3 * j) (3 * (j + 1)) drdxj in
      let drdx := slice_assign drdx (3 * k) (3 * (k + 1)) drdxk in
      Ok (r, drdx)
  | TorsionRestraint =>
      ii <- getitem (iat self) 0 ;;
      jj <- getitem (iat self) 1 ;;
      kk <- getitem (iat self) 2 ;;
      ll <- getitem (iat self) 3 ;;
      let i := (ii - 1)%Z in
      let j := (jj - 1)%Z in
      let k := (kk - 1)%Z in
      let l := (ll - 1)%Z in
      let '(r, drdxi, drdxj, drdxk, drdxl) :=
        DihedralAndGradients geom crds i j k l in
      let drdx := slice_assign drdx (3 * i) (3 * (i + 1)) drdxi in
      let drdx := slice_assign drdx (3 * j) (3 * (j + 1)) drdxj in
      let drdx := slice_assign drdx (3 * k) (3 * (k + 1)) drdxk in
      let drdx := slice_assign drdx (3 * l) (3 * (l + 1)) drdxl in
      let rmean := (r2 self + r3 self) / 2 in
      Ok (nearest_image rmean r, drdx)
  | GenDistCoordRestraint =>
      gdc_grad_loop self crds 0 (rstwt self) 0 drdx
  end.

(** *** The flat-bottomed well *)

(** What [Energy] is called with: a number (the restraint coordinate
    itself) or a list of Cartesian coordinates. *)
Inductive crds_arg : Type :=
| PyFloat (r : Q)
| PyList (crds : list Q).

(** The five branches of [EnergyAndGradients], each giving [(dedr, energy)]
    for the coordinate [r]. *)
Definition branch_below_r1 (self : NmroptRestraint) (r : Q) : Q * Q :=
  let dr := r1 self - r2 self in
  let dedr := 2 * rk2 self * dr in
  (dedr, dedr * (r - r1 self) + rk2 self * dr ^ 2).

Definition branch_r1_r2 (self : NmroptRestraint) (r : Q) : Q * Q :=
  let dr := r - r2 self in
  let dedr := 2 * rk2 self * dr in
  (dedr, rk2 self * dr ^ 2).

Definition branch_r2_r3 (self : NmroptRestraint) (r : Q) : Q * Q :=
  (0, 0).

Definition branch_r3_r4 (self : NmroptRestraint) (r : Q) : Q * Q :=
  let dr := r - r3 self in
  let dedr := 2 * rk3 self * dr in
  (dedr, rk3 self * dr ^ 2).

Definition branch_above_r4 (self : NmroptRestraint) (r : Q) : Q * Q :=
  let dr := r4 self - r3 self in
  let dedr := 2 * rk3 self * dr in
  (dedr, dedr * (r - r4 self) + rk3 self * dr ^ 2).

(** The [if/elif/else] chain that selects among them. *)
Definition well (self : NmroptRestraint) (r : Q) : Q * Q :=
  if ltb r (r1 self) then branch_below_r1 self r
  else if leb (r1 self) r && ltb r (r2 self) then branch_r1_r2 self r
  else if leb (r2 self) r && ltb r (r3 self) then branch_r2_r3 self r
  else if leb (r3 self) r && ltb r (r4 self) then branch_r3_r4 self r
  else branch_above_r4 self r.

(** [NmroptRestraint.EnergyAndGradients]; the diagnostic [print] of the
    numeric shortcut is left out. *)
Definition EnergyAndGradients (self : NmroptRestraint) (crds : crds_arg)
  : result (Q * list Q) :=
  '(r, drdx) <- match crds with
                | PyFloat x => Ok (x, [0])
                | PyList xs => CoordAndGradients self xs
                end ;;
  let '(dedr, energy) := well self r in
  let gradients := map (fun drdxi => dedr * drdxi) drdx in
  Ok (energy, gradients).

Definition Energy (self : NmroptRestraint) (crds : crds_arg) : result Q :=
  '(energy, gradients) <- EnergyAndGradients self crds ;;
  Ok energy.

End Geometry.

(** *** Equality of restraints *)

Definition class_eqb (a b : rstr_class) : bool :=
  match a, b with
  | BondRestraint, BondRestraint => true
  | AngleRestraint, AngleRestraint => true
  | TorsionRestraint, TorsionRestraint => true
  | GenDistCoordRestraint, GenDistCoordRestraint => true
  | _, _ => false
  end.

(** [for i,j in zip(..): if i != j: same_perm = False; break
                         else: same_perm = True]. *)
Fixpoint same_perm_loop (pairs : list (Z * Z)) (same_perm : bool) : bool :=
  match pairs with
  | [] => same_perm
  | (i, j) :: pairs' =>
      if negb (i =? j)%Z then false else same_perm_loop pairs' true
  end.

(** [NmroptRestraint.__eq__].  The four classes have no subclasses, so
    [isinstance(other, type(self))] holds exactly when the classes agree. *)
Definition rstr_eq (self other : NmroptRestraint) : bool :=
  if negb (class_eqb (class_of other) (class_of self)) then false
  else if negb (length (iat self) =? length (iat other))%nat then false
  else
    let same_perm := same_perm_loop (combine (iat self) (iat other)) false in
    let same_perm :=
      if negb same_perm
      then same_perm_loop (combine (rev (iat self)) (iat other)) same_perm
      else same_perm in
    if negb same_perm then false
    else if negb (Qeq_bool (rk2 self) (rk2 other)) then false
    else if negb (Qeq_bool (rk3 self) (rk3 other)) then false
    else if negb (Qeq_bool (r1 self) (r1 other)) then false
    else if negb (Qeq_bool (r2 self) (r2 other)) then false
    else if negb (Qeq_bool (r3 self) (r3 other)) then false
    else if negb (Qeq_bool (r4 self) (r4 other)) then false
    else true.

(** [NmroptRestraint.__ne__]. *)
Definition rstr_ne (self other : NmroptRestraint) : bool :=
  negb (rstr_eq self other).

(** *** The collection *)

(** [AmberRestraint]: a list that [append] keeps to [NmroptRestraint]s. *)
Definition AmberRestraint : Type := list NmroptRestraint.

(** [itertools.permutations]: every element in turn, followed by the
    permutations of the others. *)
Fixpoint selections {A : Type} (l : list A) : list (A * list A) :=
  match l with
  | [] => []
  | a :: l' => (a, l') :: map (fun s => (fst s, a :: snd s)) (selections l')
  end.

Fixpoint permutations_of_length {A : Type} (n : nat) (l : list A)
  : list (list A) :=
  match n with
  | O => [[]]
  | S n' =>
      flat_map (fun s => map (cons (fst s)) (permutations_of_length n' (snd s)))
               (selections l)
  end.

Definition permutations {A : Type} (l : list A) : list (list A) :=
  permutations_of_length (length l) l.

(** The innermost loop of [AmberRestraint.__eq__]. *)
Fixpoint eq_zip_loop (pairs : list (NmroptRestraint * NmroptRestraint))
    (areSame : bool) : bool :=
  match pairs with
  | [] => areSame
  | (rstr_i, rstr_j) :: pairs' =>
      if rstr_ne rstr_i rstr_j then false else eq_zip_loop pairs' true
  end.

(** The two outer loops, over the pairs [(perm_i, perm_j)] in the order the
    nested [for]s visit them. *)
Fixpoint eq_search (perms : list (AmberRestraint * AmberRestraint))
    (areSame : bool) : bool :=
  match perms with
  | [] => areSame
  | (perm_i, perm_j) :: perms' =>
      let areSame := eq_zip_loop (combine perm_i perm_j) areSame in
      if areSame then true else eq_search perms' areSame
  end.

(** [AmberRestraint.__eq__]. *)
Definition AmberRestraint_eq (self other : AmberRestraint) : bool :=
  if negb (length self =? length other)%nat then false
  else eq_search (list_prod (permutations self) (permutations other)) false.

Section CollectionEnergy.

Variable geom : coordinates.

(** [for rst,r in zip(self,crds): energy += rst.Energy(r)]. *)
Fixpoint Energy_by_value (pairs : list (NmroptRestraint * Q)) (energy : Q)
  : result Q :=
  match pairs with
  | [] => Ok energy
  | (rst, r) :: pairs' =>
      e <- Energy geom rst (PyFloat r) ;;
      Energy_by_value pairs' (energy + e)
  end.

(** [for rst in self: energy += rst.Energy(crds)]. *)
Fixpoint Energy_by_crds (rsts : list NmroptRestraint) (crds : list Q)
    (energy : Q) : result Q :=
  match rsts with
  | [] => Ok energy
  | rst :: rsts' =>
      e <- Energy geom rst (PyList crds) ;;
      Energy_by_crds rsts' crds (energy + e)
  end.

(** [AmberRestraint.Energy]. *)
Definition AmberRestraint_Energy (self : AmberRestraint) (crds : list Q)
  : result Q :=
  if (length crds =? length self)%nat
  then Energy_by_value (combine self crds) 0
  else Energy_by_crds self crds 0.

Definition component_type (c : rstr_class) : string :=
  match c with
  | BondRestraint => "Bond"
  | AngleRestraint => "Angle"
  | TorsionRestraint => "Torsion"
  | GenDistCoordRestraint => "Gen. Dist. Coord."
  end.

(** Both loops of [DecomposeEnergy] run over [zip(self,crds)]; [by_value]
    tells which argument [rst.Energy] receives. *)
Fixpoint Decompose_loop (by_value : bool) (pairs : list (NmroptRestraint * Q))
    (crds : list Q) (energy : dict Q) : result (dict Q) :=
  match pairs with
  | [] => Ok energy
  | (rst, r) :: pairs' =>
      e <- Energy geom rst (if by_value then PyFloat r else PyList crds) ;;
      energy <- iadd_key (component_type (class_of rst)) e energy ;;
      Decompose_loop by_value pairs' crds energy
  end.

(** [for key in energy.keys(): eRestraint += energy[key]]. *)
Definition sum_values (energy : dict Q) : Q :=
  fold_left (fun eRestraint kv => eRestraint + snd kv) energy 0.

(** [AmberRestraint.DecomposeEnergy]. *)
Definition DecomposeEnergy (self : AmberRestraint) (crds : list Q)
  : result (dict Q) :=
  let energy := [("Bond", 0); ("Angle", 0); ("Torsion", 0);
                 ("Gen. Dist. Coord.", 0)]%string in
  energy <- Decompose_loop (length crds =? length self)%nat
                           (combine self crds) crds energy ;;
  let eRestraint := sum_values energy in
  Ok (setitem "Restraint" eRestraint energy).

End CollectionEnergy.

(** *** Reading and writing restraint files *)

(** [_extra_namelist_values]: only a [GenDistCoordRestraint] adds [rstwt],
    each weight as [str] spells it. *)
Definition _extra_namelist_values (self : NmroptRestraint)
  : option (list Q) :=
  match class_of self with
  | GenDistCoordRestraint => Some (map str_float (rstwt self))
  | _ => None
  end.

(** [WriteRstNamelist]: the group that the written line spells.  The atoms
    are integers and are written in full; every position, in reporting
    units, and both force constants go through [str]. *)
Definition WriteRstNamelist (self : NmroptRestraint) : namelist :=
  let conv := _report_conversion self in
  mkNamelist "rst" (Some (iat self)) (_extra_namelist_values self)
    [("r1", str_float (r1 self * conv)); ("r2", str_float (r2 self * conv));
     ("r3", str_float (r3 self * conv)); ("r4", str_float (r4 self * conv));
     ("rk2", str_float (rk2 self)); ("rk3", str_float (rk3 self))]%string.

(** [WriteAmberRestraintFile]: the title line and the groups after it. *)
Definition WriteAmberRestraintFile (self : AmberRestraint) (title : string)
  : string * list namelist :=
  (title, map WriteRstNamelist self).

(** The loop of [ReadAmberRestraintFile] over the groups read. *)
Fixpoint read_namelists (namelists : list namelist) (amberRstr : AmberRestraint)
  : result AmberRestraint :=
  match namelists with
  | [] => Ok amberRstr
  | nl :: namelists' =>
      if String.eqb (name nl) "rst" then
        match iat_value nl with
        | None => Raise Exception
        | Some [] => Raise ValueError
        | Some iat =>
            rst <- match rstwt_value nl with
                   | Some rstwt =>
                       GenDistCoordRestraint_init iat rstwt (float_values nl)
                   | None =>
                       if (length iat =? 2)%nat
                       then BondRestraint_init iat (float_values nl)
                       else if (length iat =? 3)%nat
                       then AngleRestraint_init iat (float_values nl)
                       else if (length iat =? 4)%nat
                       then TorsionRestraint_init iat (float_values nl)
                       else Raise Exception
                   end ;;
            read_namelists namelists' (amberRstr ++ [rst])
        end
      else read_namelists namelists' amberRstr
  end.

(** [ReadAmberRestraintFile]: the collection and the lines printed. *)
Definition ReadAmberRestraintFile (ReadNamelists : string -> list namelist)
    (rstFilename : string) : result (AmberRestraint * list string) :=
  amberRstr <- read_namelists (ReadNamelists rstFilename) [] ;;
  let printed :=
    if (length amberRstr <? 1)%nat
    then [("WARNING! No &rst namelists were found in " ++ rstFilename
           ++ ".")%string]
    else [] in
  Ok (amberRstr, printed).

(** *** Building and updating a collection *)

(** [AmberRestraint.__ne__]. *)
Definition AmberRestraint_ne (self other : AmberRestraint) : bool :=
  negb (AmberRestraint_eq self other).

(** What [append], [extend] and [__init__] may be handed: a restraint, an
    object with an [__iter__] attribute (a list, a tuple or another
    collection, given by its items), or anything else. *)
#[warnings="-register-all"] Inductive pyobj : Type :=
| PyRestraint (rst : NmroptRestraint)
| PyIterable (items : list pyobj)
| PyOther.

(** [AmberRestraint.append]. *)
Definition AmberRestraint_append (self : AmberRestraint) (item : pyobj)
  : AmberRestraint * result unit :=
  match item with
  | PyRestraint rst => (self ++ [rst], Ok tt)
  | _ => (self, Raise TypeError)
  end.

(** [for item in items: self.append(item)]. *)
Fixpoint extend_loop (self : AmberRestraint) (items : list pyobj)
  : AmberRestraint * result unit :=
  match items with
  | [] => (self, Ok tt)
  | item :: items' =>
      match AmberRestraint_append self item with
      | (self, Ok _) => extend_loop self items'
      | (self, Raise e) => (self, Raise e)
      end
  end.

(** [AmberRestraint.extend]: nothing happens without [__iter__]. *)
Definition AmberRestraint_extend (self : AmberRestraint) (items : pyobj)
  : AmberRestraint * result unit :=
  match items with
  | PyIterable items => extend_loop self items
  | _ => (self, Ok tt)
  end.

(** [for rstr in rstrs: self.extend(rstr)]. *)
Fixpoint init_loop (self : AmberRestraint) (rstrs : list pyobj)
  : result AmberRestraint :=
  match rstrs with
  | [] => Ok self
  | rstr :: rstrs' =>
      match AmberRestraint_extend self rstr with
      | (self, Ok _) => init_loop self rstrs'
      | (_, Raise e) => Raise e
      end
  end.

(** [AmberRestraint.__init__]. *)
Definition AmberRestraint_init (rstrs : list pyobj) : result AmberRestraint :=
  init_loop [] rstrs.

(** [%d] of a length. *)
Definition str_of_nat (n : nat) : string :=
  DecimalString.NilZero.string_of_uint (Nat.to_uint n).

(** [for i,value in enumerate(values)]: [self[i].SetRestraintParameters]
    is called with the one keyword [params], set to [float(value)].  The
    member is changed in place, so the collection holds it as the call
    leaves it, also when the call raises. *)
Fixpoint set_by_values (params : string) (i : Z) (values : list Q)
    (self : AmberRestraint) : AmberRestraint * result unit :=
  match values with
  | [] => (self, Ok tt)
  | value :: values' =>
      match getitem self i with
      | Raise e => (self, Raise e)
      | Ok rstr =>
          let '(rstr, outcome) :=
            SetRestraintParameters [(params, value)] rstr in
          let self := update_nth (Z.to_nat i) (fun _ => rstr) self in
          match outcome with
          | Ok _ => set_by_values params (i + 1) values' self
          | Raise e => (self, Raise e)
          end
      end
  end.

(** [for i,rstr in enumerate(self)], over the members from index [i] on:
    [value = float(rstr_params[params][i])], then
    [rstr.SetRestraintParameters] with the one keyword [params], set to
    [value].  [rstr_params[params]] is [values], the list that
    [iteritems] has yielded with this key. *)
Fixpoint set_by_members (params : string) (i : Z) (values : list Q)
    (rstrs : list NmroptRestraint) : list NmroptRestraint * result unit :=
  match rstrs with
  | [] => ([], Ok tt)
  | rstr :: rstrs' =>
      match getitem values i with
      | Raise e => (rstrs, Raise e)
      | Ok value =>
          let '(rstr, outcome) :=
            SetRestraintParameters [(params, value)] rstr in
          match outcome with
          | Ok _ =>
              let '(rstrs', outcome) :=
                set_by_members params (i + 1) values rstrs' in
              (rstr :: rstrs', outcome)
          | Raise e => (rstr :: rstrs', Raise e)
          end
      end
  end.

(** The loop of [AmberRestraint.SetRestraintParameters] over
    [rstr_params.iteritems()], the keywords in the order the dict yields
    them; [printed] collects the warnings. *)
Fixpoint set_parameters_loop (nrstrs : nat)
    (rstr_params : list (string * list Q)) (self : AmberRestraint)
    (printed : list string) : AmberRestraint * list string * result unit :=
  match rstr_params with
  | [] => (self, printed, Ok tt)
  | (params, values) :: rstr_params' =>
      let nvalues := length values in
      if (nvalues <=? nrstrs)%nat then
        match set_by_values params 0 values self with
        | (self, Ok _) => set_parameters_loop nrstrs rstr_params' self printed
        | (self, Raise e) => (self, printed, Raise e)
        end
      else
        let printed :=
          printed ++ [("Warning: " ++ str_of_nat nvalues
                       ++ " restraint parameters were specified, but only "
                       ++ str_of_nat nrstrs
                       ++ " restraints are defined.")%string] in
        match set_by_members params 0 values self with
        | (self, Ok _) => set_parameters_loop nrstrs rstr_params' self printed
        | (self, Raise e) => (self, printed, Raise e)
        end
  end.

(** [AmberRestraint.SetRestraintParameters]: the collection as the call
    leaves it, the lines printed, and the outcome. *)
Definition AmberRestraint_SetRestraintParameters
    (rstr_params : list (string * list Q)) (self : AmberRestraint)
  : AmberRestraint * list string * result unit :=
  let nrstrs := length self in
  set_parameters_loop nrstrs rstr_params self [].

Section CollectionGradients.

Variable geom : coordinates.

(** [for i in range(len(g)): gradients[i] += g[i]], from index [i] on. *)
Fixpoint add_gradients (i : Z) (g : list Q) (gradients : list Q)
  : result (list Q) :=
  match g with
  | [] => Ok gradients
  | gi :: g' =>
      gradients <- iadd_item gradients i gi ;;
      add_gradients (i + 1) g' gradients
  end.

(** The loop of [AmberRestraint.EnergyAndGradients] over the members. *)
Fixpoint EnergyAndGradients_loop (rsts : list NmroptRestraint)
    (crds : list Q) (energy : Q) (gradients : list Q)
  : result (Q * list Q) :=
  match rsts with
  | [] => Ok (energy, gradients)
  | rst :: rsts' =>
      '(e, g) <- EnergyAndGradients geom rst (PyList crds) ;;
      gradients <- add_gradients 0 g gradients ;;
      EnergyAndGradients_loop rsts' crds (energy + e) gradients
  end.

(** [AmberRestraint.EnergyAndGradients]. *)
Definition AmberRestraint_EnergyAndGradients (self : AmberRestraint)
    (crds : list Q) : result (Q * list Q) :=
  EnergyAndGradients_loop self crds 0 (zeros (length crds)).

End CollectionGradients.

End rstr.

(** ** The nearest-image loop on machine doubles *)

Module Binary64.

Import PrimFloat.
Local Open Scope float_scope.

(** [math.pi]. *)
Definition pi : float := 0x1.921fb54442d18p+1.

(** The same [while] loop as [rstr.nearest_image_loop], every operation
    rounded to binary64 as Python rounds it. *)
Fixpoint nearest_image_loop (fuel : nat) (rmean r : float) : option float :=
  match fuel with
  | O => None
  | S fuel' =>
      if ltb pi (r - rmean) then nearest_image_loop fuel' rmean (r - 2 * pi)
      else if ltb pi (rmean - r)
           then nearest_image_loop fuel' rmean (r + 2 * pi)
           else Some r
  end.

(** [180./pi], the conversion factor of angles and torsions, and the
    centre [(self._r[1] + self._r[2])/2.] of the window. *)
Definition _report_conversion : float := 180 / pi.

Definition rmean_of (r2 r3 : float) : float := (r2 + r3) / 2.

(** A raw dihedral in (-pi, pi] and a window centre, about 0.7722 and
    98.1616 radians, and the two values the loop alternates between once
    it has added fifteen periods: about 95.0200 and 101.3032. *)
Definition cycle_raw : float := 0x1.8b5fa64c62b90p-1.
Definition cycle_rmean : float := 0x1.88a576e6b9809p+6.

(** The centre in degrees, about 5624.2446: a torsion restraint given this
    [r0] stores [r2 = r3 = r0 / (180 / pi)], which is [cycle_rmean]. *)
Definition cycle_r0 : float := 0x1.5f83e9ec57ebcp+12.
Definition cycle_low : float := 0x1.7c14793c976ap+6.
Definition cycle_high : float := 0x1.95367490db972p+6.

(** A value so large that a period is less than half the gap to the next
    double: 1e17. *)
Definition huge : float := 0x1.6345785d8ap+56.

End Binary64.

(** ** AmberRestraint.py, the earlier version of the same module *)

Module AmberRestraint.

(** An instance: [rstType] is the label chosen by [__init__]; [r1 .. r4]
    are [self.r[0] .. self.r[3]], [rk2] and [rk3] are [self.rk]. *)
Record NmroptRestraint : Type := mkRestraint {
  iat : list Z;
  nAtoms : nat;
  rstwt : option (list Q);
  rstType : string;
  r1 : Q;
  r2 : Q;
  r3 : Q;
  r4 : Q;
  rk2 : Q;
  rk3 : Q
}.

Definition set_r (self : NmroptRestraint) (a b c d : Q) : NmroptRestraint :=
  mkRestraint (iat self) (nAtoms self) (rstwt self) (rstType self) a b c d
              (rk2 self) (rk3 self).

Definition set_rk (self : NmroptRestraint) (k2 k3 : Q) : NmroptRestraint :=
  mkRestraint (iat self) (nAtoms self) (rstwt self) (rstType self)
              (r1 self) (r2 self) (r3 self) (r4 self) k2 k3.

Definition monotonic (self : NmroptRestraint) : bool :=
  leb (r1 self) (r2 self) && leb (r2 self) (r3 self)
  && leb (r3 self) (r4 self).

Definition given (rstr_params : dict Q) (key : string) (old : Q) : Q :=
  match get key rstr_params with
  | Some v => v
  | None => old
  end.

(** The first half of [SetRestraintParameters]. *)
Definition set_positions (rstr_params : dict Q) (self : NmroptRestraint)
  : NmroptRestraint :=
  match get "r0"%string rstr_params with
  | Some r0 =>
      let self := set_r self (r1 self) r0 r0 (r4 self) in
      if String.eqb (rstType self) "Torsion"
      then set_r self (r0 - 180) (r2 self) (r3 self) (r0 + 180)
      else if String.eqb (rstType self) "Angle"
      then set_r self 0 (r2 self) (r3 self) (r0 + 180)
      else set_r self 0 (r2 self) (r3 self) (r0 + 500)
  | None =>
      set_r self
            (given rstr_params "r1" (r1 self))
            (given rstr_params "r2" (r2 self))
            (given rstr_params "r3" (r3 self))
            (given rstr_params "r4" (r4 self))
  end.

(** [self.r = [ r*pi/180. for r in self.r ]] on angles and torsions. *)
Definition to_radians (self : NmroptRestraint) : NmroptRestraint :=
  if String.eqb (rstType self) "Angle" || String.eqb (rstType self) "Torsion"
  then set_r self (r1 self * pi / 180) (r2 self * pi / 180)
             (r3 self * pi / 180) (r4 self * pi / 180)
  else self.

Definition set_force_constants (rstr_params : dict Q)
    (self : NmroptRestraint) : NmroptRestraint :=
  match get "k0"%string rstr_params with
  | Some k0 => set_rk self k0 k0
  | None =>
      set_rk self (given rstr_params "rk2" (rk2 self))
             (given rstr_params "rk3" (rk3 self))
  end.

(** [NmroptRestraint.SetRestraintParameters]. *)
Definition SetRestraintParameters (rstr_params : dict Q)
    (self : NmroptRestraint) : NmroptRestraint * result unit :=
  let self := set_positions rstr_params self in
  let self := to_radians self in
  if negb (monotonic self) then (self, Raise ValueError)
  else
    let self := set_force_constants rstr_params self in
    (self, Ok tt).

(** [NmroptRestraint.__init__].  With [rstwt] among the keywords the test
    [len(self.rstwt) != nAtoms/2] reads a name that is bound nowhere. *)
Definition NmroptRestraint_init (iat : list Z) (rstwt : option (list Q))
    (rstr_params : dict Q) : result NmroptRestraint :=
  let nAtoms := length iat in
  match rstwt with
  | Some w => Raise NameError
  | None =>
      rstType <- (if (nAtoms =? 2)%nat then Ok "Bond"
                  else if (nAtoms =? 3)%nat then Ok "Angle"
                  else if (nAtoms =? 4)%nat then Ok "Torsion"
                  else Raise Exception)%string ;;
      let self := mkRestraint iat nAtoms None rstType 0 0 0 0 0 0 in
      match SetRestraintParameters rstr_params self with
      | (self, Ok _) => Ok self
      | (_, Raise e) => Raise e
      end
  end.

Definition AmberRestraint : Type := list NmroptRestraint.

(** The loop of [ReadAmberRestraintFile].  [key_bound] tells whether the
    loop variable [key], which the first error message formats, has been
    assigned by an earlier group. *)
Fixpoint read_namelists (namelists : list namelist) (key_bound : bool)
    (amberRst : AmberRestraint) : result AmberRestraint :=
  match namelists with
  | [] => Ok amberRst
  | nl :: namelists' =>
      if String.eqb (name nl) "rst" then
        match iat_value nl with
        | None => Raise (if key_bound then Exception else NameError)
        | Some iat =>
            rst <- NmroptRestraint_init iat (rstwt_value nl)
                                        (float_values nl) ;;
            read_namelists namelists' true (amberRst ++ [rst])
        end
      else read_namelists namelists' key_bound amberRst
  end.

(** [ReadAmberRestraintFile]. *)
Definition ReadAmberRestraintFile (ReadNamelists : string -> list namelist)
    (rstFilename : string) : result AmberRestraint :=
  amberRst <- read_namelists (ReadNamelists rstFilename) false [] ;;
  if (length amberRst <? 1)%nat then Raise Exception else Ok amberRst.

(** *** Coordinates and energies *)

Section Geometry.

Variable geom : coordinates.

(** The loop of the [Gen. Dist. Coord.] branch of [CoordAndGradients] from
    index [k] on; the lists [drdxi] and [drdxj] are [[0., 0., 0.]]. *)
Fixpoint gdc_loop (self : NmroptRestraint) (crds : list Q) (k : Z)
    (ws : list Q) (r : Q) (drdx : list Q) : result (Q * list Q) :=
  match ws with
  | [] => Ok (r, drdx)
  | w :: ws' =>
      ii <- getitem (iat self) (2 * k + 0) ;;
      jj <- getitem (iat self) (2 * k + 1) ;;
      let i := (ii - 1)%Z in
      let j := (jj - 1)%Z in
      let drdxi := [0; 0; 0] in
      let drdxj := [0; 0; 0] in
      let r := r + w * Bond geom crds i j in
      drdx <- rstr.gdc_grad_inner [0; 1; 2]%Z i j w drdxi drdxj drdx ;;
      gdc_loop self crds (k + 1) ws' r drdx
  end.

(** [NmroptRestraint.CoordAndGradients]: the calls that would fill the
    gradients are commented out in the source. *)
Definition CoordAndGradients (self : NmroptRestraint) (crds : list Q)
  : result (Q * list Q) :=
  let r := 0 in
  let drdx := zeros (length crds) in
  if String.eqb (rstType self) "Bond" then
    ii <- getitem (iat self) 0 ;;
    jj <- getitem (iat self) 1 ;;
    let i := (ii - 1)%Z in
    let j := (jj - 1)%Z in
    let drdxi := [0; 0; 0] in
    let drdxj := [0; 0; 0] in
    let r := Bond geom crds i j in
    let drdx := slice_assign drdx (3 * i) (3 * (i + 1)) drdxi in
    let drdx := slice_assign drdx (3 * j) (3 * (j + 1)) drdxj in
    Ok (r, drdx)
  else if String.eqb (rstType self) "Angle" then
    ii <- getitem (iat self) 0 ;;
    jj <- getitem (iat self) 1 ;;
    kk <- getitem (iat self) 2 ;;
    let i := (ii - 1)%Z in
    let j := (jj - 1)%Z in
    let k := (kk - 1)%Z in
    let drdxi := [0; 0; 0] in
    let drdxj := [0; 0; 0] in
    let drdxk := [0; 0; 0] in
    let r := Angle geom crds i j k in
    let drdx := slice_assign drdx (3 * i) (3 * (i + 1)) drdxi in
    let drdx := slice_assign drdx (3 * j) (3 * (j + 1)) drdxj in
    let drdx := slice_assign drdx (3 * k) (3 * (k + 1)) drdxk in
    Ok (r, drdx)
  else if String.eqb (rstType self) "Torsion" then
    ii <- getitem (iat self) 0 ;;
    jj <- getitem (iat self) 1 ;;
    kk <- getitem (iat self) 2 ;;
    ll <- getitem (iat self) 3 ;;
    let i := (ii - 1)%Z in
    let j := (jj - 1)%Z in
    let k := (kk - 1)%Z in
    let l := (ll - 1)%Z in
    let drdxi := [0; 0; 0] in
    let drdxj := [0; 0; 0] in
    let drdxk := [0; 0; 0] in
    let drdxl := [0; 0; 0] in
    let r := Dihedral geom crds i j k l in
    let drdx := slice_assign drdx (3 * i) (3 * (i + 1)) drdxi in
    let drdx := slice_assign drdx (3 * j) (3 * (j + 1)) drdxj in
    let drdx := slice_assign drdx (3 * k) (3 * (k + 1)) drdxk in
    let drdx := slice_assign drdx (3 * l) (3 * (l + 1)) drdxl in
    Ok (r, drdx)
  else if String.eqb (rstType self) "Gen. Dist. Coord." then
    match rstwt self with
    | Some ws => gdc_loop self crds 0 ws r drdx
    | None => Raise TypeError
    end
  else Raise Exception.

(** [NmroptRestraint.Coord]. *)
Definition Coord (self : NmroptRestraint) (crds : list Q) : result Q :=
  '(r, drdx) <- CoordAndGradients self crds ;;
  Ok r.

(** The [if/elif/else] chain of [EnergyAndGradients]: [(dedr, energy)] for
    the coordinate [r]. *)
Definition well (self : NmroptRestraint) (r : Q) : Q * Q :=
  if ltb r (r1 self) then
    let dr := r1 self - r2 self in
    let dedr := 2 * rk2 self * dr in
    (dedr, dedr * (r - r1 self) + rk2 self * dr ^ 2)
  else if leb (r1 self) r && ltb r (r2 self) then
    let dr := r - r2 self in
    let dedr := 2 * rk2 self * dr in
    (dedr, rk2 self * dr ^ 2)
  else if leb (r2 self) r && ltb r (r3 self) then
    (0, 0)
  else if leb (r3 self) r && ltb r (r4 self) then
    let dr := r - r3 self in
    let dedr := 2 * rk3 self * dr in
    (dedr, rk3 self * dr ^ 2)
  else
    let dr := r4 self - r3 self in
    let dedr := 2 * rk3 self * dr in
    (dedr, dedr * (r - r4 self) + rk3 self * dr ^ 2).

(** [NmroptRestraint.EnergyAndGradients]. *)
Definition EnergyAndGradients (self : NmroptRestraint) (crds : list Q)
  : result (Q * list Q) :=
  '(r, drdx) <- CoordAndGradients self crds ;;
  let '(dedr, energy) := well self r in
  let gradients := map (fun drdxi => dedr * drdxi) drdx in
  Ok (energy, gradients).

(** [NmroptRestraint.Energy]. *)
Definition Energy (self : NmroptRestraint) (crds : list Q) : result Q :=
  '(energy, gradients) <- EnergyAndGradients self crds ;;
  Ok energy.

(** [AmberRestraint.Energy]: [for rst in self: energy += rst.Energy(crds)]. *)
Fixpoint Energy_loop (rsts : list NmroptRestraint) (crds : list Q)
    (energy : Q) : result Q :=
  match rsts with
  | [] => Ok energy
  | rst :: rsts' =>
      e <- Energy rst crds ;;
      Energy_loop rsts' crds (energy + e)
  end.

Definition AmberRestraint_Energy (self : AmberRestraint) (crds : list Q)
  : result Q :=
  Energy_loop self crds 0.

(** [AmberRestraint.EnergyAndGradients]. *)
Fixpoint EnergyAndGradients_loop (rsts : list NmroptRestraint)
    (crds : list Q) (energy : Q) (gradients : list Q)
  : result (Q * list Q) :=
  match rsts with
  | [] => Ok (energy, gradients)
  | rst :: rsts' =>
      '(e, g) <- EnergyAndGradients rst crds ;;
      gradients <- rstr.add_gradients 0 g gradients ;;
      EnergyAndGradients_loop rsts' crds (energy + e) gradients
  end.

Definition AmberRestraint_EnergyAndGradients (self : AmberRestraint)
    (crds : list Q) : result (Q * list Q) :=
  EnergyAndGradients_loop self crds 0 (zeros (length crds)).

(** [for rst in self: energy[rst.rstType] += rst.Energy(crds)]. *)
Fixpoint Decompose_loop (rsts : list NmroptRestraint) (crds : list Q)
    (energy : dict Q) : result (dict Q) :=
  match rsts with
  | [] => Ok energy
  | rst :: rsts' =>
      e <- Energy rst crds ;;
      energy <- iadd_key (rstType rst) e energy ;;
      Decompose_loop rsts' crds energy
  end.

(** [AmberRestraint.DecomposeEnergy]. *)
Definition DecomposeEnergy (self : AmberRestraint) (crds : list Q)
  : result (dict Q) :=
  let energy := [("Restraint", 0); ("Bond", 0); ("Angle", 0); ("Torsion", 0);
                 ("Gen. Dist. Coord.", 0)]%string in
  energy <- Decompose_loop self crds energy ;;
  let eRestraint := rstr.sum_values energy in
  Ok (setitem "Restraint" eRestraint energy).

End Geometry.

End AmberRestraint.

(** ** The specification's wording of the potential *)

(** The five-branch law, as a relation between the coordinate [r] and the
    energy [E], for boundaries [a1 .. a4] and force constants [kl], [kr]. *)
Definition flat_bottom_law (a1 a2 a3 a4 kl kr r E : Q) : Prop :=
  (r < a1 -> E = 2 * kl * (a1 - a2) * (r - a1) + kl * (a1 - a2) ^ 2)
  /\ (a1 <= r /\ r < a2 -> E = kl * (r - a2) ^ 2)
  /\ (a2 <= r /\ r < a3 -> E = 0)
  /\ (a3 <= r /\ r < a4 -> E = kr * (r - a3) ^ 2)
  /\ (a4 <= r -> E = 2 * kr * (a4 - a3) * (r - a4) + kr * (a4 - a3) ^ 2).

(** The shape of one flank of the well, as a function of the distance [x]
    into the flank and the width [w] of its parabolic part: flat, then
    parabolic, then linear.  [flank_slope] is its derivative. *)
Definition flank_energy (x w : Q) : Q :=
  if leb x 0 then 0 else if leb x w then x ^ 2 else 2 * w * x - w ^ 2.

Definition flank_slope (x w : Q) : Q :=
  if leb x 0 then 0 else if leb x w then 2 * x else 2 * w.

(** The invariant r1 <= r2 <= r3 <= r4 of a restraint's positions. *)
Definition ordered (self : rstr.NmroptRestraint) : Prop :=
  rstr.r1 self <= rstr.r2 self /\ rstr.r2 self <= rstr.r3 self
  /\ rstr.r3 self <= rstr.r4 self.

(** Two restraints that pair up in an equality test: the same class, the
    same atoms read forwards or backwards, equal positions and equal force
    constants. *)
Definition same_restraint (a b : rstr.NmroptRestraint) : Prop :=
  rstr.class_of a = rstr.class_of b
  /\ (rstr.iat a = rstr.iat b \/ rev (rstr.iat a) = rstr.iat b)
  /\ rstr.rk2 a == rstr.rk2 b /\ rstr.rk3 a == rstr.rk3 b
  /\ rstr.r1 a == rstr.r1 b /\ rstr.r2 a == rstr.r2 b
  /\ rstr.r3 a == rstr.r3 b /\ rstr.r4 a == rstr.r4 b.

(** What a round trip through a restraint file has to preserve: the kind,
    the atoms, the four positions, the two force constants and the
    weights. *)
Definition same_parameters (a b : rstr.NmroptRestraint) : Prop :=
  rstr.class_of a = rstr.class_of b
  /\ rstr.iat a = rstr.iat b
  /\ rstr.r1 a == rstr.r1 b /\ rstr.r2 a == rstr.r2 b
  /\ rstr.r3 a == rstr.r3 b /\ rstr.r4 a == rstr.r4 b
  /\ rstr.rk2 a == rstr.rk2 b /\ rstr.rk3 a == rstr.rk3 b
  /\ rstr.rstwt a = rstr.rstwt b.

(** What a round trip through a restraint file does preserve: the kind
    and the atoms; every position, in the units it is written in, every
    force constant and every weight come back as [str] spelled them. *)
Definition rounded_parameters (a b : rstr.NmroptRestraint) : Prop :=
  let conv := rstr._report_conversion a in
  rstr.class_of a = rstr.class_of b
  /\ rstr.iat a = rstr.iat b
  /\ rstr.r1 b * conv == str_float (rstr.r1 a * conv)
  /\ rstr.r2 b * conv == str_float (rstr.r2 a * conv)
  /\ rstr.r3 b * conv == str_float (rstr.r3 a * conv)
  /\ rstr.r4 b * conv == str_float (rstr.r4 a * conv)
  /\ rstr.rk2 b == str_float (rstr.rk2 a)
  /\ rstr.rk3 b == str_float (rstr.rk3 a)
  /\ rstr.rstwt b = map str_float (rstr.rstwt a).

(** A restraint all of whose written numbers [str] spells in full. *)
Definition written_in_full (a : rstr.NmroptRestraint) : Prop :=
  let conv := rstr._report_conversion a in
  str_float (rstr.r1 a * conv) == rstr.r1 a * conv
  /\ str_float (rstr.r2 a * conv) == rstr.r2 a * conv
  /\ str_float (rstr.r3 a * conv) == rstr.r3 a * conv
  /\ str_float (rstr.r4 a * conv) == rstr.r4 a * conv
  /\ str_float (rstr.rk2 a) == rstr.rk2 a
  /\ str_float (rstr.rk3 a) == rstr.rk3 a
  /\ Forall (fun w => str_float w == w) (rstr.rstwt a).

(** The same kind, atoms, positions, force constants and weights, as
    numbers. *)
Definition same_values (a b : rstr.NmroptRestraint) : Prop :=
  rstr.class_of a = rstr.class_of b
  /\ rstr.iat a = rstr.iat b
  /\ rstr.r1 a == rstr.r1 b /\ rstr.r2 a == rstr.r2 b
  /\ rstr.r3 a == rstr.r3 b /\ rstr.r4 a == rstr.r4 b
  /\ rstr.rk2 a == rstr.rk2 b /\ rstr.rk3 a == rstr.rk3 b
  /\ Forall2 Qeq (rstr.rstwt a) (rstr.rstwt b).

(** Every constructor leaves a restraint with at least one atom. *)
Definition has_atoms (a : rstr.NmroptRestraint) : Prop := rstr.iat a <> [].

(** What the constructors establish about the object they return: ordered
    positions, and atoms and weights in the numbers its class asks for. *)
Definition constructed (s : rstr.NmroptRestraint) : Prop :=
  ordered s
  /\ match rstr.class_of s with
     | rstr.BondRestraint =>
         length (rstr.iat s) = 2%nat /\ rstr.rstwt s = []
     | rstr.AngleRestraint =>
         length (rstr.iat s) = 3%nat /\ rstr.rstwt s = []
     | rstr.TorsionRestraint =>
         length (rstr.iat s) = 4%nat /\ rstr.rstwt s = []
     | rstr.GenDistCoordRestraint =>
         (length (rstr.iat s) mod 2 = 0)%nat /\ rstr.rstwt s <> []
         /\ length (rstr.rstwt s) = (length (rstr.iat s) / 2)%nat
     end.

(** The dict [DecomposeEnergy] fills: one entry per kind. *)
Definition buckets (b a t g : Q) : dict Q :=
  [("Bond", b); ("Angle", a); ("Torsion", t);
   ("Gen. Dist. Coord.", g)]%string.

(** ** Sample data *)

(** A geometry provider whose every coordinate is [v] and whose gradients
    vanish. *)
Definition constant_geometry (v : Q) : coordinates :=
  let g := [0; 0; 0] in
  {| Bond := fun _ _ _ => v;
     BondAndGradients := fun _ _ _ => (v, g, g);
     Angle := fun _ _ _ _ => v;
     AngleAndGradients := fun _ _ _ _ => (v, g, g, g);
     Dihedral := fun _ _ _ _ _ => v;
     DihedralAndGradients := fun _ _ _ _ _ => (v, g, g, g, g) |}.

(** A bond restraint with a proper well: flat on [2, 3], parabolic on
    [1, 2] and [3, 4]. *)
Definition sample_bond : rstr.NmroptRestraint :=
  match rstr.BondRestraint_init [1; 2]%Z
          [("r1", 1); ("r2", 2); ("r3", 3); ("r4", 4);
           ("rk2", 10); ("rk3", 20)]%string with
  | Ok b => b
  | Raise _ => rstr.mkRestraint rstr.BondRestraint [] 0 0 0 0 0 0 []
  end.

(** The torsion restraint that [r0 = 90] degrees and [k0 = 1] define on
    atoms 1 to 4. *)
Definition sample_torsion : rstr.NmroptRestraint :=
  match rstr.TorsionRestraint_init [1; 2; 3; 4]%Z
          [("r0", 90); ("k0", 1)]%string with
  | Ok t => t
  | Raise _ => rstr.mkRestraint rstr.TorsionRestraint [] 0 0 0 0 0 0 []
  end.

(** The bond restraint of the specification's scenario: atoms 1 and 2,
    r0 = 1.0, k0 = 10. *)
Definition harmonic_bond : rstr.NmroptRestraint :=
  match rstr.BondRestraint_init [1; 2]%Z
          [("r0", 1.0); ("k0", 10)]%string with
  | Ok b => b
  | Raise _ => rstr.mkRestraint rstr.BondRestraint [] 0 0 0 0 0 0 []
  end.

(** Two atoms 1.5 apart, and the geometry provider at that distance. *)
Definition two_atoms : list Q := [0; 0; 0; 1.5; 0; 0].

(** A restraint file with a bond, a torsion and a generalized distance. *)
Definition sample_file : list namelist :=
  [mkNamelist "rst" (Some [1; 2]%Z) None [("r0", 1.0); ("k0", 10)]%string;
   mkNamelist "rst" (Some [1; 2; 3; 4]%Z) None
     [("r1", -90); ("r2", 60); ("r3", 70); ("r4", 180);
      ("rk2", 5); ("rk3", 6)]%string;
   mkNamelist "rst" (Some [1; 2; 3; 4]%Z) (Some [1; -1])
     [("r1", -5); ("r2", 0); ("r3", 0); ("r4", 5);
      ("rk2", 3); ("rk3", 3)]%string].

(** A reader of groups that knows two files: [in.RST] holds [sample_file],
    any other name holds what writing the decoded [sample_file] produces. *)
Definition sample_reader (rstFilename : string) : list namelist :=
  if String.eqb rstFilename "in.RST" then sample_file
  else match rstr.read_namelists sample_file [] with
       | Ok rs => snd (rstr.WriteAmberRestraintFile rs "title")
       | Raise _ => []
       end.

(** A restraint file with one bond whose position has fourteen
    significant digits. *)
Definition long_file : list namelist :=
  [mkNamelist "rst" (Some [1; 2]%Z) None
     [("r0", 1.2345678901234); ("k0", 10)]%string].

(** A reader of groups that knows [in.RST], which holds [long_file]; any
    other name holds what writing the decoded [long_file] produces. *)
Definition long_reader (rstFilename : string) : list namelist :=
  if String.eqb rstFilename "in.RST" then long_file
  else match rstr.read_namelists long_file [] with
       | Ok rs => snd (rstr.WriteAmberRestraintFile rs "title")
       | Raise _ => []
       end.

(** ** Notions used by the further properties *)

(** Assigning values to restraints in order, until either runs out or a
    value is rejected. *)
Fixpoint assign_in_order (params : string) (rstrs : list rstr.NmroptRestraint)
    (values : list Q) : list rstr.NmroptRestraint * result unit :=
  match rstrs, values with
  | rstr :: rstrs', value :: values' =>
      match rstr.SetRestraintParameters [(params, value)] rstr with
      | (rstr', Ok _) =>
          let '(rest, outcome) := assign_in_order params rstrs' values' in
          (rstr' :: rest, outcome)
      | (rstr', Raise e) => (rstr' :: rstrs', Raise e)
      end
  | _, _ => (rstrs, Ok tt)
  end.

(** What no method changes once a restraint is built: its class, its atoms
    and its weights. *)
Definition same_identity (a b : rstr.NmroptRestraint) : Prop :=
  rstr.class_of a = rstr.class_of b /\ rstr.iat a = rstr.iat b
  /\ rstr.rstwt a = rstr.rstwt b.

(** The sum of two gradients, component by component; [gradients] gives
    the length. *)
Fixpoint add_onto (gradients g : list Q) : list Q :=
  match gradients, g with
  | a :: gradients', b :: g' => (a + b) :: add_onto gradients' g'
  | _, _ => gradients
  end.

(** What a geometry provider returns as the gradient of one atom: three
    components. *)
Record three_components (geom : coordinates) : Prop := {
  Bond_gradients : forall crds i j,
    length (snd (fst (BondAndGradients geom crds i j))) = 3%nat
    /\ length (snd (BondAndGradients geom crds i j)) = 3%nat;
  Angle_gradients : forall crds i j k,
    length (snd (fst (fst (AngleAndGradients geom crds i j k)))) = 3%nat
    /\ length (snd (fst (AngleAndGradients geom crds i j k))) = 3%nat
    /\ length (snd (AngleAndGradients geom crds i j k)) = 3%nat;
  Dihedral_gradients : forall crds i j k l,
    length (snd (fst (fst (fst (DihedralAndGradients geom crds i j k l)))))
    = 3%nat
    /\ length (snd (fst (fst (DihedralAndGradients geom crds i j k l))))
       = 3%nat
    /\ length (snd (fst (DihedralAndGradients geom crds i j k l))) = 3%nat
    /\ length (snd (DihedralAndGradients geom crds i j k l)) = 3%nat
}.

(** Whether the coordinate with index [p] belongs to the atom numbered
    [a] (atoms are numbered from 1, three coordinates each). *)
Definition coordinate_of_atom (p : nat) (a : Z) : bool :=
  ((3 * (a - 1) <=? Z.of_nat p) && (Z.of_nat p <? 3 * a))%Z.

(** The atoms of a generalized distance coordinate, two by two. *)
Fixpoint atom_pairs (l : list Z) : list (Z * Z) :=
  match l with
  | a :: b :: l' => (a, b) :: atom_pairs l'
  | _ => []
  end.

(** The weighted sum of the distances of these pairs, added to [r]. *)
Definition weighted_distances (geom : coordinates) (crds : list Q)
    (ws : list Q) (prs : list (Z * Z)) (r : Q) : Q :=
  fold_left (fun r wp =>
               r + fst wp * Bond geom crds (fst (snd wp) - 1)
                                           (snd (snd wp) - 1))
            (combine ws prs) r.

(** A group that defines a restraint: its name is [rst]. *)
Definition is_rst (nl : namelist) : bool := String.eqb (name nl) "rst".

(** The restraint a well-formed [&rst] group stands for: the atoms of
    [iat]; a generalized distance with the weights of [rstwt] when that key
    is present, otherwise a bond, an angle or a torsion by the number of
    atoms. *)
Definition decodes_to (nl : namelist) (rst : rstr.NmroptRestraint) : Prop :=
  iat_value nl = Some (rstr.iat rst)
  /\ match rstwt_value nl with
     | Some w =>
         rstr.class_of rst = rstr.GenDistCoordRestraint /\ rstr.rstwt rst = w
     | None =>
         rstr.class_of rst
         = match length (rstr.iat rst) with
           | 2%nat => rstr.BondRestraint
           | 3%nat => rstr.AngleRestraint
           | _ => rstr.TorsionRestraint
           end
     end
  /\ rstr.NmroptRestraint_init (rstr.class_of rst) (rstr.iat rst)
                               (float_values nl)
     = Ok (rstr.set_rstwt rst [])
  /\ constructed rst.

(** The energy of the members of one class, for a list of members paired
    with their energies. *)
Definition kind_total (c : rstr.rstr_class)
    (members : list (rstr.NmroptRestraint * Q)) (start : Q) : Q :=
  fold_left (fun acc re =>
               if rstr.class_eqb (rstr.class_of (fst re)) c
               then acc + snd re else acc)
            members start.

(** Whether [extend] looks inside its argument. *)
Definition is_iterable (o : rstr.pyobj) : bool :=
  match o with
  | rstr.PyIterable _ => true
  | _ => false
  end.

(** The dict the earlier [DecomposeEnergy] fills; its [Restraint] entry
    stays at zero until the end. *)
Definition legacy_buckets (b a t g : Q) : dict Q :=
  [("Restraint", 0); ("Bond", b); ("Angle", a); ("Torsion", t);
   ("Gen. Dist. Coord.", g)]%string.

(** The four kinds of restraint the earlier module names. *)
Definition legacy_kinds : list string :=
  ["Bond"; "Angle"; "Torsion"; "Gen. Dist. Coord."]%string.

(** * Properties *)

Import rstr.

(** ** Comparisons and constants *)

Lemma ltb_true (x y : Q) : ltb x y = true <-> x < y.
Proof.
  unfold ltb. rewrite negb_true_iff.
  split; intro H.
  - apply Qnot_le_lt. intro Hle. apply Qle_bool_iff in Hle. congruence.
  - destruct (Qle_bool y x) eqn:E; [|reflexivity].
    apply Qle_bool_iff in E. exfalso. apply (Qlt_not_le _ _ H E).
Qed.

Lemma ltb_false (x y : Q) : ltb x y = false <-> y <= x.
Proof.
  unfold ltb. rewrite negb_false_iff. apply Qle_bool_iff.
Qed.

Lemma leb_true (x y : Q) : leb x y = true <-> x <= y.
Proof. apply Qle_bool_iff. Qed.

Lemma leb_false (x y : Q) : leb x y = false <-> y < x.
Proof.
  unfold leb. split; intro H.
  - apply Qnot_le_lt. intro Hle. apply Qle_bool_iff in Hle. congruence.
  - destruct (Qle_bool x y) eqn:E; [|reflexivity].
    apply Qle_bool_iff in E. exfalso. apply (Qlt_not_le _ _ H E).
Qed.

Lemma pi_pos : 0 < pi.
Proof. reflexivity. Qed.

(** Decides every comparison in the goal and hands the resulting facts to
    linear arithmetic. *)
Ltac cmp_cases :=
  repeat match goal with
  | |- context [ltb ?x ?y] =>
      let E := fresh "C" in
      destruct (ltb x y) eqn:E;
      [apply ltb_true in E | apply ltb_false in E]
  | |- context [leb ?x ?y] =>
      let E := fresh "C" in
      destruct (leb x y) eqn:E;
      [apply leb_true in E | apply leb_false in E]
  end; cbn [andb negb].

(** ** The potential (rstr.py, [EnergyAndGradients]) *)

Lemma monotonic_true (self : NmroptRestraint) :
  monotonic self = true
  <-> r1 self <= r2 self /\ r2 self <= r3 self /\ r3 self <= r4 self.
Proof.
  unfold monotonic. rewrite !andb_true_iff, !leb_true. tauto.
Qed.

Lemma well_law (self : NmroptRestraint) (r : Q) :
  r1 self <= r2 self -> r2 self <= r3 self -> r3 self <= r4 self ->
  flat_bottom_law (r1 self) (r2 self) (r3 self) (r4 self) (rk2 self)
                  (rk3 self) r (snd (well self r)).
Proof.
  intros H12 H23 H34. unfold flat_bottom_law, well.
  repeat split; intros; cmp_cases; try reflexivity; exfalso; lra.
Qed.

Lemma Energy_of_value (geom : coordinates) (self : NmroptRestraint) (r : Q) :
  EnergyAndGradients geom self (PyFloat r)
  = Ok (snd (well self r), [fst (well self r) * 0])
  /\ Energy geom self (PyFloat r) = Ok (snd (well self r)).
Proof.
  unfold Energy, EnergyAndGradients. cbn.
  destruct (well self r); split; reflexivity.
Qed.

Lemma Energy_of_crds (geom : coordinates) (self : NmroptRestraint)
    (crds : list Q) (r : Q) (drdx : list Q) :
  CoordAndGradients geom self crds = Ok (r, drdx) ->
  EnergyAndGradients geom self (PyList crds)
  = Ok (snd (well self r), map (fun d => fst (well self r) * d) drdx)
  /\ Energy geom self (PyList crds) = Ok (snd (well self r)).
Proof.
  intro H. unfold Energy, EnergyAndGradients. rewrite H. cbn.
  destruct (well self r); split; reflexivity.
Qed.

(** C1.  For a restraint whose boundaries satisfy r1 <= r2 <= r3 <= r4,
    [Energy] and [EnergyAndGradients] evaluate the coordinate [r] by the
    five-branch flat-bottom law, whether [r] is passed directly or is the
    value [CoordAndGradients] computes from Cartesian coordinates.  The
    bond restraint built from r0 = 1.0 and k0 = 10 has r1 = -499, r2 = r3 = 1,
    r4 = 501 and both force constants 10, and its energy at 1.5 is 2.5. *)
Theorem flat_bottom_energy (geom : coordinates) (self : NmroptRestraint)
    (r : Q) :
  r1 self <= r2 self -> r2 self <= r3 self -> r3 self <= r4 self ->
  (exists E g,
      EnergyAndGradients geom self (PyFloat r) = Ok (E, g)
      /\ Energy geom self (PyFloat r) = Ok E
      /\ flat_bottom_law (r1 self) (r2 self) (r3 self) (r4 self)
                         (rk2 self) (rk3 self) r E)
  /\ (forall crds drdx,
         CoordAndGradients geom self crds = Ok (r, drdx) ->
         exists E g,
           EnergyAndGradients geom self (PyList crds) = Ok (E, g)
           /\ Energy geom self (PyList crds) = Ok E
           /\ flat_bottom_law (r1 self) (r2 self) (r3 self) (r4 self)
                              (rk2 self) (rk3 self) r E)
  /\ (exists bond,
         BondRestraint_init [1; 2]%Z [("r0", 1.0); ("k0", 10)]%string
         = Ok bond
         /\ r1 bond == -499 /\ r2 bond == 1 /\ r3 bond == 1
         /\ r4 bond == 501 /\ rk2 bond == 10 /\ rk3 bond == 10
         /\ exists E, Energy geom bond (PyFloat 1.5) = Ok E /\ E == 2.5).
Proof.
  intros H12 H23 H34. split; [|split].
  - destruct (Energy_of_value geom self r) as [HEG HE].
    eexists; eexists. split; [exact HEG|]. split; [exact HE|].
    apply well_law; assumption.
  - intros crds drdx Hc.
    destruct (Energy_of_crds geom self crds r drdx Hc) as [HEG HE].
    eexists; eexists. split; [exact HEG|]. split; [exact HE|].
    apply well_law; assumption.
  - eexists. split; [reflexivity|].
    repeat (split; [reflexivity|]).
    eexists. split; [apply Energy_of_value|reflexivity].
Qed.

Lemma flat_bottom_energy_witness :
  (r1 sample_bond <= r2 sample_bond /\ r2 sample_bond <= r3 sample_bond
   /\ r3 sample_bond <= r4 sample_bond)
  /\ exists E g,
      EnergyAndGradients (constant_geometry 0) sample_bond (PyFloat (7 # 2))
      = Ok (E, g)
      /\ Energy (constant_geometry 0) sample_bond (PyFloat (7 # 2)) = Ok E
      /\ flat_bottom_law (r1 sample_bond) (r2 sample_bond) (r3 sample_bond)
                         (r4 sample_bond) (rk2 sample_bond) (rk3 sample_bond)
                         (7 # 2) E.
Proof.
  assert (H12 : r1 sample_bond <= r2 sample_bond) by (vm_compute; discriminate).
  assert (H23 : r2 sample_bond <= r3 sample_bond) by (vm_compute; discriminate).
  assert (H34 : r3 sample_bond <= r4 sample_bond) by (vm_compute; discriminate).
  split; [tauto|].
  exact (proj1 (flat_bottom_energy (constant_geometry 0) sample_bond (7 # 2)
                                   H12 H23 H34)).
Defined.

(** *** Continuity *)

Lemma flank_energy_mono_lip (x y w : Q) :
  0 <= w -> x <= y ->
  0 <= flank_energy y w - flank_energy x w
  /\ flank_energy y w - flank_energy x w <= 2 * w * (y - x).
Proof.
  intros Hw Hxy. unfold flank_energy.
  cmp_cases; split; try nra.
Qed.

Lemma flank_slope_mono_lip (x y w : Q) :
  0 <= w -> x <= y ->
  0 <= flank_slope y w - flank_slope x w
  /\ flank_slope y w - flank_slope x w <= 2 * (y - x).
Proof.
  intros Hw Hxy. unfold flank_slope.
  cmp_cases; split; try lra.
Qed.


Lemma flank_energy_values (x w : Q) :
  0 <= w ->
  (x <= 0 -> flank_energy x w == 0)
  /\ (0 <= x -> x <= w -> flank_energy x w == x ^ 2)
  /\ (w <= x -> flank_energy x w == 2 * w * x - w ^ 2).
Proof.
  intro Hw. unfold flank_energy.
  repeat split; intros; cmp_cases; try reflexivity; try (exfalso; lra).
  - assert (E : x == 0) by lra. rewrite E. ring.
  - assert (E : x == 0) by lra. assert (E' : w == 0) by lra.
    rewrite E, E'. ring.
  - assert (E : x == w) by lra. rewrite E. ring.
Qed.

Lemma flank_slope_values (x w : Q) :
  0 <= w ->
  (x <= 0 -> flank_slope x w == 0)
  /\ (0 <= x -> x <= w -> flank_slope x w == 2 * x)
  /\ (w <= x -> flank_slope x w == 2 * w).
Proof.
  intro Hw. unfold flank_slope.
  repeat split; intros; cmp_cases; try reflexivity; try (exfalso; lra).
  - assert (E : x == 0) by lra. rewrite E. ring.
  - assert (E : x == 0) by lra. assert (E' : w == 0) by lra.
    rewrite E'. ring.
  - assert (E : x == w) by lra. rewrite E. ring.
Qed.

Lemma well_cases (self : NmroptRestraint) (r : Q) :
  ordered self ->
  (r < r1 self /\ well self r = branch_below_r1 self r)
  \/ (r1 self <= r /\ r < r2 self /\ well self r = branch_r1_r2 self r)
  \/ (r2 self <= r /\ r < r3 self /\ well self r = branch_r2_r3 self r)
  \/ (r3 self <= r /\ r < r4 self /\ well self r = branch_r3_r4 self r)
  \/ (r4 self <= r /\ well self r = branch_above_r4 self r).
Proof.
  intros (H12 & H23 & H34). unfold well.
  cmp_cases; try (exfalso; lra); tauto.
Qed.

Lemma well_as_flanks (self : NmroptRestraint) (r : Q) :
  ordered self ->
  fst (well self r)
  == rk3 self * flank_slope (r - r3 self) (r4 self - r3 self)
     - rk2 self * flank_slope (r2 self - r) (r2 self - r1 self)
  /\ snd (well self r)
     == rk2 self * flank_energy (r2 self - r) (r2 self - r1 self)
        + rk3 self * flank_energy (r - r3 self) (r4 self - r3 self).
Proof.
  intros Hord. pose proof Hord as (H12 & H23 & H34).
  assert (Hw : 0 <= r2 self - r1 self) by lra.
  assert (Hw' : 0 <= r4 self - r3 self) by lra.
  destruct (flank_energy_values (r2 self - r) _ Hw) as (L0 & L1 & L2).
  destruct (flank_energy_values (r - r3 self) _ Hw') as (R0 & R1 & R2).
  destruct (flank_slope_values (r2 self - r) _ Hw) as (SL0 & SL1 & SL2).
  destruct (flank_slope_values (r - r3 self) _ Hw') as (SR0 & SR1 & SR2).
  destruct (well_cases self r Hord)
    as [[C ->] | [(C1 & C2 & ->) | [(C1 & C2 & ->) | [(C1 & C2 & ->)
        | [C ->]]]]];
    unfold branch_below_r1, branch_r1_r2, branch_r2_r3, branch_r3_r4,
      branch_above_r4; cbn [fst snd].
  - rewrite L2, R0, SL2, SR0 by lra. split; ring.
  - rewrite L1, R0, SL1, SR0 by lra. split; ring.
  - rewrite L0, R0, SL0, SR0 by lra. split; ring.
  - rewrite L0, R1, SL0, SR1 by lra. split; ring.
  - rewrite L0, R2, SL0, SR2 by lra. split; ring.
Qed.

(** The energy and its derivative are Lipschitz in the coordinate, hence
    continuous everywhere. *)
Lemma well_lipschitz (self : NmroptRestraint) (r s : Q) :
  ordered self ->
  Qabs (snd (well self r) - snd (well self s))
  <= 2 * (Qabs (rk2 self) * (r2 self - r1 self)
          + Qabs (rk3 self) * (r4 self - r3 self)) * Qabs (r - s)
  /\ Qabs (fst (well self r) - fst (well self s))
     <= 2 * (Qabs (rk2 self) + Qabs (rk3 self)) * Qabs (r - s).
Proof.
  intros Hord. pose proof Hord as (H12 & H23 & H34).
  destruct (well_as_flanks self r Hord) as [Dr Er].
  destruct (well_as_flanks self s Hord) as [Ds Es].
  rewrite Dr, Ds, Er, Es.
  assert (Hw : 0 <= r2 self - r1 self) by lra.
  assert (Hw' : 0 <= r4 self - r3 self) by lra.
  set (w := r2 self - r1 self) in *. set (w' := r4 self - r3 self) in *.
  assert (Hsym : forall a b : Q, a <= b ->
            (0 <= flank_energy (r2 self - a) w - flank_energy (r2 self - b) w
             /\ flank_energy (r2 self - a) w - flank_energy (r2 self - b) w
                <= 2 * w * (b - a))
            /\ (0 <= flank_energy (b - r3 self) w'
                     - flank_energy (a - r3 self) w'
                /\ flank_energy (b - r3 self) w' - flank_energy (a - r3 self) w'
                   <= 2 * w' * (b - a))
            /\ (0 <= flank_slope (r2 self - a) w - flank_slope (r2 self - b) w
                /\ flank_slope (r2 self - a) w - flank_slope (r2 self - b) w
                   <= 2 * (b - a))
            /\ (0 <= flank_slope (b - r3 self) w' - flank_slope (a - r3 self) w'
                /\ flank_slope (b - r3 self) w' - flank_slope (a - r3 self) w'
                   <= 2 * (b - a))).
  { intros a b Hab.
    pose proof (flank_energy_mono_lip (r2 self - b) (r2 self - a) w Hw) as P1.
    pose proof (flank_energy_mono_lip (a - r3 self) (b - r3 self) w' Hw') as P2.
    pose proof (flank_slope_mono_lip (r2 self - b) (r2 self - a) w Hw) as P3.
    pose proof (flank_slope_mono_lip (a - r3 self) (b - r3 self) w' Hw') as P4.
    repeat split; try (apply P1; lra); try (apply P2; lra);
      try (apply P3; lra); try (apply P4; lra).
    - eapply Qle_trans; [apply P1; lra | lra].
    - eapply Qle_trans; [apply P2; lra | lra].
    - eapply Qle_trans; [apply P3; lra | lra].
    - eapply Qle_trans; [apply P4; lra | lra]. }
  pose proof (Qabs_nonneg (rk2 self)) as K2.
  pose proof (Qabs_nonneg (rk3 self)) as K3.
  pose proof (Qle_Qabs (rk2 self)) as K2u.
  pose proof (Qle_Qabs (rk3 self)) as K3u.
  pose proof (Qle_Qabs (- rk2 self)) as K2l. rewrite Qabs_opp in K2l.
  pose proof (Qle_Qabs (- rk3 self)) as K3l. rewrite Qabs_opp in K3l.
  set (A2 := Qabs (rk2 self)) in *. set (A3 := Qabs (rk3 self)) in *.
  destruct (Qlt_le_dec r s) as [Hrs | Hsr].
  - destruct (Hsym r s (Qlt_le_weak _ _ Hrs)) as (P1 & P2 & P3 & P4).
    rewrite (Qabs_neg (r - s)) by lra.
    split; apply Qabs_Qle_condition; split; nra.
  - destruct (Hsym s r Hsr) as (P1 & P2 & P3 & P4).
    rewrite (Qabs_pos (r - s)) by lra.
    split; apply Qabs_Qle_condition; split; nra.
Qed.

(** C2.  For a restraint with r1 <= r2 <= r3 <= r4 the closed forms of the
    two branches that meet at r1, at r2, at r3 and at r4 give the same
    energy and the same derivative dE/dr there, and the energy is zero for
    every coordinate in the closed interval from r2 to r3.  The energy and
    the derivative that the code selects are moreover Lipschitz functions
    of the coordinate: their values at r and s differ by at most a constant
    times |r - s|, so they are continuous at the boundaries and everywhere
    else. *)
Theorem well_continuous (geom : coordinates) (self : NmroptRestraint) :
  r1 self <= r2 self -> r2 self <= r3 self -> r3 self <= r4 self ->
  (fst (branch_below_r1 self (r1 self)) == fst (branch_r1_r2 self (r1 self))
   /\ snd (branch_below_r1 self (r1 self))
      == snd (branch_r1_r2 self (r1 self)))
  /\ (fst (branch_r1_r2 self (r2 self)) == fst (branch_r2_r3 self (r2 self))
      /\ snd (branch_r1_r2 self (r2 self))
         == snd (branch_r2_r3 self (r2 self)))
  /\ (fst (branch_r2_r3 self (r3 self)) == fst (branch_r3_r4 self (r3 self))
      /\ snd (branch_r2_r3 self (r3 self))
         == snd (branch_r3_r4 self (r3 self)))
  /\ (fst (branch_r3_r4 self (r4 self))
      == fst (branch_above_r4 self (r4 self))
      /\ snd (branch_r3_r4 self (r4 self))
         == snd (branch_above_r4 self (r4 self)))
  /\ (forall r, r2 self <= r -> r <= r3 self ->
        exists E, Energy geom self (PyFloat r) = Ok E /\ E == 0)
  /\ (forall r s,
         Qabs (snd (well self r) - snd (well self s))
         <= 2 * (Qabs (rk2 self) * (r2 self - r1 self)
                 + Qabs (rk3 self) * (r4 self - r3 self)) * Qabs (r - s)
         /\ Qabs (fst (well self r) - fst (well self s))
            <= 2 * (Qabs (rk2 self) + Qabs (rk3 self)) * Qabs (r - s)).
Proof.
  intros H12 H23 H34.
  assert (Hlip := fun r s =>
            well_lipschitz self r s (conj H12 (conj H23 H34))).
  unfold branch_below_r1, branch_r1_r2, branch_r2_r3, branch_r3_r4,
    branch_above_r4; cbn [fst snd].
  repeat split; try ring; try apply Hlip.
  intros r Hlo Hhi.
  exists (snd (well self r)). split; [apply Energy_of_value|].
  unfold well, branch_below_r1, branch_r1_r2, branch_r2_r3, branch_r3_r4,
    branch_above_r4.
  cmp_cases; cbn [fst snd]; try reflexivity; try (exfalso; lra).
  - assert (E : r == r3 self) by lra. rewrite E. ring.
  - assert (E : r4 self == r3 self) by lra. rewrite E. ring.
Qed.

Lemma well_continuous_witness :
  (r1 sample_bond <= r2 sample_bond /\ r2 sample_bond <= r3 sample_bond
   /\ r3 sample_bond <= r4 sample_bond)
  /\ forall r, r2 sample_bond <= r -> r <= r3 sample_bond ->
       exists E,
         Energy (constant_geometry 0) sample_bond (PyFloat r) = Ok E
         /\ E == 0.
Proof.
  assert (H12 : r1 sample_bond <= r2 sample_bond) by (vm_compute; discriminate).
  assert (H23 : r2 sample_bond <= r3 sample_bond) by (vm_compute; discriminate).
  assert (H34 : r3 sample_bond <= r4 sample_bond) by (vm_compute; discriminate).
  split; [tauto|].
  exact (proj1 (proj2 (proj2 (proj2 (proj2
    (well_continuous (constant_geometry 0) sample_bond H12 H23 H34)))))).
Defined.

(** ** The nearest periodic image (rstr.py, [TorsionRestraint]) *)

Lemma loop_unfold (fuel : nat) (rmean r : Q) :
  nearest_image_loop (S fuel) rmean r
  = if ltb pi (r - rmean) then nearest_image_loop fuel rmean (r - 2 * pi)
    else if ltb pi (rmean - r)
         then nearest_image_loop fuel rmean (r + 2 * pi)
         else Some r.
Proof. reflexivity. Qed.

(** A result does not depend on the fuel left over. *)
Lemma loop_more_fuel (n m : nat) (rmean r r' : Q) :
  nearest_image_loop n rmean r = Some r' ->
  nearest_image_loop (n + m) rmean r = Some r'.
Proof.
  revert r. induction n as [|n IH]; intros r H; [discriminate|].
  change (S n + m)%nat with (S (n + m)).
  rewrite loop_unfold in *.
  destruct (ltb pi (r - rmean)); [apply IH; exact H|].
  destruct (ltb pi (rmean - r)); [apply IH; exact H|exact H].
Qed.

(** What the loop returns lies within [pi] of the centre and differs from
    the value it started from by a whole number of periods. *)
Lemma loop_result (n : nat) (rmean r r' : Q) :
  nearest_image_loop n rmean r = Some r' ->
  (rmean - pi <= r' /\ r' <= rmean + pi)
  /\ exists k : Z, r' == r + inject_Z k * (2 * pi).
Proof.
  revert r. induction n as [|n IH]; intros r H; [discriminate|].
  rewrite loop_unfold in H.
  destruct (ltb pi (r - rmean)) eqn:C1.
  - destruct (IH _ H) as [Hb [k Hk]]. split; [exact Hb|].
    exists (k - 1)%Z. rewrite Hk.
    unfold Z.sub. rewrite inject_Z_plus, inject_Z_opp.
    change (inject_Z 1) with 1. ring.
  - destruct (ltb pi (rmean - r)) eqn:C2.
    + destruct (IH _ H) as [Hb [k Hk]]. split; [exact Hb|].
      exists (k + 1)%Z. rewrite Hk. rewrite inject_Z_plus.
      change (inject_Z 1) with 1. ring.
    + injection H as <-. apply ltb_false in C1, C2.
      split; [split; lra|]. exists 0%Z. change (inject_Z 0) with 0. ring.
Qed.

(** Each pass of the loop brings [r] strictly closer to the centre. *)
Lemma loop_step_closer (rmean r : Q) :
  (pi < r - rmean -> Qabs (r - 2 * pi - rmean) < Qabs (r - rmean))
  /\ (pi < rmean - r -> Qabs (r + 2 * pi - rmean) < Qabs (r - rmean)).
Proof.
  pose proof pi_pos as Hpi.
  split; intro H.
  - rewrite (Qabs_pos (r - rmean)) by lra.
    apply Qabs_Qlt_condition. split; lra.
  - rewrite (Qabs_neg (r - rmean)) by lra.
    apply Qabs_Qlt_condition. split; lra.
Qed.

(** [n + 1] tests are enough when [r] is within [2n + 1] half periods. *)
Lemma loop_terminates_within (n : nat) (rmean r : Q) :
  Qabs (r - rmean) <= (2 * inject_Z (Z.of_nat n) + 1) * pi ->
  exists r', nearest_image_loop (S n) rmean r = Some r'.
Proof.
  pose proof pi_pos as Hpi.
  revert r. induction n as [|n IH]; intros r H; rewrite loop_unfold;
    apply Qabs_Qle_condition in H; destruct H as [Hlo Hhi].
  - change (inject_Z (Z.of_nat 0)) with 0 in *.
    destruct (ltb pi (r - rmean)) eqn:C1;
      [apply ltb_true in C1; exfalso; lra|].
    destruct (ltb pi (rmean - r)) eqn:C2;
      [apply ltb_true in C2; exfalso; lra|].
    eexists; reflexivity.
  - rewrite Nat2Z.inj_succ in Hlo, Hhi. unfold Z.succ in Hlo, Hhi.
    rewrite inject_Z_plus in Hlo, Hhi. change (inject_Z 1) with 1 in *.
    assert (Hn : 0 <= inject_Z (Z.of_nat n)).
    { change 0 with (inject_Z 0). rewrite <- Zle_Qle. lia. }
    assert (Hnpi : 0 <= inject_Z (Z.of_nat n) * pi).
    { apply Qmult_le_0_compat; [exact Hn | lra]. }
    destruct (ltb pi (r - rmean)) eqn:C1.
    + apply ltb_true in C1. apply IH. apply Qabs_Qle_condition. split; lra.
    + apply ltb_false in C1.
      destruct (ltb pi (rmean - r)) eqn:C2.
      * apply ltb_true in C2. apply IH. apply Qabs_Qle_condition.
        split; lra.
      * eexists; reflexivity.
Qed.

Lemma image_fuel_enough (rmean r : Q) :
  exists r', nearest_image_loop (image_fuel rmean r) rmean r = Some r'.
Proof.
  pose proof pi_pos as Hpi.
  unfold image_fuel. apply loop_terminates_within.
  set (d := Qabs (r - rmean) / (2 * pi)).
  set (y := d + (1 # 2)).
  assert (Hd0 : 0 <= d).
  { unfold d. pose proof (Qabs_nonneg (r - rmean)) as Ha.
    apply Qle_shift_div_l; lra. }
  assert (Hf : (0 <= Qfloor y)%Z).
  { change 0%Z with (Qfloor 0). apply Qfloor_resp_le. unfold y. lra. }
  rewrite Z2Nat.id by exact Hf.
  pose proof (Qlt_floor y) as Hlt. rewrite inject_Z_plus in Hlt.
  change (inject_Z 1) with 1 in Hlt.
  set (f := inject_Z (Qfloor y)) in *.
  assert (Hd : d <= f + (1 # 2)) by (unfold y in Hlt; lra).
  assert (Hm : Qabs (r - rmean) == d * (2 * pi)).
  { unfold d. field. lra. }
  rewrite Hm.
  setoid_replace ((2 * f + 1) * pi) with ((f + (1 # 2)) * (2 * pi)) by ring.
  apply Qmult_le_compat_r; lra.
Qed.

Lemma nearest_image_is_loop (rmean r : Q) :
  nearest_image_loop (image_fuel rmean r) rmean r
  = Some (nearest_image rmean r).
Proof.
  unfold nearest_image.
  destruct (image_fuel_enough rmean r) as [r' H]. rewrite H. reflexivity.
Qed.

Lemma nearest_image_within (rmean r : Q) :
  (rmean - pi <= nearest_image rmean r /\ nearest_image rmean r <= rmean + pi)
  /\ exists k : Z, nearest_image rmean r == r + inject_Z k * (2 * pi).
Proof.
  apply (loop_result (image_fuel rmean r)). apply nearest_image_is_loop.
Qed.

(** No other periodic image of [r] is closer to the centre than one that
    lies within [pi] of it. *)
Lemma within_pi_is_nearest (center raw v : Q) (k : Z) :
  center - pi <= v -> v <= center + pi ->
  v == raw + inject_Z k * (2 * pi) ->
  forall k' : Z,
    Qabs (v - center) <= Qabs (raw + inject_Z k' * (2 * pi) - center).
Proof.
  intros Hlo Hhi Hv k'. pose proof pi_pos as Hpi.
  set (M := inject_Z k' - inject_Z k).
  assert (HX : raw + inject_Z k' * (2 * pi) - center
               == (v - center) + M * (2 * pi)).
  { unfold M. rewrite Hv. ring. }
  rewrite HX.
  destruct (Z.lt_trichotomy k' k) as [Hlt | [Heq | Hgt]].
  - assert (HM : M <= -1).
    { unfold M. assert (H : inject_Z k' <= inject_Z (k - 1)).
      { rewrite <- Zle_Qle. lia. }
      unfold Z.sub in H. rewrite inject_Z_plus, inject_Z_opp in H.
      change (inject_Z 1) with 1 in H. lra. }
    assert (Hp : 0 <= (- 1 - M) * (2 * pi)).
    { apply Qmult_le_0_compat; lra. }
    rewrite (Qabs_neg (v - center + M * (2 * pi))) by lra.
    apply Qabs_Qle_condition. split; lra.
  - subst k'. unfold M.
    setoid_replace (v - center + (inject_Z k - inject_Z k) * (2 * pi))
      with (v - center) by ring.
    apply Qle_refl.
  - assert (HM : 1 <= M).
    { unfold M. assert (H : inject_Z (k + 1) <= inject_Z k').
      { rewrite <- Zle_Qle. lia. }
      rewrite inject_Z_plus in H. change (inject_Z 1) with 1 in H. lra. }
    assert (Hp : 0 <= (M - 1) * (2 * pi)).
    { apply Qmult_le_0_compat; lra. }
    rewrite (Qabs_pos (v - center + M * (2 * pi))) by lra.
    apply Qabs_Qle_condition. split; lra.
Qed.

Lemma four_atoms (l : list Z) :
  length l = 4%nat -> exists ii jj kk ll, l = [ii; jj; kk; ll].
Proof.
  destruct l as [|a [|b [|c [|d [|e l]]]]]; try discriminate.
  intros _. do 4 eexists. reflexivity.
Qed.

Lemma getitem_four (a b c d : Z) :
  getitem [a; b; c; d] 0 = Ok a /\ getitem [a; b; c; d] 1 = Ok b
  /\ getitem [a; b; c; d] 2 = Ok c /\ getitem [a; b; c; d] 3 = Ok d.
Proof. repeat split. Qed.

(** On machine doubles, a value the loop returns passes both of its
    tests. *)
Lemma binary64_loop_result (n : nat) (rmean r r' : PrimFloat.float) :
  Binary64.nearest_image_loop n rmean r = Some r' ->
  PrimFloat.ltb Binary64.pi (PrimFloat.sub r' rmean) = false
  /\ PrimFloat.ltb Binary64.pi (PrimFloat.sub rmean r') = false.
Proof.
  revert r. induction n as [|n IH]; intros r H; [discriminate|].
  cbn [Binary64.nearest_image_loop] in H.
  destruct (PrimFloat.ltb Binary64.pi (PrimFloat.sub r rmean)) eqn:C1;
    [apply (IH _ H)|].
  destruct (PrimFloat.ltb Binary64.pi (PrimFloat.sub rmean r)) eqn:C2;
    [apply (IH _ H)|].
  injection H as <-. split; assumption.
Qed.

(** C3, as the code has it.  For a torsion restraint on four atoms the
    loop of the source, carried out exactly, exits: some number of tests
    suffices and any larger number gives the same value.  That value is a
    periodic image of the raw dihedral and lies in the closed interval
    from center - pi to center + pi, where center = (r2 + r3)/2; no other
    image is nearer to the centre.  Whenever [Coord] returns, it is the
    value returned, and [CoordAndGradients], which runs the same loop,
    then returns it as its first component.  Of the loop on machine
    doubles, which need not exit, it holds that a value it returns passes
    both of its tests: neither the value minus the centre nor the centre
    minus the value, as computed, exceeds pi. *)
Theorem torsion_coord_nearest_image (geom : coordinates)
    (self : NmroptRestraint) (crds : list Q) :
  coordinates_ok geom ->
  class_of self = TorsionRestraint ->
  length (iat self) = 4%nat ->
  (exists ii jj kk ll (n : nat) (v : Q),
      iat self = [ii; jj; kk; ll]
      /\ (forall fuel : nat,
             (n <= fuel)%nat ->
             nearest_image_loop fuel ((r2 self + r3 self) / 2)
               (Dihedral geom crds (ii - 1) (jj - 1) (kk - 1) (ll - 1))
             = Some v)
      /\ (r2 self + r3 self) / 2 - pi <= v
      /\ v <= (r2 self + r3 self) / 2 + pi
      /\ (exists k : Z,
             v == Dihedral geom crds (ii - 1) (jj - 1) (kk - 1) (ll - 1)
                  + inject_Z k * (2 * pi))
      /\ (forall k' : Z,
             Qabs (v - (r2 self + r3 self) / 2)
             <= Qabs (Dihedral geom crds (ii - 1) (jj - 1) (kk - 1) (ll - 1)
                      + inject_Z k' * (2 * pi) - (r2 self + r3 self) / 2))
      /\ (forall v' : Q,
             Coord geom self crds = Ok v' ->
             v' = v
             /\ exists drdx, CoordAndGradients geom self crds = Ok (v', drdx)))
  /\ (forall (n : nat) (rmean r v' : PrimFloat.float),
         Binary64.nearest_image_loop n rmean r = Some v' ->
         PrimFloat.ltb Binary64.pi (PrimFloat.sub v' rmean) = false
         /\ PrimFloat.ltb Binary64.pi (PrimFloat.sub rmean v') = false).
Proof.
  intros Hgeom Hclass Hlen.
  split; [|intros n rmean r v' H;
           exact (binary64_loop_result n rmean r v' H)].
  destruct (four_atoms _ Hlen) as (ii & jj & kk & ll & Hiat).
  set (raw := Dihedral geom crds (ii - 1) (jj - 1) (kk - 1) (ll - 1)).
  set (center := (r2 self + r3 self) / 2).
  destruct (image_fuel_enough center raw) as [v Hloop].
  destruct (loop_result _ _ _ _ Hloop) as [[Hlo Hhi] [k Hk]].
  exists ii, jj, kk, ll, (image_fuel center raw), v.
  split; [exact Hiat|].
  split.
  { intros fuel Hfuel.
    replace fuel
      with (image_fuel center raw + (fuel - image_fuel center raw))%nat
      by lia.
    apply loop_more_fuel. exact Hloop. }
  split; [exact Hlo|]. split; [exact Hhi|].
  split; [exists k; exact Hk|].
  split; [apply (within_pi_is_nearest center raw _ k); assumption|].
  intros v' Hv.
  pose proof (Dihedral_value geom Hgeom crds (ii - 1) (jj - 1) (kk - 1)
                             (ll - 1))%Z as Hval.
  destruct (DihedralAndGradients geom crds (ii - 1) (jj - 1) (kk - 1)
                                 (ll - 1))
    as [[[[raw' gi] gj] gk] gl] eqn:HD.
  cbn [fst] in Hval. subst raw'.
  destruct (getitem_four ii jj kk ll) as (G0 & G1 & G2 & G3).
  assert (Hvalue : v' = nearest_image center raw).
  { unfold Coord in Hv. rewrite Hclass, Hiat, G0, G1, G2, G3 in Hv.
    cbn [bind] in Hv. injection Hv as <-. reflexivity. }
  split.
  - rewrite Hvalue. unfold nearest_image. rewrite Hloop. reflexivity.
  - eexists. unfold CoordAndGradients.
    rewrite Hclass, Hiat, G0, G1, G2, G3. cbn [bind]. rewrite HD, Hvalue.
    reflexivity.
Qed.

Lemma constant_geometry_ok (v : Q) : coordinates_ok (constant_geometry v).
Proof. split; reflexivity. Qed.

Lemma sample_torsion_built :
  TorsionRestraint_init [1; 2; 3; 4]%Z [("r0", 90); ("k0", 1)]%string
  = Ok sample_torsion.
Proof. reflexivity. Qed.

Lemma torsion_coord_nearest_image_witness :
  exists ii jj kk ll (n : nat) (v : Q),
    iat sample_torsion = [ii; jj; kk; ll]
    /\ (forall fuel : nat,
           (n <= fuel)%nat ->
           nearest_image_loop fuel
             ((r2 sample_torsion + r3 sample_torsion) / 2)
             (Dihedral (constant_geometry 4) [] (ii - 1) (jj - 1) (kk - 1)
                       (ll - 1))
           = Some v)
    /\ (r2 sample_torsion + r3 sample_torsion) / 2 - pi <= v
    /\ v <= (r2 sample_torsion + r3 sample_torsion) / 2 + pi
    /\ (forall v' : Q,
           Coord (constant_geometry 4) sample_torsion [] = Ok v' ->
           v' = v
           /\ exists drdx,
                CoordAndGradients (constant_geometry 4) sample_torsion []
                = Ok (v', drdx)).
Proof.
  destruct (torsion_coord_nearest_image (constant_geometry 4) sample_torsion
              [] (constant_geometry_ok 4) eq_refl eq_refl)
    as [(ii & jj & kk & ll & n & v & Hiat & Hloop & Hlo & Hhi & _ & _ & Hv)
        _].
  exists ii, jj, kk, ll, n, v.
  repeat (split; [assumption|]). exact Hv.
Defined.

(** C3, the claim as stated fails.  The torsion restraint defined by
    r0 = 90 degrees has its centre at pi/2; for the raw dihedral -pi/2,
    which lies in (-pi, pi], neither test of the loop fires and [Coord]
    returns -pi/2 = center - pi, the excluded end of the half-open
    interval. *)
Lemma torsion_coord_reaches_lower_end :
  TorsionRestraint_init [1; 2; 3; 4]%Z [("r0", 90); ("k0", 1)]%string
  = Ok sample_torsion
  /\ - pi < Dihedral (constant_geometry (- (pi / 2))) [] 0 1 2 3
  /\ Dihedral (constant_geometry (- (pi / 2))) [] 0 1 2 3 <= pi
  /\ exists v,
       Coord (constant_geometry (- (pi / 2))) sample_torsion [] = Ok v
       /\ v == (r2 sample_torsion + r3 sample_torsion) / 2 - pi
       /\ ~ ((r2 sample_torsion + r3 sample_torsion) / 2 - pi < v
             /\ v <= (r2 sample_torsion + r3 sample_torsion) / 2 + pi).
Proof.
  split; [reflexivity|].
  split; [unfold Qlt; vm_compute; reflexivity|].
  split; [unfold Qle; vm_compute; discriminate|].
  eexists. split; [vm_compute; reflexivity|].
  split; [unfold Qeq; vm_compute; reflexivity|].
  intros [H _]. revert H. apply Qle_not_lt.
  unfold Qle; vm_compute; discriminate.
Qed.

(** In exact arithmetic the loop of the source does exit.  For every raw
    value [r] and every centre [rmean], [image_fuel rmean r] tests are
    enough, which is one test after at most
    floor(|r - rmean| / (2 pi) + 1/2) shifts; more tests give the same
    result; the result is within pi of the centre; and each pass moves [r]
    by 2 pi strictly towards the centre. *)
Lemma exact_loop_exits (rmean r : Q) :
  (exists r' : Q,
      (forall fuel,
          (S (Z.to_nat (Qfloor (Qabs (r - rmean) / (2 * pi) + (1 # 2))))
           <= fuel)%nat ->
          nearest_image_loop fuel rmean r = Some r')
      /\ Qabs (r' - rmean) <= pi)
  /\ (pi < r - rmean -> Qabs (r - 2 * pi - rmean) < Qabs (r - rmean))
  /\ (pi < rmean - r -> Qabs (r + 2 * pi - rmean) < Qabs (r - rmean)).
Proof.
  split; [|apply loop_step_closer].
  exists (nearest_image rmean r).
  pose proof (nearest_image_is_loop rmean r) as Hloop.
  split.
  - intros fuel Hfuel. fold (image_fuel rmean r) in Hfuel.
    replace fuel with (image_fuel rmean r + (fuel - image_fuel rmean r))%nat
      by lia.
    apply loop_more_fuel. exact Hloop.
  - destruct (nearest_image_within rmean r) as [[Hlo Hhi] _].
    apply Qabs_Qle_condition. split; lra.
Qed.

(** ** Assigning parameters (rstr.py, [SetRestraintParameters]) *)

Lemma monotonic_false (self : NmroptRestraint) :
  monotonic self = false <-> ~ ordered self.
Proof.
  unfold ordered. rewrite <- monotonic_true.
  destruct (monotonic self); split; intro H; congruence.
Qed.

Lemma set_force_constants_frame (rstr_params : dict Q)
    (self : NmroptRestraint) :
  let self' := set_force_constants rstr_params self in
  class_of self' = class_of self /\ iat self' = iat self
  /\ rstwt self' = rstwt self
  /\ r1 self' = r1 self /\ r2 self' = r2 self /\ r3 self' = r3 self
  /\ r4 self' = r4 self.
Proof.
  unfold set_force_constants.
  destruct (get "k0"%string rstr_params); repeat split.
Qed.

Lemma set_positions_frame (rstr_params : dict Q) (self : NmroptRestraint) :
  let self' := set_positions rstr_params self in
  class_of self' = class_of self /\ iat self' = iat self
  /\ rstwt self' = rstwt self
  /\ rk2 self' = rk2 self /\ rk3 self' = rk3 self.
Proof.
  unfold set_positions.
  destruct (get "r0"%string rstr_params); repeat split.
Qed.

(** The two ways [SetRestraintParameters] ends. *)
Lemma SetRestraintParameters_cases (rstr_params : dict Q)
    (self : NmroptRestraint) :
  (monotonic (set_positions rstr_params self) = false
   /\ SetRestraintParameters rstr_params self
      = (set_positions rstr_params self, Raise ValueError))
  \/ (monotonic (set_positions rstr_params self) = true
      /\ SetRestraintParameters rstr_params self
         = (set_force_constants rstr_params
              (set_positions rstr_params self), Ok tt)).
Proof.
  unfold SetRestraintParameters.
  destruct (monotonic (set_positions rstr_params self)); cbn [negb];
    [right | left]; split; reflexivity.
Qed.

Lemma monotonic_set_force_constants (rstr_params : dict Q)
    (self : NmroptRestraint) :
  monotonic (set_force_constants rstr_params self) = monotonic self.
Proof.
  destruct (set_force_constants_frame rstr_params self)
    as (_ & _ & _ & E1 & E2 & E3 & E4).
  unfold monotonic. rewrite E1, E2, E3, E4. reflexivity.
Qed.

Lemma conversion_pos (self : NmroptRestraint) : 0 < _report_conversion self.
Proof. unfold _report_conversion. destruct (class_of self); reflexivity. Qed.

Lemma Qdiv_le_pos (c a b : Q) : 0 < c -> (a / c <= b / c <-> a <= b).
Proof.
  intro Hc. unfold Qdiv. apply Qmult_le_r. apply Qinv_lt_0_compat. exact Hc.
Qed.

Lemma NmroptRestraint_init_ordered (c : rstr_class) (atoms : list Z)
    (rstr_params : dict Q) (s : NmroptRestraint) :
  NmroptRestraint_init c atoms rstr_params = Ok s -> ordered s.
Proof.
  unfold NmroptRestraint_init.
  set (s0 := mkRestraint c atoms 0 0 0 0 0 0 []).
  destruct (SetRestraintParameters_cases rstr_params s0) as [[M E] | [M E]];
    rewrite E; [discriminate|].
  intro H. injection H as <-.
  apply monotonic_true. rewrite monotonic_set_force_constants. exact M.
Qed.

Lemma sample_bond_built :
  BondRestraint_init [1; 2]%Z
    [("r1", 1); ("r2", 2); ("r3", 3); ("r4", 4); ("rk2", 10); ("rk3", 20)]%string
  = Ok sample_bond.
Proof. reflexivity. Qed.

(** C6, as the code has it.  [SetRestraintParameters] ends either normally
    or with [ValueError], and with [ValueError] exactly when the positions
    it has assigned violate r1 <= r2 <= r3 <= r4.  When it raises, the force
    constants are the old ones and the positions are the newly assigned
    ones.  A restraint that a constructor returns is ordered. *)
Theorem set_parameters_validation (rstr_params : dict Q)
    (self : NmroptRestraint) :
  exists self' outcome,
    SetRestraintParameters rstr_params self = (self', outcome)
    /\ (outcome = Ok tt \/ outcome = Raise ValueError)
    /\ (outcome = Raise ValueError <-> ~ ordered self')
    /\ (outcome = Raise ValueError ->
        self' = set_positions rstr_params self
        /\ rk2 self' = rk2 self /\ rk3 self' = rk3 self)
    /\ (forall c atoms s,
           NmroptRestraint_init c atoms rstr_params = Ok s -> ordered s).
Proof.
  destruct (SetRestraintParameters_cases rstr_params self) as [[M E] | [M E]].
  - exists (set_positions rstr_params self), (Raise ValueError).
    split; [exact E|]. split; [right; reflexivity|].
    split; [split; [intros _; apply monotonic_false; exact M | reflexivity]|].
    split.
    + intros _. split; [reflexivity|].
      destruct (set_positions_frame rstr_params self) as (_ & _ & _ & K2 & K3).
      split; assumption.
    + intros c atoms s. apply NmroptRestraint_init_ordered.
  - exists (set_force_constants rstr_params (set_positions rstr_params self)),
      (Ok tt).
    split; [exact E|]. split; [left; reflexivity|].
    split.
    + split; [discriminate|]. intro H. exfalso. apply H.
      apply monotonic_true. rewrite monotonic_set_force_constants. exact M.
    + split; [discriminate|].
      intros c atoms s. apply NmroptRestraint_init_ordered.
Qed.

(** C6, the claim as stated fails.  The bond restraint with positions
    1, 2, 3, 4 is asked for r2 = 5: the call raises [ValueError], and the
    restraint it leaves behind has r2 = 5 and is no longer ordered. *)
Lemma set_parameters_not_atomic :
  BondRestraint_init [1; 2]%Z
    [("r1", 1); ("r2", 2); ("r3", 3); ("r4", 4); ("rk2", 10); ("rk3", 20)]%string
  = Ok sample_bond
  /\ exists self',
       SetRestraintParameters [("r2", 5)]%string sample_bond
       = (self', Raise ValueError)
       /\ r2 sample_bond == 2 /\ r2 self' == 5
       /\ ~ r2 self' == r2 sample_bond
       /\ ~ ordered self'.
Proof.
  split; [reflexivity|].
  eexists. split; [reflexivity|].
  split; [reflexivity|]. split; [reflexivity|].
  split; [discriminate|].
  apply monotonic_false. reflexivity.
Qed.

(** The positions a pure harmonic request leaves, by class. *)
Lemma set_positions_r0 (rstr_params : dict Q) (self : NmroptRestraint)
    (r0 : Q) :
  get "r0"%string rstr_params = Some r0 ->
  let self' := set_positions rstr_params self in
  let conv := _report_conversion self in
  r2 self' = r0 / conv /\ r3 self' = r0 / conv
  /\ r1 self' = match class_of self with
                | BondRestraint => (r0 - 500) / conv
                | AngleRestraint => 0 / conv
                | TorsionRestraint => (r0 - 180) / conv
                | GenDistCoordRestraint => (r0 - 500) / conv
                end
  /\ r4 self' = match class_of self with
                | BondRestraint => (r0 + 500) / conv
                | AngleRestraint => 180 / conv
                | TorsionRestraint => (r0 + 180) / conv
                | GenDistCoordRestraint => (r0 + 500) / conv
                end.
Proof.
  intro H. unfold set_positions. rewrite H.
  unfold _harmonic_r1, _harmonic_r4. cbn [class_of r1 r2 r3 r4 set_r].
  destruct (class_of self); repeat split.
Qed.

(** C7, as the code has it.  In rstr.py a call with only r0 and k0 leaves
    r2 = r3 = r0, r1 and r4 at r0 - 500 and r0 + 500 for a bond or a
    generalized distance, at r0 - 180 and r0 + 180 for a torsion, at 0 and
    180 for an angle, each divided by the class's conversion factor.  The
    call ends normally, with both force constants k0, whenever these
    positions are ordered: always except for an angle, and for an angle
    exactly when 0 <= r0 <= 180; otherwise it raises [ValueError] and the
    force constants stay as they were.  In AmberRestraint.py the same call
    puts r1 at 0 for every distance restraint and r4 at r0 + 180 for an
    angle. *)
Theorem harmonic_defaults (self : NmroptRestraint) (r0 k0 : Q) :
  (exists self' outcome,
      SetRestraintParameters [("r0", r0); ("k0", k0)]%string self
      = (self', outcome)
      /\ r2 self' = r0 / _report_conversion self
      /\ r3 self' = r0 / _report_conversion self
      /\ r1 self' = match class_of self with
                    | BondRestraint => (r0 - 500) / 1
                    | AngleRestraint => 0 / (180 / pi)
                    | TorsionRestraint => (r0 - 180) / (180 / pi)
                    | GenDistCoordRestraint => (r0 - 500) / 1
                    end
      /\ r4 self' = match class_of self with
                    | BondRestraint => (r0 + 500) / 1
                    | AngleRestraint => 180 / (180 / pi)
                    | TorsionRestraint => (r0 + 180) / (180 / pi)
                    | GenDistCoordRestraint => (r0 + 500) / 1
                    end
      /\ (outcome = Ok tt /\ rk2 self' = k0 /\ rk3 self' = k0
          \/ outcome = Raise ValueError
             /\ rk2 self' = rk2 self /\ rk3 self' = rk3 self)
      /\ (class_of self <> AngleRestraint -> outcome = Ok tt)
      /\ (class_of self = AngleRestraint ->
          (outcome = Ok tt <-> 0 <= r0 /\ r0 <= 180)))
  /\ (forall old : AmberRestraint.NmroptRestraint,
         let old' :=
           fst (AmberRestraint.SetRestraintParameters
                  [("r0", r0); ("k0", k0)]%string old) in
         if String.eqb (AmberRestraint.rstType old) "Torsion"
         then AmberRestraint.r1 old' = (r0 - 180) * pi / 180
              /\ AmberRestraint.r2 old' = r0 * pi / 180
              /\ AmberRestraint.r3 old' = r0 * pi / 180
              /\ AmberRestraint.r4 old' = (r0 + 180) * pi / 180
         else if String.eqb (AmberRestraint.rstType old) "Angle"
         then AmberRestraint.r1 old' = 0 * pi / 180
              /\ AmberRestraint.r2 old' = r0 * pi / 180
              /\ AmberRestraint.r3 old' = r0 * pi / 180
              /\ AmberRestraint.r4 old' = (r0 + 180) * pi / 180
         else AmberRestraint.r1 old' = 0
              /\ AmberRestraint.r2 old' = r0
              /\ AmberRestraint.r3 old' = r0
              /\ AmberRestraint.r4 old' = r0 + 500).
Proof.
  split.
  - set (p := [("r0", r0); ("k0", k0)]%string).
    assert (Hr0 : get "r0"%string p = Some r0) by reflexivity.
    destruct (set_positions_r0 p self r0 Hr0) as (P2 & P3 & P1 & P4).
    destruct (set_positions_frame p self) as (_ & _ & _ & K2 & K3).
    destruct (set_force_constants_frame p (set_positions p self))
      as (_ & _ & _ & F1 & F2 & F3 & F4).
    pose proof (conversion_pos self) as Hc.
    assert (Hmono : monotonic (set_positions p self) = true
                    <-> (class_of self = AngleRestraint ->
                         0 <= r0 /\ r0 <= 180)).
    { rewrite monotonic_true, P1, P2, P3, P4.
      destruct (class_of self) eqn:Hclass;
        rewrite !(Qdiv_le_pos _ _ _ Hc); split;
        try (intros _ Habs; discriminate Habs);
        try (intros _; repeat split; lra).
      - intros (H1 & _ & H3) _. split; assumption.
      - intro H. destruct (H eq_refl). repeat split; lra. }
    destruct (SetRestraintParameters_cases p self) as [[M E] | [M E]].
    + exists (set_positions p self), (Raise ValueError).
      split; [exact E|].
      assert (Hnot : ~ (class_of self = AngleRestraint ->
                        0 <= r0 /\ r0 <= 180)).
      { intro H. apply Hmono in H. congruence. }
      split; [exact P2|]. split; [exact P3|].
      split; [rewrite P1; unfold _report_conversion;
              destruct (class_of self); reflexivity|].
      split; [rewrite P4; unfold _report_conversion;
              destruct (class_of self); reflexivity|].
      split; [right; repeat split; assumption|].
      split.
      * intro Hna. exfalso. apply Hnot. intro Ha. contradiction.
      * intros Ha. split; [discriminate|].
        intro H. exfalso. apply Hnot. intros _. exact H.
    + exists (set_force_constants p (set_positions p self)), (Ok tt).
      split; [exact E|].
      split; [rewrite F2; exact P2|]. split; [rewrite F3; exact P3|].
      split; [rewrite F1, P1; unfold _report_conversion;
              destruct (class_of self); reflexivity|].
      split; [rewrite F4, P4; unfold _report_conversion;
              destruct (class_of self); reflexivity|].
      split; [left; repeat split|].
      split; [reflexivity|].
      intro Ha. split; [intros _; apply Hmono; [exact M | exact Ha]|].
      reflexivity.
  - intro old. unfold AmberRestraint.SetRestraintParameters.
    set (s1 := AmberRestraint.to_radians _).
    assert (Hfst : forall f : AmberRestraint.NmroptRestraint -> Q,
               (forall s a b, f (AmberRestraint.set_rk s a b) = f s) ->
               f (fst (if negb (AmberRestraint.monotonic s1)
                       then (s1, Raise ValueError)
                       else (AmberRestraint.set_force_constants
                               [("r0", r0); ("k0", k0)]%string s1, Ok tt)))
               = f s1).
    { intros f Hf. destruct (AmberRestraint.monotonic s1); cbn [negb fst];
        [apply Hf | reflexivity]. }
    cbv zeta.
    rewrite (Hfst AmberRestraint.r1), (Hfst AmberRestraint.r2),
      (Hfst AmberRestraint.r3), (Hfst AmberRestraint.r4) by reflexivity.
    subst s1. unfold AmberRestraint.to_radians, AmberRestraint.set_positions.
    cbn [get String.eqb Ascii.eqb Bool.eqb].
    cbn [AmberRestraint.set_r AmberRestraint.rstType AmberRestraint.r1
         AmberRestraint.r2 AmberRestraint.r3 AmberRestraint.r4].
    destruct (String.eqb (AmberRestraint.rstType old) "Torsion") eqn:ET.
    + cbn [AmberRestraint.rstType AmberRestraint.set_r]. rewrite ET.
      rewrite orb_true_r. repeat split.
    + destruct (String.eqb (AmberRestraint.rstType old) "Angle") eqn:EA.
      * cbn [AmberRestraint.rstType AmberRestraint.set_r]. rewrite EA.
        cbn [orb]. repeat split.
      * cbn [AmberRestraint.rstType AmberRestraint.set_r]. rewrite EA, ET.
        cbn [orb]. repeat split.
Qed.

(** C7, the claim as stated fails.  In rstr.py an angle restraint asked
    for r0 = 200 and k0 = 7 raises [ValueError] and keeps its force
    constants; in AmberRestraint.py the bond restraint built from r0 = 1.0
    and k0 = 10 has r1 = 0, not -499. *)
Lemma harmonic_defaults_fail :
  (exists a,
      AngleRestraint_init [1; 2; 3]%Z
        [("r1", 0); ("r2", 90); ("r3", 100); ("r4", 180);
         ("rk2", 5); ("rk3", 5)]%string = Ok a
      /\ exists a',
           SetRestraintParameters [("r0", 200); ("k0", 7)]%string a
           = (a', Raise ValueError)
           /\ rk2 a' == 5 /\ ~ rk2 a' == 7)
  /\ (exists b,
         AmberRestraint.NmroptRestraint_init [1; 2]%Z None
           [("r0", 1.0); ("k0", 10)]%string = Ok b
         /\ AmberRestraint.r1 b == 0 /\ ~ AmberRestraint.r1 b == -499).
Proof.
  split.
  - eexists. split; [reflexivity|].
    eexists. split; [reflexivity|].
    split; [reflexivity | discriminate].
  - eexists. split; [reflexivity|].
    split; [reflexivity | discriminate].
Qed.

(** ** Reading a file without restraints *)

Lemma rstr_read_skips (namelists : list namelist) (acc : rstr.AmberRestraint) :
  (forall nl, In nl namelists -> name nl <> "rst"%string) ->
  rstr.read_namelists namelists acc = Ok acc.
Proof.
  induction namelists as [|nl rest IH]; intro H; [reflexivity|].
  cbn [rstr.read_namelists].
  assert (E : String.eqb (name nl) "rst" = false).
  { apply String.eqb_neq. apply H. left. reflexivity. }
  rewrite E. apply IH. intros nl' Hin. apply H. right. exact Hin.
Qed.

Lemma legacy_read_skips (namelists : list namelist) (key_bound : bool)
    (acc : AmberRestraint.AmberRestraint) :
  (forall nl, In nl namelists -> name nl <> "rst"%string) ->
  AmberRestraint.read_namelists namelists key_bound acc = Ok acc.
Proof.
  induction namelists as [|nl rest IH]; intro H; [reflexivity|].
  cbn [AmberRestraint.read_namelists].
  assert (E : String.eqb (name nl) "rst" = false).
  { apply String.eqb_neq. apply H. left. reflexivity. }
  rewrite E. apply IH. intros nl' Hin. apply H. right. exact Hin.
Qed.

(** C9, as the code has it.  For a file in which no group is named [rst],
    [ReadAmberRestraintFile] of rstr.py returns the empty collection and
    prints one warning line, without raising; [ReadAmberRestraintFile] of
    AmberRestraint.py raises an exception. *)
Theorem read_file_without_restraints
    (ReadNamelists : string -> list namelist) (rstFilename : string) :
  (forall nl, In nl (ReadNamelists rstFilename) -> name nl <> "rst"%string) ->
  rstr.ReadAmberRestraintFile ReadNamelists rstFilename
  = Ok ([], [("WARNING! No &rst namelists were found in " ++ rstFilename
              ++ ".")%string])
  /\ AmberRestraint.ReadAmberRestraintFile ReadNamelists rstFilename
     = Raise Exception.
Proof.
  intro H. split.
  - unfold rstr.ReadAmberRestraintFile. rewrite rstr_read_skips by exact H.
    reflexivity.
  - unfold AmberRestraint.ReadAmberRestraintFile.
    rewrite legacy_read_skips by exact H. reflexivity.
Qed.

Lemma read_file_without_restraints_witness :
  rstr.ReadAmberRestraintFile
    (fun _ => [mkNamelist "cntrl" None None []]) "none.RST"
  = Ok ([], ["WARNING! No &rst namelists were found in none.RST."%string])
  /\ AmberRestraint.ReadAmberRestraintFile
       (fun _ => [mkNamelist "cntrl" None None []]) "none.RST"
     = Raise Exception.
Proof.
  apply (read_file_without_restraints
           (fun _ => [mkNamelist "cntrl" None None []]) "none.RST").
  intros nl [<- | []]. discriminate.
Defined.

(** C9, the claim as stated fails: on a file with no group at all the
    reader of AmberRestraint.py raises. *)
Lemma legacy_read_empty_raises :
  AmberRestraint.ReadAmberRestraintFile (fun _ => []) "empty.RST"
  = Raise Exception.
Proof. reflexivity. Qed.

(** ** Equality (rstr.py, [__eq__]) *)

Lemma same_perm_loop_true (pairs : list (Z * Z)) :
  same_perm_loop pairs true = forallb (fun p => (fst p =? snd p)%Z) pairs.
Proof.
  induction pairs as [|[i j] pairs IH]; [reflexivity|].
  cbn [same_perm_loop forallb fst snd].
  destruct (i =? j)%Z; cbn [negb andb]; [exact IH | reflexivity].
Qed.

Lemma same_perm_loop_false (pairs : list (Z * Z)) :
  same_perm_loop pairs false
  = negb (length pairs =? 0)%nat
    && forallb (fun p => (fst p =? snd p)%Z) pairs.
Proof.
  destruct pairs as [|[i j] pairs]; [reflexivity|].
  cbn [same_perm_loop forallb fst snd length Nat.eqb negb andb].
  destruct (i =? j)%Z; cbn [negb andb]; [apply same_perm_loop_true|].
  reflexivity.
Qed.

Lemma forallb_combine_eq (l1 l2 : list Z) :
  length l1 = length l2 ->
  (forallb (fun p => (fst p =? snd p)%Z) (combine l1 l2) = true <-> l1 = l2).
Proof.
  revert l2. induction l1 as [|a l1 IH]; intros [|b l2] Hlen;
    try discriminate; cbn [combine forallb fst snd].
  - split; reflexivity.
  - injection Hlen as Hlen. rewrite andb_true_iff, Z.eqb_eq, (IH l2 Hlen).
    split; [intros [-> ->]; reflexivity | intro H; injection H; auto].
Qed.

Lemma class_eqb_eq (a b : rstr_class) : class_eqb a b = true <-> a = b.
Proof. destruct a, b; split; intro H; try reflexivity; discriminate. Qed.

(** What [NmroptRestraint.__eq__] decides. *)
Lemma rstr_eq_spec (a b : NmroptRestraint) :
  has_atoms a -> (rstr_eq a b = true <-> same_restraint a b).
Proof.
  intro Ha. unfold rstr_eq, same_restraint.
  destruct (class_eqb (class_of b) (class_of a)) eqn:EC; cbn [negb].
  2:{ split; [discriminate|]. intros [H _].
      assert (class_eqb (class_of b) (class_of a) = true)
        by (apply class_eqb_eq; symmetry; exact H).
      congruence. }
  apply class_eqb_eq in EC.
  destruct (length (iat a) =? length (iat b))%nat eqn:EL; cbn [negb].
  2:{ split; [discriminate|]. intros (_ & [H | H] & _); exfalso;
        apply Nat.eqb_neq in EL; apply EL; rewrite <- H;
        [reflexivity | symmetry; apply length_rev]. }
  apply Nat.eqb_eq in EL.
  assert (Hne : forall l : list Z,
             length l = length (iat b) -> l <> [] ->
             (same_perm_loop (combine l (iat b)) false = true <-> l = iat b)).
  { intros l Hl Hnil. rewrite same_perm_loop_false, andb_true_iff.
    rewrite (forallb_combine_eq l (iat b) Hl).
    assert (length (combine l (iat b)) <> 0)%nat.
    { rewrite length_combine, <- Hl, Nat.min_id.
      destruct l; [contradiction | discriminate]. }
    rewrite negb_true_iff, Nat.eqb_neq. tauto. }
  assert (Hrev : rev (iat a) <> []).
  { intro H. apply Ha. rewrite <- (rev_involutive (iat a)), H. reflexivity. }
  assert (Hlr : length (rev (iat a)) = length (iat b))
    by (rewrite length_rev; exact EL).
  pose proof (Hne (iat a) EL Ha) as Hfwd.
  pose proof (Hne (rev (iat a)) Hlr Hrev) as Hbwd.
  set (fwd := same_perm_loop (combine (iat a) (iat b)) false) in *.
  assert (Hperm : (if negb fwd
                   then same_perm_loop (combine (rev (iat a)) (iat b)) fwd
                   else fwd) = true
                  <-> iat a = iat b \/ rev (iat a) = iat b).
  { destruct fwd; cbn [negb].
    - split; [intros _; left; apply Hfwd; reflexivity | reflexivity].
    - rewrite Hbwd. split; [intro H; right; exact H|].
      intros [H | H]; [apply Hfwd in H; discriminate | exact H]. }
  destruct (if negb fwd
            then same_perm_loop (combine (rev (iat a)) (iat b)) fwd
            else fwd) eqn:EP; cbn [negb].
  2:{ split; [discriminate|]. intros (_ & H & _). apply Hperm in H.
      discriminate. }
  destruct (Qeq_bool (rk2 a) (rk2 b)) eqn:E1; cbn [negb];
    [apply Qeq_bool_iff in E1
    | split; [discriminate | intros (_ & _ & H & _);
                             apply Qeq_bool_iff in H; congruence]].
  destruct (Qeq_bool (rk3 a) (rk3 b)) eqn:E2; cbn [negb];
    [apply Qeq_bool_iff in E2
    | split; [discriminate | intros (_ & _ & _ & H & _);
                             apply Qeq_bool_iff in H; congruence]].
  destruct (Qeq_bool (r1 a) (r1 b)) eqn:E3; cbn [negb];
    [apply Qeq_bool_iff in E3
    | split; [discriminate | intros (_ & _ & _ & _ & H & _);
                             apply Qeq_bool_iff in H; congruence]].
  destruct (Qeq_bool (r2 a) (r2 b)) eqn:E4; cbn [negb];
    [apply Qeq_bool_iff in E4
    | split; [discriminate | intros (_ & _ & _ & _ & _ & H & _);
                             apply Qeq_bool_iff in H; congruence]].
  destruct (Qeq_bool (r3 a) (r3 b)) eqn:E5; cbn [negb];
    [apply Qeq_bool_iff in E5
    | split; [discriminate | intros (_ & _ & _ & _ & _ & _ & H & _);
                             apply Qeq_bool_iff in H; congruence]].
  destruct (Qeq_bool (r4 a) (r4 b)) eqn:E6; cbn [negb];
    [apply Qeq_bool_iff in E6
    | split; [discriminate | intros (_ & _ & _ & _ & _ & _ & _ & H);
                             apply Qeq_bool_iff in H; congruence]].
  split; [intros _ | reflexivity].
  split; [symmetry; exact EC|]. split; [apply Hperm; reflexivity|].
  repeat split; assumption.
Qed.

Lemma same_restraint_refl (a : NmroptRestraint) : same_restraint a a.
Proof.
  unfold same_restraint. split; [reflexivity|]. split; [left; reflexivity|].
  repeat split; apply Qeq_refl.
Qed.

(** *** [itertools.permutations] *)

Section Permutations.

Variable A : Type.

Lemma selections_spec (l : list A) (a : A) (rest : list A) :
  In (a, rest) (selections l)
  <-> exists l1 l2, l = l1 ++ a :: l2 /\ rest = l1 ++ l2.
Proof.
  revert a rest. induction l as [|b l IH]; intros a rest; cbn [selections].
  - split; [intros [] | intros ([|? ?] & l2 & H & _); discriminate].
  - split.
    + intros [H | H].
      * injection H as <- <-. exists [], l. split; reflexivity.
      * apply in_map_iff in H. destruct H as ([a' rest'] & E & Hin).
        cbn [fst snd] in E. injection E as <- <-.
        apply IH in Hin. destruct Hin as (l1 & l2 & -> & ->).
        exists (b :: l1), l2. split; reflexivity.
    + intros (l1 & l2 & E & ->). destruct l1 as [|c l1].
      * cbn [app] in E. injection E as <- <-. left. reflexivity.
      * cbn [app] in E. injection E as <- ->. right.
        apply in_map_iff. exists (a, l1 ++ l2). split; [reflexivity|].
        apply IH. exists l1, l2. split; reflexivity.
Qed.

Lemma permutations_of_length_spec (n : nat) (l p : list A) :
  length l = n -> (In p (permutations_of_length n l) <-> Permutation l p).
Proof.
  revert l p. induction n as [|n IH]; intros l p Hlen.
  - destruct l; [|discriminate]. cbn [permutations_of_length].
    split.
    + intros [<- | []]. apply perm_nil.
    + intro H. apply Permutation_nil in H. left. symmetry. exact H.
  - cbn [permutations_of_length]. rewrite in_flat_map. split.
    + intros ([a rest] & Hsel & Hin). cbn [fst snd] in Hin.
      apply in_map_iff in Hin. destruct Hin as (p' & <- & Hp').
      apply selections_spec in Hsel. destruct Hsel as (l1 & l2 & -> & ->).
      apply IH in Hp'.
      * apply Permutation_sym, Permutation_cons_app, Permutation_sym.
        exact Hp'.
      * rewrite length_app in *. cbn [length] in Hlen. lia.
    + intro H. destruct p as [|a p'].
      * apply Permutation_sym, Permutation_nil in H. subst l. discriminate.
      * assert (Hin : In a l).
        { apply (Permutation_in a (Permutation_sym H)). left. reflexivity. }
        apply in_split in Hin. destruct Hin as (l1 & l2 & ->).
        exists (a, l1 ++ l2). split.
        -- apply selections_spec. exists l1, l2. split; reflexivity.
        -- cbn [fst snd]. apply in_map. apply IH.
           ++ rewrite length_app in *. cbn [length] in Hlen. lia.
           ++ apply Permutation_sym.
              apply (Permutation_cons_app_inv l1 l2 (a := a)).
              apply Permutation_sym. exact H.
Qed.

Lemma permutations_spec (l p : list A) :
  In p (permutations l) <-> Permutation l p.
Proof. apply permutations_of_length_spec. reflexivity. Qed.

End Permutations.

(** *** The search of [AmberRestraint.__eq__] *)

Lemma eq_zip_loop_true (pairs : list (NmroptRestraint * NmroptRestraint)) :
  eq_zip_loop pairs true = forallb (fun p => rstr_eq (fst p) (snd p)) pairs.
Proof.
  induction pairs as [|[a b] pairs IH]; [reflexivity|].
  cbn [eq_zip_loop forallb fst snd]. unfold rstr_ne.
  destruct (rstr_eq a b); cbn [negb andb]; [exact IH | reflexivity].
Qed.

Lemma eq_zip_loop_false (pairs : list (NmroptRestraint * NmroptRestraint)) :
  eq_zip_loop pairs false
  = negb (length pairs =? 0)%nat
    && forallb (fun p => rstr_eq (fst p) (snd p)) pairs.
Proof.
  destruct pairs as [|[a b] pairs]; [reflexivity|].
  cbn [eq_zip_loop forallb fst snd length Nat.eqb negb andb]. unfold rstr_ne.
  destruct (rstr_eq a b); cbn [negb andb]; [apply eq_zip_loop_true|].
  reflexivity.
Qed.

Lemma eq_search_false (perms : list (AmberRestraint * AmberRestraint)) :
  eq_search perms false
  = existsb (fun pp => eq_zip_loop (combine (fst pp) (snd pp)) false) perms.
Proof.
  induction perms as [|[pi pj] perms IH]; [reflexivity|].
  cbn [eq_search existsb fst snd].
  destruct (eq_zip_loop (combine pi pj) false); cbn [orb];
    [reflexivity | exact IH].
Qed.

Lemma forallb_combine_Forall2 (l1 l2 : list NmroptRestraint) :
  length l1 = length l2 ->
  Forall has_atoms l1 ->
  (forallb (fun p => rstr_eq (fst p) (snd p)) (combine l1 l2) = true
   <-> Forall2 same_restraint l1 l2).
Proof.
  revert l2. induction l1 as [|a l1 IH]; intros [|b l2] Hlen Hat;
    try discriminate; cbn [combine forallb fst snd].
  - split; [constructor | reflexivity].
  - injection Hlen as Hlen. inversion Hat as [|? ? Ha Hat']; subst.
    rewrite andb_true_iff, (rstr_eq_spec a b Ha), (IH l2 Hlen Hat').
    split.
    + intros [H1 H2]. constructor; assumption.
    + intro H. inversion H; subst. split; assumption.
Qed.

(** What [AmberRestraint.__eq__] decides on collections whose members
    have atoms. *)
Lemma AmberRestraint_eq_spec (self other : AmberRestraint) :
  Forall has_atoms self ->
  (AmberRestraint_eq self other = true
   <-> self <> [] /\ length self = length other
       /\ exists other',
            Permutation other other' /\ Forall2 same_restraint self other').
Proof.
  intro Hat. unfold AmberRestraint_eq.
  destruct (length self =? length other)%nat eqn:EL; cbn [negb].
  2:{ split; [discriminate|]. intros (_ & H & _).
      apply Nat.eqb_neq in EL. contradiction. }
  apply Nat.eqb_eq in EL.
  rewrite eq_search_false, existsb_exists. split.
  - intros ([pi pj] & Hin & Hzip). cbn [fst snd] in Hzip.
    apply in_prod_iff in Hin. destruct Hin as [Hpi Hpj].
    apply permutations_spec in Hpi, Hpj.
    rewrite eq_zip_loop_false, andb_true_iff in Hzip.
    destruct Hzip as [Hne Hall].
    assert (Hlen : length pi = length pj).
    { rewrite <- (Permutation_length Hpi), <- (Permutation_length Hpj).
      exact EL. }
    apply forallb_combine_Forall2 in Hall;
      [| exact Hlen
       | apply (Permutation_Forall Hpi); exact Hat].
    split.
    { intros ->. apply Permutation_nil in Hpi. subst pi.
      discriminate Hne. }
    split; [exact EL|].
    destruct (Permutation_Forall2 (Permutation_sym Hpi) Hall)
      as (other' & Hperm & HF).
    exists other'. split; [|exact HF].
    apply (Permutation_trans Hpj Hperm).
  - intros (Hne & _ & other' & Hperm & HF).
    exists (self, other'). split.
    + apply in_prod_iff. split; apply permutations_spec;
        [apply Permutation_refl | exact Hperm].
    + cbn [fst snd]. rewrite eq_zip_loop_false, andb_true_iff. split.
      * rewrite negb_true_iff, Nat.eqb_neq, length_combine.
        rewrite <- (Forall2_length HF), Nat.min_id.
        destruct self; [contradiction | discriminate].
      * apply forallb_combine_Forall2;
          [apply (Forall2_length HF) | exact Hat | exact HF].
Qed.

Lemma NmroptRestraint_init_iat (c : rstr_class) (atoms : list Z)
    (rstr_params : dict Q) (s : NmroptRestraint) :
  NmroptRestraint_init c atoms rstr_params = Ok s ->
  class_of s = c /\ iat s = atoms /\ rstwt s = [].
Proof.
  unfold NmroptRestraint_init.
  set (s0 := mkRestraint c atoms 0 0 0 0 0 0 []).
  destruct (SetRestraintParameters_cases rstr_params s0) as [[M E] | [M E]];
    rewrite E; [discriminate|].
  intro H. injection H as <-.
  destruct (set_force_constants_frame rstr_params
              (set_positions rstr_params s0)) as (C1 & C2 & C3 & _).
  destruct (set_positions_frame rstr_params s0) as (D1 & D2 & D3 & _).
  rewrite C1, C2, C3, D1, D2, D3. repeat split.
Qed.

(** The constructors only return restraints with atoms. *)
Lemma constructed_has_atoms (atoms : list Z) (w : list Q)
    (rstr_params : dict Q) (s : NmroptRestraint) :
  BondRestraint_init atoms rstr_params = Ok s
  \/ AngleRestraint_init atoms rstr_params = Ok s
  \/ TorsionRestraint_init atoms rstr_params = Ok s
  \/ GenDistCoordRestraint_init atoms w rstr_params = Ok s ->
  has_atoms s.
Proof.
  unfold has_atoms, BondRestraint_init, AngleRestraint_init,
    TorsionRestraint_init, GenDistCoordRestraint_init.
  intros [H | [H | [H | H]]].
  - destruct (length atoms =? 2)%nat eqn:E; [|discriminate].
    apply Nat.eqb_eq in E. apply NmroptRestraint_init_iat in H.
    destruct H as (_ & -> & _). intros ->. discriminate.
  - destruct (length atoms =? 3)%nat eqn:E; [|discriminate].
    apply Nat.eqb_eq in E. apply NmroptRestraint_init_iat in H.
    destruct H as (_ & -> & _). intros ->. discriminate.
  - destruct (length atoms =? 4)%nat eqn:E; [|discriminate].
    apply Nat.eqb_eq in E. apply NmroptRestraint_init_iat in H.
    destruct H as (_ & -> & _). intros ->. discriminate.
  - destruct (length atoms mod 2 =? 0)%nat; [|discriminate].
    destruct (NmroptRestraint_init GenDistCoordRestraint atoms rstr_params)
      as [s0|] eqn:E0; [|discriminate].
    cbn [bind] in H. destruct w as [|w0 w]; [discriminate|].
    cbn [floats_of_fields bind] in H.
    apply NmroptRestraint_init_iat in E0. destruct E0 as (_ & E0 & _).
    cbn [rstwt set_rstwt] in H.
    destruct (length (w0 :: w) =? length atoms / 2)%nat eqn:EL;
      [|discriminate].
    injection H as <-. cbn [iat set_rstwt]. rewrite E0. intros ->.
    discriminate EL.
Qed.

(** C8, as the code has it.  For a collection that is not empty (and whose
    members have atoms, as every constructed restraint has), [__eq__]
    returns [True] exactly when the other collection has the same length
    and its members can be rearranged so that each pairs with the member of
    the first in the same place: same class, same atoms forwards or
    backwards, equal positions, equal force constants.  In particular a
    rearrangement of such a collection equals the collection. *)
Theorem collection_equality (self other : AmberRestraint) :
  self <> [] ->
  Forall has_atoms self ->
  (AmberRestraint_eq self other = true
   <-> length self = length other
       /\ exists other',
            Permutation other other' /\ Forall2 same_restraint self other')
  /\ (forall self', Permutation self self' ->
                    AmberRestraint_eq self self' = true).
Proof.
  intros Hne Hat. split.
  - rewrite (AmberRestraint_eq_spec self other Hat). tauto.
  - intros self' Hperm. apply (AmberRestraint_eq_spec self self' Hat).
    split; [exact Hne|]. split; [apply Permutation_length; exact Hperm|].
    exists self. split; [apply Permutation_sym; exact Hperm|].
    clear. induction self as [|a l IH]; constructor;
      [apply same_restraint_refl | exact IH].
Qed.

Lemma collection_equality_witness :
  ([sample_bond; sample_torsion] <> [] /\ has_atoms sample_bond
   /\ has_atoms sample_torsion)
  /\ AmberRestraint_eq [sample_bond; sample_torsion]
                       [sample_torsion; sample_bond] = true.
Proof.
  assert (Hne : [sample_bond; sample_torsion] <> []) by discriminate.
  assert (Hb : has_atoms sample_bond)
    by (unfold has_atoms; vm_compute; discriminate).
  assert (Ht : has_atoms sample_torsion)
    by (unfold has_atoms; vm_compute; discriminate).
  split; [repeat split; assumption|].
  apply (proj2 (collection_equality [sample_bond; sample_torsion]
                  [sample_torsion; sample_bond] Hne
                  (Forall_cons _ Hb (Forall_cons _ Ht (Forall_nil _))))).
  apply perm_swap.
Defined.

(** C8, the claim as stated fails.  A bond restraint and a generalized
    distance restraint on the same two atoms, with the same positions and
    force constants, pair up in the sense of the claim, and [__eq__] says
    the two one-member collections differ; and two empty collections
    compare unequal. *)
Lemma collection_equality_fail :
  (exists b g,
      BondRestraint_init [1; 2]%Z [("r0", 1); ("k0", 10)]%string = Ok b
      /\ GenDistCoordRestraint_init [1; 2]%Z [1]
           [("r0", 1); ("k0", 10)]%string = Ok g
      /\ iat b = iat g
      /\ r1 b == r1 g /\ r2 b == r2 g /\ r3 b == r3 g /\ r4 b == r4 g
      /\ rk2 b == rk2 g /\ rk3 b == rk3 g
      /\ AmberRestraint_eq [b] [g] = false)
  /\ AmberRestraint_eq [] [] = false.
Proof.
  split; [|reflexivity].
  eexists; eexists. split; [reflexivity|]. split; [reflexivity|].
  repeat (split; [reflexivity|]). reflexivity.
Qed.

(** ** Writing and reading back (rstr.py) *)

Lemma NmroptRestraint_init_constructed (c : rstr_class) (atoms : list Z)
    (rstr_params : dict Q) (s : NmroptRestraint) :
  NmroptRestraint_init c atoms rstr_params = Ok s ->
  ordered s /\ class_of s = c /\ iat s = atoms /\ rstwt s = [].
Proof.
  intro H. split; [apply (NmroptRestraint_init_ordered _ _ _ _ H)|].
  apply (NmroptRestraint_init_iat _ _ _ _ H).
Qed.

Lemma BondRestraint_init_constructed (atoms : list Z) (rstr_params : dict Q)
    (s : NmroptRestraint) :
  BondRestraint_init atoms rstr_params = Ok s -> constructed s.
Proof.
  unfold BondRestraint_init.
  destruct (length atoms =? 2)%nat eqn:E; [|discriminate].
  apply Nat.eqb_eq in E. intro H.
  apply NmroptRestraint_init_constructed in H.
  destruct H as (Ho & Hc & Hi & Hw). split; [exact Ho|].
  rewrite Hc, Hi. split; assumption.
Qed.

Lemma AngleRestraint_init_constructed (atoms : list Z) (rstr_params : dict Q)
    (s : NmroptRestraint) :
  AngleRestraint_init atoms rstr_params = Ok s -> constructed s.
Proof.
  unfold AngleRestraint_init.
  destruct (length atoms =? 3)%nat eqn:E; [|discriminate].
  apply Nat.eqb_eq in E. intro H.
  apply NmroptRestraint_init_constructed in H.
  destruct H as (Ho & Hc & Hi & Hw). split; [exact Ho|].
  rewrite Hc, Hi. split; assumption.
Qed.

Lemma TorsionRestraint_init_constructed (atoms : list Z)
    (rstr_params : dict Q) (s : NmroptRestraint) :
  TorsionRestraint_init atoms rstr_params = Ok s -> constructed s.
Proof.
  unfold TorsionRestraint_init.
  destruct (length atoms =? 4)%nat eqn:E; [|discriminate].
  apply Nat.eqb_eq in E. intro H.
  apply NmroptRestraint_init_constructed in H.
  destruct H as (Ho & Hc & Hi & Hw). split; [exact Ho|].
  rewrite Hc, Hi. split; assumption.
Qed.

Lemma GenDistCoordRestraint_init_constructed (atoms : list Z) (w : list Q)
    (rstr_params : dict Q) (s : NmroptRestraint) :
  GenDistCoordRestraint_init atoms w rstr_params = Ok s -> constructed s.
Proof.
  unfold GenDistCoordRestraint_init.
  destruct (length atoms mod 2 =? 0)%nat eqn:E; [|discriminate].
  apply Nat.eqb_eq in E.
  destruct (NmroptRestraint_init GenDistCoordRestraint atoms rstr_params)
    as [s0|] eqn:E0; [|discriminate].
  cbn [bind]. destruct w as [|w0 w]; [discriminate|].
  cbn [floats_of_fields bind rstwt set_rstwt].
  destruct (length (w0 :: w) =? length atoms / 2)%nat eqn:EL;
    [|discriminate].
  apply Nat.eqb_eq in EL. cbn [negb]. intro H. injection H as <-.
  apply NmroptRestraint_init_constructed in E0.
  destruct E0 as (Ho & Hc & Hi & Hw). split; [exact Ho|].
  cbn [class_of iat rstwt set_rstwt]. rewrite Hc, Hi.
  split; [exact E|]. split; [discriminate | exact EL].
Qed.

(** The loop of the reader only collects constructed restraints. *)
Lemma read_namelists_constructed (namelists : list namelist)
    (acc rs : AmberRestraint) :
  Forall constructed acc ->
  read_namelists namelists acc = Ok rs ->
  Forall constructed rs.
Proof.
  revert acc. induction namelists as [|nl rest IH]; intros acc Hacc H.
  - injection H as <-. exact Hacc.
  - cbn [read_namelists] in H.
    destruct (String.eqb (name nl) "rst"); [|apply (IH _ Hacc H)].
    destruct (iat_value nl) as [[|a0 atoms]|]; try discriminate.
    match type of H with
    | bind ?c _ = _ => destruct c as [rst|] eqn:Hrst; [|discriminate]
    end.
    cbn [bind] in H. apply (IH (acc ++ [rst])); [|exact H].
    apply Forall_app. split; [exact Hacc|]. constructor; [|constructor].
    destruct (rstwt_value nl) as [w|].
    + apply (GenDistCoordRestraint_init_constructed _ _ _ _ Hrst).
    + destruct (length (a0 :: atoms) =? 2)%nat;
        [apply (BondRestraint_init_constructed _ _ _ Hrst)|].
      destruct (length (a0 :: atoms) =? 3)%nat;
        [apply (AngleRestraint_init_constructed _ _ _ Hrst)|].
      destruct (length (a0 :: atoms) =? 4)%nat;
        [apply (TorsionRestraint_init_constructed _ _ _ Hrst)|].
      discriminate.
Qed.

Lemma Qmult_div_same (x c : Q) : 0 < c -> x * c / c == x.
Proof. intro Hc. apply Qdiv_mult_l. lra. Qed.

(** ** Rounding to 12 significant digits *)

Lemma pow10_pos (e : Z) : 0 < 10 ^ e.
Proof. apply Qpower_0_lt. reflexivity. Qed.

Lemma pow10_plus (a b : Z) : 10 ^ (a + b) == 10 ^ a * 10 ^ b.
Proof. apply Qpower_plus. discriminate. Qed.

Lemma pow10_le (a b : Z) : (a <= b)%Z -> 10 ^ a <= 10 ^ b.
Proof. intro H. apply Qpower_le_compat_l; [exact H | discriminate]. Qed.

Lemma pow10_lt (a b : Z) : (a < b)%Z -> 10 ^ a < 10 ^ b.
Proof. intro H. apply Qpower_lt_compat_l; [exact H | reflexivity]. Qed.

Lemma pow10_lt_inv (a b : Z) : 10 ^ a < 10 ^ b -> (a < b)%Z.
Proof. intro H. apply (Qpower_lt_compat_l_inv 10); [exact H | reflexivity]. Qed.

Lemma pow2_le_pow10 (k : Z) : (0 <= k)%Z -> 2 ^ k <= 10 ^ k.
Proof.
  intro Hk. setoid_replace (10 ^ k) with (2 ^ k * 5 ^ k)
    by (rewrite <- Qmult_power; reflexivity).
  assert (H5 : 1 <= 5 ^ k) by (apply Qpower_1_le; [discriminate | exact Hk]).
  assert (H2 : 0 < 2 ^ k) by (apply Qpower_0_lt; reflexivity).
  nra.
Qed.

Lemma Z_lt_pow10 (a : Z) : (0 < a)%Z -> inject_Z a < 10 ^ (Z.log2 a + 1).
Proof.
  intro Ha. destruct (Z.log2_spec a Ha) as [_ H].
  assert (Hk : (0 <= Z.log2 a + 1)%Z) by (pose proof (Z.log2_nonneg a); lia).
  apply Qlt_le_trans with (inject_Z (2 ^ (Z.log2 a + 1))).
  - rewrite <- Zlt_Qlt. replace (Z.log2 a + 1)%Z with (Z.succ (Z.log2 a)) by lia.
    exact H.
  - rewrite Zpower_Qpower by exact Hk. apply pow2_le_pow10. exact Hk.
Qed.

Lemma exponent_loop_spec (x : Q) (fuel : nat) :
  forall e : Z,
    x < 10 ^ (e + 1) -> 10 ^ (e - Z.of_nat fuel) <= x ->
    10 ^ exponent_loop fuel e x <= x
    /\ x < 10 ^ (exponent_loop fuel e x + 1).
Proof.
  induction fuel as [|fuel IH]; intros e Hhi Hlo.
  - cbn [exponent_loop]. replace (e - Z.of_nat 0)%Z with e in Hlo by lia.
    split; assumption.
  - cbn [exponent_loop]. destruct (Qle_bool (10 ^ e) x) eqn:E.
    + apply Qle_bool_iff in E. split; assumption.
    + assert (Hx : x < 10 ^ e).
      { apply Qnot_le_lt. intro H. apply Qle_bool_iff in H. congruence. }
      apply IH.
      * replace (e - 1 + 1)%Z with e by lia. exact Hx.
      * replace (e - 1 - Z.of_nat fuel)%Z with (e - Z.of_nat (S fuel))%Z
          by lia.
        exact Hlo.
Qed.

Lemma decimal_exponent_spec (x : Q) :
  0 < x ->
  10 ^ decimal_exponent x <= x /\ x < 10 ^ (decimal_exponent x + 1).
Proof.
  intro Hx. unfold decimal_exponent.
  destruct x as [a b]. cbn [Qnum Qden].
  assert (Ha : (0 < a)%Z).
  { unfold Qlt in Hx. cbn in Hx. lia. }
  pose proof (Z.log2_nonneg a) as Hla.
  pose proof (Z.log2_nonneg (Z.pos b)) as Hlb.
  apply exponent_loop_spec.
  - apply Qle_lt_trans with (inject_Z a); [|apply Z_lt_pow10; exact Ha].
    unfold Qle, inject_Z. cbn. nia.
  - rewrite Z2Nat.id by lia.
    replace (Z.log2 a - (Z.log2 a - - (Z.log2 (Z.pos b) + 1)))%Z
      with (- (Z.log2 (Z.pos b) + 1))%Z by lia.
    rewrite Qpower_opp.
    pose proof (Z_lt_pow10 (Z.pos b) eq_refl) as Hb.
    pose proof (pow10_pos (Z.log2 (Z.pos b) + 1)) as Hp.
    set (p := 10 ^ (Z.log2 (Z.pos b) + 1)) in *.
    assert (Hinv : / p <= 1 # b).
    { apply Qle_shift_inv_r; [exact Hp|].
      setoid_replace ((1 # b) * p) with (p / inject_Z (Z.pos b))
        by (unfold Qdiv, inject_Z, Qinv; cbn; ring).
      hnf. apply Qle_shift_div_l; [reflexivity|]. lra. }
    apply Qle_trans with (1 # b); [exact Hinv|].
    unfold Qle. cbn. nia.
Qed.

Lemma decimal_exponent_unique (x : Q) (e : Z) :
  10 ^ e <= x -> x < 10 ^ (e + 1) -> 0 < x /\ decimal_exponent x = e.
Proof.
  intros H1 H2.
  assert (Hx : 0 < x) by (pose proof (pow10_pos e); lra).
  split; [exact Hx|].
  destruct (decimal_exponent_spec x Hx) as [D1 D2].
  assert (A : (decimal_exponent x < e + 1)%Z) by (apply pow10_lt_inv; lra).
  assert (B : (e < decimal_exponent x + 1)%Z) by (apply pow10_lt_inv; lra).
  lia.
Qed.

Lemma round_half_even_cases (q : Q) :
  let f := Qfloor q in
  inject_Z f <= q /\ q < inject_Z f + 1
  /\ ((q - inject_Z f < 1 # 2 /\ round_half_even q = f)
      \/ (1 # 2 < q - inject_Z f /\ round_half_even q = (f + 1)%Z)
      \/ (q - inject_Z f == 1 # 2
          /\ round_half_even q = if Z.even f then f else (f + 1)%Z)).
Proof.
  cbv zeta. pose proof (Qfloor_le q) as H1. pose proof (Qlt_floor q) as H2.
  rewrite inject_Z_plus in H2. change (inject_Z 1) with 1 in H2.
  split; [exact H1|]. split; [exact H2|].
  unfold round_half_even.
  destruct (Qcompare (q - inject_Z (Qfloor q)) (1 # 2)) eqn:E.
  - right; right. split; [apply Qeq_alt; exact E | reflexivity].
  - left. split; [apply Qlt_alt; exact E | reflexivity].
  - right; left. split; [apply Qgt_alt; exact E | reflexivity].
Qed.

Lemma round_half_even_near (q : Q) :
  q - (1 # 2) <= inject_Z (round_half_even q)
  /\ inject_Z (round_half_even q) <= q + (1 # 2).
Proof.
  destruct (round_half_even_cases q)
    as (H1 & H2 & [[C ->] | [[C ->] | [C ->]]]).
  - lra.
  - rewrite inject_Z_plus. change (inject_Z 1) with 1. lra.
  - destruct (Z.even (Qfloor q)); [lra|].
    rewrite inject_Z_plus. change (inject_Z 1) with 1. lra.
Qed.

Lemma round_half_even_comp (a b : Q) :
  a == b -> round_half_even a = round_half_even b.
Proof.
  intro H. unfold round_half_even.
  rewrite (Qfloor_comp a b H).
  assert (E : Qcompare (a - inject_Z (Qfloor b)) (1 # 2)
              = Qcompare (b - inject_Z (Qfloor b)) (1 # 2)).
  { apply Qcompare_comp; [rewrite H; reflexivity | reflexivity]. }
  rewrite E. reflexivity.
Qed.

Lemma round_half_even_integer (k : Z) : round_half_even (inject_Z k) = k.
Proof.
  destruct (round_half_even_cases (inject_Z k))
    as (H1 & H2 & Hc).
  rewrite Qfloor_Z in *.
  destruct Hc as [[C ->] | [[C E] | [C E]]]; [reflexivity | lra | lra].
Qed.

Lemma round_half_even_mono (a b : Q) :
  a <= b -> (round_half_even a <= round_half_even b)%Z.
Proof.
  intro H. pose proof (Qfloor_resp_le a b H) as Hf.
  destruct (round_half_even_cases a) as (A1 & A2 & HA).
  destruct (round_half_even_cases b) as (B1 & B2 & HB).
  destruct (Z.eq_dec (Qfloor a) (Qfloor b)) as [E | E].
  - rewrite E in *.
    destruct HA as [[CA ->] | [[CA ->] | [CA ->]]];
      destruct HB as [[CB ->] | [[CB ->] | [CB ->]]];
      try lia; try (exfalso; lra);
      destruct (Z.even (Qfloor b)); lia.
  - assert (Hlt : (Qfloor a + 1 <= Qfloor b)%Z) by lia.
    assert (Ra : (round_half_even a <= Qfloor a + 1)%Z).
    { destruct HA as [[_ ->] | [[_ ->] | [_ ->]]]; try lia.
      destruct (Z.even (Qfloor a)); lia. }
    assert (Rb : (Qfloor b <= round_half_even b)%Z).
    { destruct HB as [[_ ->] | [[_ ->] | [_ ->]]]; try lia.
      destruct (Z.even (Qfloor b)); lia. }
    lia.
Qed.

Lemma pow10_split (e : Z) : 10 ^ e == 10 ^ 11 * 10 ^ (e - 11).
Proof. rewrite <- pow10_plus. replace (11 + (e - 11))%Z with e by lia.
       reflexivity. Qed.

Lemma pow10_split_succ (e : Z) : 10 ^ (e + 1) == 10 ^ 12 * 10 ^ (e - 11).
Proof. rewrite <- pow10_plus. replace (12 + (e - 11))%Z with (e + 1)%Z by lia.
       reflexivity. Qed.

(** The digits [n] and the exponent [e] of the rounded value. *)
Lemma round_significant_spec (x : Q) :
  0 < x ->
  exists (e n : Z),
    decimal_exponent x = e
    /\ round_significant x = inject_Z n * 10 ^ (e - 11)
    /\ n = round_half_even (x / 10 ^ (e - 11))
    /\ (10 ^ 11 <= n <= 10 ^ 12)%Z
    /\ 10 ^ e <= x /\ x < 10 ^ (e + 1).
Proof.
  intro Hx. destruct (decimal_exponent_spec x Hx) as [H1 H2].
  exists (decimal_exponent x).
  exists (round_half_even (x / 10 ^ (decimal_exponent x - 11))).
  set (e := decimal_exponent x) in *.
  split; [reflexivity|]. split; [reflexivity|]. split; [reflexivity|].
  split; [|split; assumption].
  pose proof (pow10_pos (e - 11)) as Hu.
  rewrite pow10_split in H1. rewrite pow10_split_succ in H2.
  set (u := 10 ^ (e - 11)) in *.
  assert (M1 : inject_Z (10 ^ 11) <= x / u).
  { apply Qle_shift_div_l; [exact Hu|].
    change (inject_Z (10 ^ 11)) with (10 ^ 11). exact H1. }
  assert (M2 : x / u <= inject_Z (10 ^ 12)).
  { apply Qle_shift_div_r; [exact Hu|].
    change (inject_Z (10 ^ 12)) with (10 ^ 12). lra. }
  apply round_half_even_mono in M1, M2.
  rewrite round_half_even_integer in M1, M2. lia.
Qed.

Lemma round_significant_bounds (x : Q) :
  0 < x ->
  10 ^ decimal_exponent x <= round_significant x
  /\ round_significant x <= 10 ^ (decimal_exponent x + 1).
Proof.
  intro Hx.
  destruct (round_significant_spec x Hx)
    as (e & n & -> & -> & _ & [N1 N2] & _).
  pose proof (pow10_pos (e - 11)) as Hu.
  rewrite pow10_split, pow10_split_succ.
  set (u := 10 ^ (e - 11)) in *.
  rewrite Zle_Qle in N1, N2.
  change (inject_Z (10 ^ 11)) with (10 ^ 11) in N1.
  change (inject_Z (10 ^ 12)) with (10 ^ 12) in N2.
  split; apply Qmult_le_compat_r; lra.
Qed.

Lemma round_significant_pos (x : Q) : 0 < x -> 0 < round_significant x.
Proof.
  intro Hx. destruct (round_significant_bounds x Hx) as [H _].
  pose proof (pow10_pos (decimal_exponent x)). lra.
Qed.

Lemma round_significant_comp (x y : Q) :
  0 < x -> x == y -> round_significant x == round_significant y.
Proof.
  intros Hx E. assert (Hy : 0 < y) by (rewrite <- E; exact Hx).
  destruct (decimal_exponent_spec x Hx) as [X1 X2].
  unfold round_significant.
  set (e := decimal_exponent x) in *.
  assert (Y1 : 10 ^ e <= y) by lra.
  assert (Y2 : y < 10 ^ (e + 1)) by lra.
  destruct (decimal_exponent_unique y e Y1 Y2) as [_ ->].
  rewrite (round_half_even_comp (x / 10 ^ (e - 11)) (y / 10 ^ (e - 11)))
    by (rewrite E; reflexivity).
  reflexivity.
Qed.

Lemma round_significant_mono (x y : Q) :
  0 < x -> x <= y -> round_significant x <= round_significant y.
Proof.
  intros Hx Hxy. assert (Hy : 0 < y) by lra.
  destruct (round_significant_bounds x Hx) as [_ BX].
  destruct (round_significant_bounds y Hy) as [BY _].
  destruct (decimal_exponent_spec x Hx) as [X1 X2].
  destruct (decimal_exponent_spec y Hy) as [Y1 Y2].
  assert (Hle : (decimal_exponent x <= decimal_exponent y)%Z).
  { assert (decimal_exponent x < decimal_exponent y + 1)%Z
      by (apply pow10_lt_inv; lra). lia. }
  destruct (Z.eq_dec (decimal_exponent x) (decimal_exponent y)) as [E | E].
  - unfold round_significant. rewrite E.
    pose proof (pow10_pos (decimal_exponent y - 11)) as Hu.
    set (u := 10 ^ (decimal_exponent y - 11)) in *.
    apply Qmult_le_compat_r; [|lra].
    rewrite <- Zle_Qle. apply round_half_even_mono.
    apply Qle_shift_div_l; [exact Hu|].
    setoid_replace (x / u * u) with x by (field; lra). exact Hxy.
  - assert (H : 10 ^ (decimal_exponent x + 1) <= 10 ^ decimal_exponent y)
      by (apply pow10_le; lia).
    lra.
Qed.

Lemma round_significant_error (x : Q) :
  0 < x ->
  Qabs (round_significant x - x) <= (1 # 2) * 10 ^ (-11) * x.
Proof.
  intro Hx.
  destruct (round_significant_spec x Hx)
    as (e & n & _ & -> & -> & _ & X1 & _).
  pose proof (pow10_pos (e - 11)) as Hu.
  assert (Hs : 10 ^ (e - 11) == 10 ^ (-11) * 10 ^ e).
  { rewrite <- pow10_plus. replace (-11 + e)%Z with (e - 11)%Z by lia.
    reflexivity. }
  pose proof (pow10_pos (-11)) as H11.
  set (u := 10 ^ (e - 11)) in *.
  destruct (round_half_even_near (x / u)) as [N1 N2].
  set (n := inject_Z (round_half_even (x / u))) in *.
  assert (Hm : x / u * u == x) by (field; lra).
  apply Qabs_Qle_condition. split; nra.
Qed.

Lemma round_significant_exact (x : Q) (N K : Z) :
  (0 < N < 10 ^ 12)%Z -> x == inject_Z N * 10 ^ K ->
  round_significant x == x.
Proof.
  intros [N0 N12] E.
  assert (HN : 0 < inject_Z N)
    by (change 0 with (inject_Z 0); rewrite <- Zlt_Qlt; exact N0).
  assert (HN' : inject_Z N < 10 ^ 12).
  { change (10 ^ 12) with (inject_Z (10 ^ 12)). rewrite <- Zlt_Qlt.
    exact N12. }
  pose proof (pow10_pos K) as HpK.
  assert (Hx : 0 < x) by (rewrite E; apply Qmult_lt_0_compat; assumption).
  destruct (round_significant_spec x Hx)
    as (e & n & _ & -> & -> & _ & X1 & _).
  assert (HK : (e - 11 <= K)%Z).
  { assert (H : 10 ^ e < 10 ^ (12 + K)).
    { rewrite pow10_plus. apply Qle_lt_trans with x; [exact X1|].
      rewrite E. apply Qmult_lt_compat_r; assumption. }
    apply pow10_lt_inv in H. lia. }
  pose proof (pow10_pos (e - 11)) as Hu.
  assert (Hs : 10 ^ K == 10 ^ (K - (e - 11)) * 10 ^ (e - 11)).
  { rewrite <- pow10_plus.
    replace (K - (e - 11) + (e - 11))%Z with K by lia. reflexivity. }
  assert (Hj : 10 ^ (K - (e - 11)) == inject_Z (10 ^ (K - (e - 11)))).
  { rewrite Zpower_Qpower by lia. reflexivity. }
  assert (Hm : x / 10 ^ (e - 11)
               == inject_Z (N * 10 ^ (K - (e - 11)))).
  { rewrite inject_Z_mult, <- Hj, E, Hs. field. lra. }
  rewrite (round_half_even_comp _ _ Hm), round_half_even_integer.
  rewrite inject_Z_mult, <- Hj, E, Hs. ring.
Qed.

Lemma str_float_cases (x : Q) :
  (x == 0 /\ str_float x = 0)
  \/ (0 < x /\ str_float x = round_significant x)
  \/ (x < 0 /\ str_float x = - round_significant (- x)).
Proof.
  unfold str_float. destruct (Qcompare x 0) eqn:E.
  - left. split; [apply Qeq_alt; exact E | reflexivity].
  - right; right. split; [apply Qlt_alt; exact E | reflexivity].
  - right; left. split; [apply Qgt_alt; exact E | reflexivity].
Qed.

Lemma str_float_comp (x y : Q) : x == y -> str_float x == str_float y.
Proof.
  intro E.
  destruct (str_float_cases x) as [[Cx ->] | [[Cx ->] | [Cx ->]]];
    destruct (str_float_cases y) as [[Cy ->] | [[Cy ->] | [Cy ->]]];
    try (exfalso; lra).
  - reflexivity.
  - apply round_significant_comp; assumption.
  - apply Qopp_comp. apply round_significant_comp; lra.
Qed.

Lemma str_float_mono (x y : Q) : x <= y -> str_float x <= str_float y.
Proof.
  intro H.
  destruct (str_float_cases x) as [[Cx ->] | [[Cx ->] | [Cx ->]]];
    destruct (str_float_cases y) as [[Cy ->] | [[Cy ->] | [Cy ->]]];
    try (exfalso; lra).
  - lra.
  - pose proof (round_significant_pos y Cy). lra.
  - apply round_significant_mono; assumption.
  - assert (0 < - x) by lra. pose proof (round_significant_pos (- x)). lra.
  - assert (0 < - x) by lra. pose proof (round_significant_pos (- x)).
    pose proof (round_significant_pos y Cy). lra.
  - assert (Hy : 0 < - y) by lra.
    assert (Hyx : - y <= - x) by lra.
    pose proof (round_significant_mono (- y) (- x) Hy Hyx). lra.
Qed.

Lemma str_float_error (x : Q) :
  Qabs (str_float x - x) <= (1 # 2) * 10 ^ (-11) * Qabs x.
Proof.
  destruct (str_float_cases x) as [[Cx ->] | [[Cx ->] | [Cx ->]]].
  - rewrite Cx. vm_compute. discriminate.
  - rewrite (Qabs_pos x) by lra. apply round_significant_error. exact Cx.
  - rewrite (Qabs_neg x) by lra.
    assert (H : 0 < - x) by lra.
    pose proof (round_significant_error (- x) H) as He.
    setoid_replace (- round_significant (- x) - x)
      with (- (round_significant (- x) - - x)) by ring.
    rewrite Qabs_opp. exact He.
Qed.

Lemma str_float_exact (x : Q) (N K : Z) :
  (Z.abs N < 10 ^ 12)%Z -> x == inject_Z N * 10 ^ K -> str_float x == x.
Proof.
  intros HN E. pose proof (pow10_pos K) as HK.
  destruct (str_float_cases x) as [[Cx ->] | [[Cx ->] | [Cx ->]]].
  - symmetry. exact Cx.
  - apply (round_significant_exact x N K); [|exact E].
    assert (0 < inject_Z N) by nra.
    assert (0 < N)%Z by (rewrite Zlt_Qlt; assumption). lia.
  - assert (Hn : inject_Z N < 0) by nra.
    assert (N < 0)%Z by (rewrite Zlt_Qlt; assumption).
    assert (R : round_significant (- x) == - x).
    { apply (round_significant_exact (- x) (- N) K); [lia|].
      rewrite inject_Z_opp, E. ring. }
    rewrite R. ring.
Qed.

Lemma str_float_idempotent (x : Q) : str_float (str_float x) == str_float x.
Proof.
  destruct (str_float_cases x) as [[Cx E] | [[Cx E] | [Cx E]]].
  - rewrite E. reflexivity.
  - destruct (round_significant_spec x Cx)
      as (e & n & _ & R & _ & [N1 N2] & _).
    destruct (Z.eq_dec n (10 ^ 12)) as [En | En].
    + apply (str_float_exact _ 1 (e + 1)); [reflexivity|].
      rewrite E, R, En, pow10_split_succ.
      change (inject_Z (10 ^ 12)) with (10 ^ 12). ring.
    + apply (str_float_exact _ n (e - 11)); [lia|]. rewrite E, R.
      reflexivity.
  - assert (Hx : 0 < - x) by lra.
    destruct (round_significant_spec (- x) Hx)
      as (e & n & _ & R & _ & [N1 N2] & _).
    destruct (Z.eq_dec n (10 ^ 12)) as [En | En].
    + apply (str_float_exact _ (-1) (e + 1)); [reflexivity|].
      rewrite E, R, En, pow10_split_succ.
      change (inject_Z (10 ^ 12)) with (10 ^ 12).
      change (inject_Z (-1)) with (-1). ring.
    + apply (str_float_exact _ (- n) (e - 11)); [lia|]. rewrite E, R.
      rewrite inject_Z_opp. ring.
Qed.

Lemma Qdiv_mult_same (x c : Q) : 0 < c -> x / c * c == x.
Proof. intro Hc. field. intro H0. lra. Qed.

(** The base constructor, given what [WriteRstNamelist] wrote for an
    ordered restraint, rebuilds its positions and force constants from the
    numbers written: rounding keeps the order of the positions, so the
    check of [SetRestraintParameters] passes. *)
Lemma NmroptRestraint_init_written (s : NmroptRestraint) :
  ordered s ->
  exists s',
    NmroptRestraint_init (class_of s) (iat s)
                         (float_values (WriteRstNamelist s)) = Ok s'
    /\ class_of s' = class_of s /\ iat s' = iat s /\ rstwt s' = []
    /\ r1 s' = str_float (r1 s * _report_conversion s) / _report_conversion s
    /\ r2 s' = str_float (r2 s * _report_conversion s) / _report_conversion s
    /\ r3 s' = str_float (r3 s * _report_conversion s) / _report_conversion s
    /\ r4 s' = str_float (r4 s * _report_conversion s) / _report_conversion s
    /\ rk2 s' = str_float (rk2 s) /\ rk3 s' = str_float (rk3 s).
Proof.
  intros (H12 & H23 & H34).
  pose proof (conversion_pos s) as Hc.
  set (conv := _report_conversion s) in *.
  set (kw := float_values (WriteRstNamelist s)).
  set (s0 := mkRestraint (class_of s) (iat s) 0 0 0 0 0 0 []).
  assert (Hpos : set_positions kw s0
                 = set_r s0 (str_float (r1 s * conv) / conv)
                         (str_float (r2 s * conv) / conv)
                         (str_float (r3 s * conv) / conv)
                         (str_float (r4 s * conv) / conv))
    by reflexivity.
  assert (Hk : set_force_constants kw (set_positions kw s0)
               = set_rk (set_positions kw s0) (str_float (rk2 s))
                        (str_float (rk3 s)))
    by reflexivity.
  assert (Hstep : forall a b, a <= b ->
                    str_float (a * conv) / conv <= str_float (b * conv) / conv).
  { intros a b Hab. unfold Qdiv. apply Qmult_le_compat_r.
    - apply str_float_mono. apply Qmult_le_compat_r; lra.
    - apply Qlt_le_weak, Qinv_lt_0_compat. exact Hc. }
  assert (M : monotonic (set_positions kw s0) = true).
  { apply monotonic_true. rewrite Hpos. cbn [r1 r2 r3 r4 set_r].
    repeat split; apply Hstep; assumption. }
  unfold NmroptRestraint_init. fold s0. fold kw.
  destruct (SetRestraintParameters_cases kw s0) as [[M' E] | [_ E]];
    [congruence|].
  rewrite E, Hk, Hpos. eexists. split; [reflexivity|].
  cbn [class_of iat rstwt r1 r2 r3 r4 rk2 rk3 set_r set_rk s0].
  repeat split; reflexivity.
Qed.

(** One group written, one restraint read back. *)
Lemma read_written_restraint (s : NmroptRestraint) (rest : list namelist)
    (acc : AmberRestraint) :
  constructed s ->
  exists s',
    read_namelists (WriteRstNamelist s :: rest) acc
    = read_namelists rest (acc ++ [s'])
    /\ rounded_parameters s s'.
Proof.
  intros [Ho Hshape].
  destruct (NmroptRestraint_init_written s Ho)
    as (s' & Hinit & Hc & Hi & Hw & P1 & P2 & P3 & P4 & K2 & K3).
  pose proof (conversion_pos s) as Hconv.
  assert (Hround : forall w,
             class_of w = class_of s -> iat w = iat s ->
             r1 w = r1 s' -> r2 w = r2 s' -> r3 w = r3 s' -> r4 w = r4 s' ->
             rk2 w = rk2 s' -> rk3 w = rk3 s' ->
             rstwt w = map str_float (rstwt s) ->
             rounded_parameters s w).
  { intros w Ec Ei E1 E2 E3 E4 E5 E6 E7. unfold rounded_parameters.
    rewrite Ec, Ei, E1, E2, E3, E4, E5, E6, E7, P1, P2, P3, P4, K2, K3.
    repeat split; try reflexivity; apply Qdiv_mult_same; exact Hconv. }
  cbn [read_namelists name WriteRstNamelist iat_value rstwt_value
       String.eqb Ascii.eqb Bool.eqb].
  change (mkNamelist "rst" (Some (iat s)) (_extra_namelist_values s)
            [("r1", str_float (r1 s * _report_conversion s));
             ("r2", str_float (r2 s * _report_conversion s));
             ("r3", str_float (r3 s * _report_conversion s));
             ("r4", str_float (r4 s * _report_conversion s));
             ("rk2", str_float (rk2 s)); ("rk3", str_float (rk3 s))]%string)
    with (WriteRstNamelist s).
  unfold _extra_namelist_values.
  destruct (class_of s) eqn:Hclass.
  - destruct Hshape as [Hlen Hwt].
    destruct (iat s) as [|a0 atoms] eqn:Hiat; [discriminate|].
    rewrite Hlen. cbn [Nat.eqb].
    unfold BondRestraint_init. rewrite Hlen. cbn [Nat.eqb].
    rewrite Hinit. cbn [bind]. exists s'. split; [reflexivity|].
    apply Hround; try reflexivity; try assumption.
    rewrite Hw, Hwt. reflexivity.
  - destruct Hshape as [Hlen Hwt].
    destruct (iat s) as [|a0 atoms] eqn:Hiat; [discriminate|].
    rewrite Hlen. cbn [Nat.eqb].
    unfold AngleRestraint_init. rewrite Hlen. cbn [Nat.eqb].
    rewrite Hinit. cbn [bind]. exists s'. split; [reflexivity|].
    apply Hround; try reflexivity; try assumption.
    rewrite Hw, Hwt. reflexivity.
  - destruct Hshape as [Hlen Hwt].
    destruct (iat s) as [|a0 atoms] eqn:Hiat; [discriminate|].
    rewrite Hlen. cbn [Nat.eqb].
    unfold TorsionRestraint_init. rewrite Hlen. cbn [Nat.eqb].
    rewrite Hinit. cbn [bind]. exists s'. split; [reflexivity|].
    apply Hround; try reflexivity; try assumption.
    rewrite Hw, Hwt. reflexivity.
  - destruct Hshape as (Hmod & Hwt & Hlen).
    destruct (iat s) as [|a0 atoms] eqn:Hiat.
    { exfalso. apply Hwt. cbn in Hlen.
      destruct (rstwt s); [reflexivity | discriminate]. }
    unfold GenDistCoordRestraint_init. rewrite Hmod. cbn [Nat.eqb].
    rewrite Hinit. cbn [bind].
    destruct (rstwt s) as [|w0 w] eqn:Hrw; [contradiction|].
    cbn [map floats_of_fields bind rstwt set_rstwt].
    change (str_float w0 :: map str_float w) with (map str_float (w0 :: w)).
    rewrite length_map, Hlen, Nat.eqb_refl. cbn [negb].
    exists (set_rstwt s' (map str_float (w0 :: w))). split; [reflexivity|].
    apply Hround; try reflexivity; assumption.
Qed.

Lemma read_written_collection (rs acc : AmberRestraint) :
  Forall constructed rs ->
  exists rs',
    read_namelists (map WriteRstNamelist rs) acc = Ok (acc ++ rs')
    /\ Forall2 rounded_parameters rs rs'.
Proof.
  revert acc. induction rs as [|s rs IH]; intros acc Hall.
  - exists []. split; [cbn; rewrite app_nil_r; reflexivity | constructor].
  - inversion Hall as [|? ? Hs Hrs]; subst.
    cbn [map].
    destruct (read_written_restraint s (map WriteRstNamelist rs) acc Hs)
      as (s' & Hread & Hsame).
    destruct (IH (acc ++ [s']) Hrs) as (rs' & Hrest & Hall').
    exists (s' :: rs'). split.
    + rewrite Hread, Hrest, <- app_assoc. reflexivity.
    + constructor; assumption.
Qed.

(** A restraint whose numbers are written in full is read back with the
    same values. *)
Lemma rounded_is_same_when_in_full (a b : NmroptRestraint) :
  rounded_parameters a b -> written_in_full a -> same_values a b.
Proof.
  intros (Ec & Ei & R1 & R2 & R3 & R4 & K2 & K3 & W)
         (F1 & F2 & F3 & F4 & G2 & G3 & FW).
  pose proof (conversion_pos a) as Hc.
  cbv zeta in *.
  set (conv := _report_conversion a) in *.
  assert (Hcancel : forall x y, y * conv == x * conv -> x == y).
  { intros x y H. nra. }
  unfold same_values. rewrite Ec, Ei, W.
  repeat split; try reflexivity.
  - apply Hcancel. rewrite R1. exact F1.
  - apply Hcancel. rewrite R2. exact F2.
  - apply Hcancel. rewrite R3. exact F3.
  - apply Hcancel. rewrite R4. exact F4.
  - rewrite K2. symmetry. exact G2.
  - rewrite K3. symmetry. exact G3.
  - clear W. induction FW as [|w ws Hw _ IH]; cbn [map]; constructor.
    + symmetry. exact Hw.
    + exact IH.
Qed.

(** C4, as the code has it.  Let a restraint file decode without error.
    If the collection is written out and the reader of groups returns, for
    the file written, the groups that were written, each number as its
    text spells it, then decoding that file succeeds and gives, restraint
    by restraint, the same class and atoms, while every position (in the
    units of the file), force constant and weight is the original one
    rounded to twelve significant digits, as [str] writes it.  A restraint
    all of whose numbers are written in full comes back with the same
    values.  Rounding changes a number by at most 5e-12 of its magnitude,
    leaves a number of at most twelve significant digits as it is, and
    does nothing the second time. *)
Theorem restraint_file_round_trip
    (ReadNamelists : string -> list namelist)
    (rstFilename outfile title : string)
    (amberRstr : AmberRestraint) (printed : list string) :
  ReadAmberRestraintFile ReadNamelists rstFilename = Ok (amberRstr, printed) ->
  ReadNamelists outfile = snd (WriteAmberRestraintFile amberRstr title) ->
  (exists amberRstr' printed',
      ReadAmberRestraintFile ReadNamelists outfile = Ok (amberRstr', printed')
      /\ Forall2 rounded_parameters amberRstr amberRstr'
      /\ Forall2 (fun a b => written_in_full a -> same_values a b)
                 amberRstr amberRstr')
  /\ (forall x : Q, Qabs (str_float x - x) <= (1 # 2) * 10 ^ (-11) * Qabs x)
  /\ (forall (x : Q) (N K : Z),
         (Z.abs N < 10 ^ 12)%Z -> x == inject_Z N * 10 ^ K ->
         str_float x == x)
  /\ (forall x : Q, str_float (str_float x) == str_float x).
Proof.
  intros Hread Hfile.
  split; [|split; [exact str_float_error
                  |split; [exact str_float_exact|exact str_float_idempotent]]].
  unfold ReadAmberRestraintFile in Hread.
  destruct (read_namelists (ReadNamelists rstFilename) []) as [rs|] eqn:Hrs;
    [|discriminate].
  cbn [bind] in Hread. injection Hread as <- _.
  assert (Hall : Forall constructed rs).
  { apply (read_namelists_constructed (ReadNamelists rstFilename) [] rs);
      [constructor | exact Hrs]. }
  destruct (read_written_collection rs [] Hall) as (rs' & Hback & Hsame).
  unfold ReadAmberRestraintFile. rewrite Hfile.
  cbn [WriteAmberRestraintFile snd]. rewrite Hback. cbn [bind app].
  eexists; eexists. split; [reflexivity|]. split; [exact Hsame|].
  clear - Hsame. induction Hsame as [|a b l l' Hab _ IH]; constructor.
  - intro Hfull. apply rounded_is_same_when_in_full; assumption.
  - exact IH.
Qed.

Lemma restraint_file_round_trip_witness :
  exists amberRstr printed amberRstr' printed',
    ReadAmberRestraintFile sample_reader "in.RST" = Ok (amberRstr, printed)
    /\ length amberRstr = 3%nat
    /\ ReadAmberRestraintFile sample_reader "out.RST"
       = Ok (amberRstr', printed')
    /\ Forall2 rounded_parameters amberRstr amberRstr'.
Proof.
  destruct (ReadAmberRestraintFile sample_reader "in.RST")
    as [[amberRstr printed]|] eqn:Hread; [|discriminate Hread].
  assert (Hfile : sample_reader "out.RST"
                  = snd (WriteAmberRestraintFile amberRstr "title")).
  { vm_compute in Hread. injection Hread as <- _. vm_compute. reflexivity. }
  destruct (restraint_file_round_trip sample_reader "in.RST" "out.RST"
              "title" amberRstr printed Hread Hfile)
    as ((amberRstr' & printed' & Hback & Hsame & _) & _).
  exists amberRstr, printed, amberRstr', printed'.
  split; [reflexivity|].
  split; [vm_compute in Hread; injection Hread as <- _; reflexivity|].
  split; assumption.
Defined.

(** C4, the claim as stated fails.  A bond is read from a file that gives
    its position as 1.2345678901234.  Written out, the position is spelled
    with twelve significant digits, 1.23456789012, and that is the value
    the second decode finds: the position of the second decode is not the
    position of the first. *)
Lemma round_trip_loses_digits :
  exists a b printed printed',
    ReadAmberRestraintFile long_reader "in.RST" = Ok ([a], printed)
    /\ long_reader "out.RST" = snd (WriteAmberRestraintFile [a] "title")
    /\ ReadAmberRestraintFile long_reader "out.RST" = Ok ([b], printed')
    /\ r2 a == 1.2345678901234
    /\ r2 b == 1.23456789012
    /\ ~ r2 a == r2 b
    /\ ~ Forall2 same_parameters [a] [b].
Proof.
  do 4 eexists.
  split; [vm_compute; reflexivity|].
  split; [vm_compute; reflexivity|].
  split; [vm_compute; reflexivity|].
  split; [unfold Qeq; vm_compute; reflexivity|].
  split; [unfold Qeq; vm_compute; reflexivity|].
  split; [unfold Qeq; vm_compute; discriminate|].
  intro H. inversion H as [|? ? ? ? Hab _]; subst.
  destruct Hab as (_ & _ & _ & H2 & _). revert H2.
  unfold Qeq; vm_compute; discriminate.
Qed.

(** ** Energy of a collection and its decomposition (rstr.py) *)

Lemma harmonic_bond_built :
  BondRestraint_init [1; 2]%Z [("r0", 1.0); ("k0", 10)]%string
  = Ok harmonic_bond.
Proof. reflexivity. Qed.

(** C5, at the input where the code departs from it.  Seven copies of the
    bond restraint r0 = 1.0, k0 = 10 on atoms 1 and 2, and the six
    Cartesian coordinates of two atoms 1.5 apart: [Energy] adds seven
    terms of 2.5, [DecomposeEnergy] stops after six, because its loop runs
    over [zip(self, crds)]. *)
Lemma decompose_energy_truncates :
  let self := repeat harmonic_bond 7 in
  let geom := constant_geometry 1.5 in
  length two_atoms = 6%nat
  /\ Bond geom two_atoms 0 1 == 1.5
  /\ (exists E, AmberRestraint_Energy geom self two_atoms = Ok E
                /\ E == 17.5)
  /\ (exists d b a t g total,
         DecomposeEnergy geom self two_atoms = Ok d
         /\ get "Bond"%string d = Some b
         /\ get "Angle"%string d = Some a
         /\ get "Torsion"%string d = Some t
         /\ get "Gen. Dist. Coord."%string d = Some g
         /\ get "Restraint"%string d = Some total
         /\ b + a + t + g == 15 /\ total == 15).
Proof.
  cbv zeta. split; [reflexivity|]. split; [reflexivity|]. split.
  - eexists. split; [vm_compute; reflexivity|]. reflexivity.
  - do 6 eexists. split; [vm_compute; reflexivity|].
    repeat (split; [reflexivity|]). reflexivity.
Qed.

Section Decomposition.

Variable geom : coordinates.

Lemma iadd_key_buckets (c : rstr_class) (e b a t g : Q) :
  exists b' a' t' g',
    iadd_key (component_type c) e (buckets b a t g)
    = Ok (buckets b' a' t' g')
    /\ b' + a' + t' + g' == b + a + t + g + e.
Proof.
  destruct c; cbn; do 4 eexists; (split; [reflexivity | ring]).
Qed.

(** Filling the buckets adds up what the corresponding loop of [Energy]
    adds up, restraint by restraint. *)
Lemma Decompose_loop_by_value (pairs : list (NmroptRestraint * Q))
    (crds : list Q) (e0 E b a t g : Q) :
  Energy_by_value geom pairs e0 = Ok E ->
  exists b' a' t' g',
    Decompose_loop geom true pairs crds (buckets b a t g)
    = Ok (buckets b' a' t' g')
    /\ b' + a' + t' + g' - (b + a + t + g) == E - e0.
Proof.
  revert e0 b a t g.
  induction pairs as [|[rst r] pairs IH]; intros e0 b a t g H.
  - injection H as <-. exists b, a, t, g. split; [reflexivity | ring].
  - cbn [Energy_by_value Decompose_loop] in *.
    destruct (Energy geom rst (PyFloat r)) as [e|]; [|discriminate].
    cbn [bind] in *.
    destruct (iadd_key_buckets (class_of rst) e b a t g)
      as (b1 & a1 & t1 & g1 & -> & Hsum).
    cbn [bind].
    destruct (IH _ b1 a1 t1 g1 H) as (b' & a' & t' & g' & -> & Hsum').
    exists b', a', t', g'. split; [reflexivity|]. lra.
Qed.

Lemma Decompose_loop_by_crds (rsts : list NmroptRestraint)
    (xs crds : list Q) (e0 E b a t g : Q) :
  (length rsts <= length xs)%nat ->
  Energy_by_crds geom rsts crds e0 = Ok E ->
  exists b' a' t' g',
    Decompose_loop geom false (combine rsts xs) crds (buckets b a t g)
    = Ok (buckets b' a' t' g')
    /\ b' + a' + t' + g' - (b + a + t + g) == E - e0.
Proof.
  revert xs e0 b a t g.
  induction rsts as [|rst rsts IH]; intros xs e0 b a t g Hlen H.
  - injection H as <-. exists b, a, t, g. split; [reflexivity | ring].
  - destruct xs as [|x xs]; [cbn in Hlen; lia|].
    cbn [Energy_by_crds Decompose_loop combine] in *.
    destruct (Energy geom rst (PyList crds)) as [e|]; [|discriminate].
    cbn [bind] in *.
    destruct (iadd_key_buckets (class_of rst) e b a t g)
      as (b1 & a1 & t1 & g1 & -> & Hsum).
    cbn [bind].
    assert (Hlen' : (length rsts <= length xs)%nat) by (cbn in Hlen; lia).
    destruct (IH xs _ b1 a1 t1 g1 Hlen' H)
      as (b' & a' & t' & g' & -> & Hsum').
    exists b', a', t', g'. split; [reflexivity|]. lra.
Qed.

(** Where the decomposition does agree with the total: whenever the
    argument is at least as long as the collection. *)
Lemma decompose_energy_sums_to_total (self : AmberRestraint)
    (crds : list Q) (E : Q) :
  (length self <= length crds)%nat ->
  AmberRestraint_Energy geom self crds = Ok E ->
  exists d b a t g total,
    DecomposeEnergy geom self crds = Ok d
    /\ get "Bond"%string d = Some b
    /\ get "Angle"%string d = Some a
    /\ get "Torsion"%string d = Some t
    /\ get "Gen. Dist. Coord."%string d = Some g
    /\ get "Restraint"%string d = Some total
    /\ b + a + t + g == E /\ total == E.
Proof.
  intros Hlen HE. unfold AmberRestraint_Energy in HE. unfold DecomposeEnergy.
  change [("Bond", 0); ("Angle", 0); ("Torsion", 0);
          ("Gen. Dist. Coord.", 0)]%string with (buckets 0 0 0 0).
  assert (Hloop : exists b a t g,
             Decompose_loop geom (length crds =? length self)%nat
                            (combine self crds) crds (buckets 0 0 0 0)
             = Ok (buckets b a t g)
             /\ b + a + t + g == E).
  { destruct (length crds =? length self)%nat.
    - destruct (Decompose_loop_by_value _ crds 0 E 0 0 0 0 HE)
        as (b & a & t & g & Hd & Hsum).
      exists b, a, t, g. split; [exact Hd | lra].
    - destruct (Decompose_loop_by_crds self crds crds 0 E 0 0 0 0 Hlen HE)
        as (b & a & t & g & Hd & Hsum).
      exists b, a, t, g. split; [exact Hd | lra]. }
  destruct Hloop as (b & a & t & g & -> & Hsum). cbn [bind].
  eexists. exists b, a, t, g. eexists.
  split; [reflexivity|]. repeat (split; [reflexivity|]).
  split; [exact Hsum|]. unfold sum_values. cbn. lra.
Qed.

End Decomposition.

(** ** The nearest-image loop on machine doubles *)

(** The rational [pi] of the exact model is the double [Binary64.pi]:
    mantissa 7074237752028440, exponent -51. *)
Lemma pi_is_the_double :
  FloatOps.Prim2SF Binary64.pi
  = SpecFloat.S754_finite false 7074237752028440 (-51)
  /\ pi == 7074237752028440 # (2 ^ 51).
Proof. split; reflexivity. Qed.

Lemma binary64_loop_more_fuel (n m : nat) (rmean r r' : PrimFloat.float) :
  Binary64.nearest_image_loop n rmean r = Some r' ->
  Binary64.nearest_image_loop (n + m) rmean r = Some r'.
Proof.
  revert r. induction n as [|n IH]; intros r H; [discriminate|].
  cbn [Nat.add Binary64.nearest_image_loop] in *.
  destruct (PrimFloat.ltb Binary64.pi (PrimFloat.sub r rmean));
    [apply IH; exact H|].
  destruct (PrimFloat.ltb Binary64.pi (PrimFloat.sub rmean r));
    [apply IH; exact H | exact H].
Qed.

(** Once at [cycle_low] the loop adds a period, overshoots, subtracts it,
    and is back where it was. *)
Lemma binary64_cycle (n : nat) :
  Binary64.nearest_image_loop n Binary64.cycle_rmean Binary64.cycle_low = None
  /\ Binary64.nearest_image_loop n Binary64.cycle_rmean Binary64.cycle_high
     = None.
Proof.
  induction n as [|n [IHlow IHhigh]]; [split; reflexivity|].
  split.
  - change (Binary64.nearest_image_loop (S n) Binary64.cycle_rmean
              Binary64.cycle_low)
      with (Binary64.nearest_image_loop n Binary64.cycle_rmean
              Binary64.cycle_high).
    exact IHhigh.
  - change (Binary64.nearest_image_loop (S n) Binary64.cycle_rmean
              Binary64.cycle_high)
      with (Binary64.nearest_image_loop n Binary64.cycle_rmean
              Binary64.cycle_low).
    exact IHlow.
Qed.

(** At [huge] subtracting a period changes nothing. *)
Lemma binary64_absorbed (n : nat) :
  Binary64.nearest_image_loop n PrimFloat.zero Binary64.huge = None.
Proof.
  induction n as [|n IH]; [reflexivity|].
  change (Binary64.nearest_image_loop (S n) PrimFloat.zero Binary64.huge)
    with (Binary64.nearest_image_loop n PrimFloat.zero Binary64.huge).
  exact IH.
Qed.

(** C10, at the input where the code departs from it.  A torsion
    restraint with r0 = [cycle_r0] degrees has r2 = r3 = [cycle_rmean] and
    hence that centre.  For the finite raw dihedral [cycle_raw], which lies
    in (-pi, pi], the loop never exits, whatever the number of tests
    allowed: after fifteen periods it alternates between two values, one
    more than pi below the centre, the other more than pi above it.  For
    the finite raw value 1e17 and the centre 0, subtracting 2 pi rounds
    back to 1e17.  The loop is meant to find the closest periodic image;
    carried out exactly it does ([exact_loop_exits]). *)
Lemma binary64_loop_never_exits :
  (PrimFloat.div Binary64.cycle_r0 Binary64._report_conversion
   = Binary64.cycle_rmean
   /\ Binary64.rmean_of Binary64.cycle_rmean Binary64.cycle_rmean
      = Binary64.cycle_rmean
   /\ PrimFloat.is_finite Binary64.cycle_raw = true
   /\ PrimFloat.is_finite Binary64.cycle_rmean = true
   /\ PrimFloat.ltb (PrimFloat.opp Binary64.pi) Binary64.cycle_raw = true
   /\ PrimFloat.leb Binary64.cycle_raw Binary64.pi = true
   /\ ~ exists fuel r',
          Binary64.nearest_image_loop fuel Binary64.cycle_rmean
                                      Binary64.cycle_raw = Some r')
  /\ (PrimFloat.is_finite Binary64.huge = true
      /\ ~ exists fuel r',
             Binary64.nearest_image_loop fuel PrimFloat.zero Binary64.huge
             = Some r').
Proof.
  split.
  - repeat (split; [reflexivity|]).
    intros (fuel & r' & H).
    apply (binary64_loop_more_fuel fuel 15) in H.
    rewrite Nat.add_comm in H.
    change (Binary64.nearest_image_loop (15 + fuel) Binary64.cycle_rmean
              Binary64.cycle_raw)
      with (Binary64.nearest_image_loop fuel Binary64.cycle_rmean
              Binary64.cycle_low) in H.
    rewrite (proj1 (binary64_cycle fuel)) in H. discriminate.
  - split; [reflexivity|].
    intros (fuel & r' & H). rewrite binary64_absorbed in H. discriminate.
Qed.

(** * Further properties *)

(** ** Equality as a relation *)

Lemma rstr_eq_iff (a b : NmroptRestraint) :
  rstr_eq a b = true <-> has_atoms a /\ same_restraint a b.
Proof.
  destruct (iat a) as [|i0 l] eqn:Ei.
  - split.
    + unfold rstr_eq. rewrite Ei.
      destruct (class_eqb (class_of b) (class_of a)); cbn [negb];
        [|discriminate].
      destruct (iat b) as [|j0 l']; cbn; discriminate.
    + intros [H _]. unfold has_atoms in H. congruence.
  - assert (Ha : has_atoms a) by (unfold has_atoms; congruence).
    rewrite (rstr_eq_spec a b Ha). tauto.
Qed.

Lemma same_restraint_sym (a b : NmroptRestraint) :
  same_restraint a b -> same_restraint b a.
Proof.
  unfold same_restraint.
  intros (Hc & Hi & H1 & H2 & H3 & H4 & H5 & H6).
  split; [symmetry; exact Hc|]. split.
  - destruct Hi as [Hi | Hi]; [left; symmetry; exact Hi|].
    right. rewrite <- Hi. apply rev_involutive.
  - repeat split; symmetry; assumption.
Qed.

Lemma same_restraint_trans (a b c : NmroptRestraint) :
  same_restraint a b -> same_restraint b c -> same_restraint a c.
Proof.
  unfold same_restraint.
  intros (Hc & Hi & H1 & H2 & H3 & H4 & H5 & H6)
         (Hc' & Hi' & H1' & H2' & H3' & H4' & H5' & H6').
  split; [congruence|]. split.
  - destruct Hi as [Hi | Hi], Hi' as [Hi' | Hi'].
    + left; congruence.
    + right; congruence.
    + right; congruence.
    + left. rewrite <- Hi', <- Hi. symmetry. apply rev_involutive.
  - repeat split; etransitivity; eassumption.
Qed.

Lemma same_restraint_has_atoms (a b : NmroptRestraint) :
  same_restraint a b -> has_atoms a -> has_atoms b.
Proof.
  unfold same_restraint, has_atoms. intros (_ & Hi & _) Ha Hb.
  apply Ha. destruct Hi as [Hi | Hi]; [congruence|].
  rewrite Hb in Hi. rewrite <- (rev_involutive (iat a)), Hi. reflexivity.
Qed.

Lemma rstr_eq_sym (a b : NmroptRestraint) : rstr_eq a b = rstr_eq b a.
Proof.
  apply eq_true_iff_eq. rewrite !rstr_eq_iff. split; intros [Ha Hs].
  - split; [apply (same_restraint_has_atoms _ _ Hs Ha)|].
    apply same_restraint_sym; exact Hs.
  - split; [apply (same_restraint_has_atoms _ _ Hs Ha)|].
    apply same_restraint_sym; exact Hs.
Qed.

Lemma rstr_eq_trans (a b c : NmroptRestraint) :
  rstr_eq a b = true -> rstr_eq b c = true -> rstr_eq a c = true.
Proof.
  rewrite !rstr_eq_iff. intros [Ha Hab] [_ Hbc].
  split; [exact Ha | apply (same_restraint_trans _ _ _ Hab Hbc)].
Qed.

(** X1.  [NmroptRestraint.__eq__] is symmetric and transitive, and a
    restraint equals itself exactly when it has at least one atom: on a
    restraint without atoms [r == r] is [False] and [r != r] is [True]. *)
Theorem restraint_eq_partial_equivalence (a b c : NmroptRestraint) :
  rstr_eq a b = rstr_eq b a
  /\ (rstr_eq a b = true -> rstr_eq b c = true -> rstr_eq a c = true)
  /\ (rstr_eq a a = true <-> iat a <> [])
  /\ (rstr_ne a a = true <-> iat a = []).
Proof.
  split; [apply rstr_eq_sym|]. split; [apply rstr_eq_trans|].
  assert (H : rstr_eq a a = true <-> iat a <> []).
  { rewrite rstr_eq_iff. split; [intros [H _]; exact H|].
    intro H. split; [exact H | apply same_restraint_refl]. }
  split; [exact H|]. unfold rstr_ne. rewrite negb_true_iff.
  destruct (rstr_eq a a).
  - split; [discriminate|]. intro E. exfalso.
    apply (proj1 H eq_refl). exact E.
  - split; [|reflexivity]. intros _.
    destruct (iat a) as [|i l]; [reflexivity|].
    assert (false = true) by (apply H; discriminate). discriminate.
Qed.

(** Pairing of two collections member by member. *)
Lemma forallb_combine_rstr_eq (l1 l2 : list NmroptRestraint) :
  length l1 = length l2 ->
  (forallb (fun p => rstr_eq (fst p) (snd p)) (combine l1 l2) = true
   <-> Forall2 (fun x y => rstr_eq x y = true) l1 l2).
Proof.
  revert l2. induction l1 as [|a l1 IH]; intros [|b l2] Hlen;
    try discriminate; cbn [combine forallb fst snd].
  - split; [constructor | reflexivity].
  - injection Hlen as Hlen. rewrite andb_true_iff, (IH l2 Hlen). split.
    + intros [H1 H2]. constructor; assumption.
    + intro H. inversion H; subst. split; assumption.
Qed.

Lemma AmberRestraint_eq_iff (self other : AmberRestraint) :
  AmberRestraint_eq self other = true
  <-> self <> []
      /\ exists other',
           Permutation other other'
           /\ Forall2 (fun x y => rstr_eq x y = true) self other'.
Proof.
  unfold AmberRestraint_eq.
  destruct (length self =? length other)%nat eqn:EL; cbn [negb].
  2:{ split; [discriminate|]. intros (_ & other' & Hp & HF).
      apply Nat.eqb_neq in EL. exfalso. apply EL.
      rewrite (Forall2_length HF). symmetry. apply (Permutation_length Hp). }
  apply Nat.eqb_eq in EL.
  rewrite eq_search_false, existsb_exists. split.
  - intros ([pi pj] & Hin & Hzip). cbn [fst snd] in Hzip.
    apply in_prod_iff in Hin. destruct Hin as [Hpi Hpj].
    apply permutations_spec in Hpi, Hpj.
    rewrite eq_zip_loop_false, andb_true_iff in Hzip.
    destruct Hzip as [Hne Hall].
    assert (Hlen : length pi = length pj).
    { rewrite <- (Permutation_length Hpi), <- (Permutation_length Hpj).
      exact EL. }
    apply forallb_combine_rstr_eq in Hall; [|exact Hlen].
    split.
    { intros ->. apply Permutation_nil in Hpi. subst pi.
      discriminate Hne. }
    destruct (Permutation_Forall2 (Permutation_sym Hpi) Hall)
      as (other' & Hperm & HF).
    exists other'. split; [|exact HF].
    apply (Permutation_trans Hpj Hperm).
  - intros (Hne & other' & Hperm & HF).
    exists (self, other'). split.
    + apply in_prod_iff. split; apply permutations_spec;
        [apply Permutation_refl | exact Hperm].
    + cbn [fst snd]. rewrite eq_zip_loop_false, andb_true_iff. split.
      * rewrite negb_true_iff, Nat.eqb_neq, length_combine.
        rewrite <- (Forall2_length HF), Nat.min_id.
        destruct self; [contradiction | discriminate].
      * apply forallb_combine_rstr_eq;
          [apply (Forall2_length HF) | exact HF].
Qed.

Lemma Forall2_rstr_eq_flip (l1 l2 : list NmroptRestraint) :
  Forall2 (fun x y => rstr_eq x y = true) l1 l2 ->
  Forall2 (fun x y => rstr_eq x y = true) l2 l1.
Proof.
  induction 1; constructor; [rewrite rstr_eq_sym|]; assumption.
Qed.

Lemma Forall2_rstr_eq_trans (l1 l2 l3 : list NmroptRestraint) :
  Forall2 (fun x y => rstr_eq x y = true) l1 l2 ->
  Forall2 (fun x y => rstr_eq x y = true) l2 l3 ->
  Forall2 (fun x y => rstr_eq x y = true) l1 l3.
Proof.
  intro H. revert l3. induction H as [|a b l1 l2 Hab H IH]; intros l3 H3;
    inversion H3; subst; constructor.
  - apply (rstr_eq_trans _ _ _ Hab). assumption.
  - apply IH. assumption.
Qed.

Lemma AmberRestraint_eq_sym_true (a b : AmberRestraint) :
  AmberRestraint_eq a b = true -> AmberRestraint_eq b a = true.
Proof.
  rewrite !AmberRestraint_eq_iff. intros (Hne & b' & Hp & HF).
  split.
  - intros ->. apply Permutation_nil in Hp. subst b'.
    inversion HF. subst. apply Hne. reflexivity.
  - apply Forall2_rstr_eq_flip in HF.
    destruct (Permutation_Forall2 (Permutation_sym Hp) HF)
      as (a' & Hpa & HFa).
    exists a'. split; assumption.
Qed.

(** X2.  [AmberRestraint.__eq__] is symmetric and transitive, and a
    collection equals itself exactly when it is not empty and each of its
    members has an atom; [__ne__] is symmetric with it. *)
Theorem collection_eq_partial_equivalence (a b c : AmberRestraint) :
  AmberRestraint_eq a b = AmberRestraint_eq b a
  /\ AmberRestraint_ne a b = AmberRestraint_ne b a
  /\ (AmberRestraint_eq a b = true -> AmberRestraint_eq b c = true ->
      AmberRestraint_eq a c = true)
  /\ (AmberRestraint_eq a a = true <-> a <> [] /\ Forall has_atoms a).
Proof.
  assert (Hs : AmberRestraint_eq a b = AmberRestraint_eq b a).
  { apply eq_true_iff_eq. split; apply AmberRestraint_eq_sym_true. }
  split; [exact Hs|]. split; [unfold AmberRestraint_ne; rewrite Hs;
                              reflexivity|].
  split.
  - rewrite !AmberRestraint_eq_iff.
    intros (Hne & b' & Hpb & HFab) (_ & c' & Hpc & HFbc).
    split; [exact Hne|].
    destruct (Permutation_Forall2 Hpb HFbc) as (c'' & Hpc' & HFc).
    exists c''. split; [apply (Permutation_trans Hpc Hpc')|].
    apply (Forall2_rstr_eq_trans _ _ _ HFab HFc).
  - rewrite AmberRestraint_eq_iff. split.
    + intros (Hne & a' & Hp & HF). split; [exact Hne|].
      clear Hp Hne Hs. induction HF as [|x y l l' Hxy HF IH]; constructor.
      * apply rstr_eq_iff in Hxy. apply Hxy.
      * exact IH.
    + intros [Hne Hat]. split; [exact Hne|]. exists a.
      split; [apply Permutation_refl|].
      clear Hne Hs. induction Hat as [|x l Hx Hat IH]; constructor.
      * apply rstr_eq_iff. split; [exact Hx | apply same_restraint_refl].
      * exact IH.
Qed.

(** ** Setting parameters again *)

(** The positions [set_positions] assigns, field by field. *)
Lemma set_positions_fields (p : dict Q) (s : NmroptRestraint) :
  set_positions p s
  = set_r s
      match get "r0"%string p with
      | Some r0 => match class_of s with
                   | BondRestraint => r0 - 500
                   | AngleRestraint => 0
                   | TorsionRestraint => r0 - 180
                   | GenDistCoordRestraint => r0 - 500
                   end / _report_conversion s
      | None => given p "r1" (_report_conversion s) (r1 s)
      end
      match get "r0"%string p with
      | Some r0 => r0 / _report_conversion s
      | None => given p "r2" (_report_conversion s) (r2 s)
      end
      match get "r0"%string p with
      | Some r0 => r0 / _report_conversion s
      | None => given p "r3" (_report_conversion s) (r3 s)
      end
      match get "r0"%string p with
      | Some r0 => match class_of s with
                   | BondRestraint => r0 + 500
                   | AngleRestraint => 180
                   | TorsionRestraint => r0 + 180
                   | GenDistCoordRestraint => r0 + 500
                   end / _report_conversion s
      | None => given p "r4" (_report_conversion s) (r4 s)
      end.
Proof.
  unfold set_positions. destruct (get "r0"%string p); [|reflexivity].
  unfold _harmonic_r1, _harmonic_r4. cbn [class_of r1 r2 r3 r4 set_r iat
                                          rk2 rk3 rstwt].
  unfold set_r. destruct (class_of s); reflexivity.
Qed.

Lemma given_idempotent (p : dict Q) (key : string) (conv old : Q) :
  given p key conv (given p key conv old) = given p key conv old.
Proof. unfold given. destruct (get key p); reflexivity. Qed.

Lemma set_r_set_r (s : NmroptRestraint) (a b c d a' b' c' d' : Q) :
  set_r (set_r s a b c d) a' b' c' d' = set_r s a' b' c' d'.
Proof. reflexivity. Qed.

Lemma conversion_set_r (s : NmroptRestraint) (a b c d : Q) :
  _report_conversion (set_r s a b c d) = _report_conversion s.
Proof. reflexivity. Qed.

Lemma class_of_set_r (s : NmroptRestraint) (a b c d : Q) :
  class_of (set_r s a b c d) = class_of s.
Proof. reflexivity. Qed.

Lemma set_positions_idempotent (p : dict Q) (s : NmroptRestraint) :
  set_positions p (set_positions p s) = set_positions p s.
Proof.
  rewrite (set_positions_fields p s).
  match goal with
  | |- set_positions p (set_r s ?a ?b ?c ?d) = _ =>
      set (a1 := a); set (a2 := b); set (a3 := c); set (a4 := d)
  end.
  rewrite (set_positions_fields p (set_r s a1 a2 a3 a4)).
  rewrite set_r_set_r, conversion_set_r, class_of_set_r.
  change (r1 (set_r s a1 a2 a3 a4)) with a1.
  change (r2 (set_r s a1 a2 a3 a4)) with a2.
  change (r3 (set_r s a1 a2 a3 a4)) with a3.
  change (r4 (set_r s a1 a2 a3 a4)) with a4.
  subst a1 a2 a3 a4.
  destruct (get "r0"%string p); [reflexivity|].
  rewrite !given_idempotent. reflexivity.
Qed.

Lemma set_rk_fields (p : dict Q) (s : NmroptRestraint) :
  set_force_constants p s
  = set_rk s
      match get "k0"%string p with
      | Some k0 => k0
      | None => match get "rk2"%string p with
                | Some v => v
                | None => rk2 s
                end
      end
      match get "k0"%string p with
      | Some k0 => k0
      | None => match get "rk3"%string p with
                | Some v => v
                | None => rk3 s
                end
      end.
Proof.
  unfold set_force_constants. destruct (get "k0"%string p); reflexivity.
Qed.

Lemma set_positions_force_constants (p q : dict Q) (s : NmroptRestraint) :
  set_positions p (set_force_constants q s)
  = set_force_constants q (set_positions p s).
Proof.
  rewrite (set_rk_fields q s).
  match goal with
  | |- set_positions p (set_rk s ?a ?b) = _ => set (k2 := a); set (k3 := b)
  end.
  rewrite (set_positions_fields p (set_rk s k2 k3)).
  rewrite (set_positions_fields p s).
  match goal with
  | |- _ = set_force_constants q (set_r s ?a ?b ?c ?d) =>
      set (a1 := a); set (a2 := b); set (a3 := c); set (a4 := d)
  end.
  rewrite (set_rk_fields q (set_r s a1 a2 a3 a4)).
  reflexivity.
Qed.

Lemma set_force_constants_idempotent (p : dict Q) (s : NmroptRestraint) :
  set_force_constants p (set_force_constants p s) = set_force_constants p s.
Proof.
  rewrite (set_rk_fields p s).
  match goal with
  | |- set_force_constants p (set_rk s ?a ?b) = _ =>
      set (k2 := a); set (k3 := b)
  end.
  rewrite (set_rk_fields p (set_rk s k2 k3)).
  change (rk2 (set_rk s k2 k3)) with k2.
  change (rk3 (set_rk s k2 k3)) with k3.
  subst k2 k3.
  destruct (get "k0"%string p); [reflexivity|].
  destruct (get "rk2"%string p), (get "rk3"%string p); reflexivity.
Qed.

(** X3.  Calling [SetRestraintParameters] a second time with the same
    keywords changes nothing: the restraint stays as the first call left
    it, and the second call ends as the first did. *)
Theorem set_parameters_idempotent (rstr_params : dict Q)
    (self : NmroptRestraint) :
  SetRestraintParameters rstr_params
    (fst (SetRestraintParameters rstr_params self))
  = SetRestraintParameters rstr_params self.
Proof.
  destruct (SetRestraintParameters_cases rstr_params self)
    as [[Hm ->] | [Hm ->]]; cbn [fst].
  - unfold SetRestraintParameters.
    rewrite set_positions_idempotent, Hm. reflexivity.
  - unfold SetRestraintParameters.
    rewrite set_positions_force_constants, set_positions_idempotent.
    rewrite monotonic_set_force_constants, Hm. cbn [negb].
    rewrite set_force_constants_idempotent. reflexivity.
Qed.

(** X4.  When none of r0, r1, r2, r3, r4 is among the keywords,
    [SetRestraintParameters] of rstr.py leaves the four positions as they
    are, and it raises exactly when they were not ordered before the
    call. *)
Theorem set_force_constants_keeps_positions (rstr_params : dict Q)
    (self : NmroptRestraint) :
  get "r0"%string rstr_params = None ->
  get "r1"%string rstr_params = None ->
  get "r2"%string rstr_params = None ->
  get "r3"%string rstr_params = None ->
  get "r4"%string rstr_params = None ->
  let self' := fst (SetRestraintParameters rstr_params self) in
  r1 self' = r1 self /\ r2 self' = r2 self /\ r3 self' = r3 self
  /\ r4 self' = r4 self
  /\ (snd (SetRestraintParameters rstr_params self) = Ok tt
      <-> ordered self).
Proof.
  intros H0 H1 H2 H3 H4.
  assert (Hp : set_positions rstr_params self = self).
  { destruct self as [c atoms a1 a2 a3 a4 k2 k3 w].
    unfold set_positions, given, set_r.
    cbn [class_of iat r1 r2 r3 r4 rk2 rk3 rstwt].
    rewrite H0, H1, H2, H3, H4. reflexivity. }
  destruct (SetRestraintParameters_cases rstr_params self)
    as [[Hm ->] | [Hm ->]]; cbn [fst snd]; rewrite Hp in *.
  - repeat (split; [reflexivity|]). split; [discriminate|].
    intro Ho. apply monotonic_true in Ho. congruence.
  - destruct (set_force_constants_frame rstr_params self)
      as (_ & _ & _ & E1 & E2 & E3 & E4).
    repeat (split; [assumption|]). split; [|reflexivity].
    intros _. apply monotonic_true. exact Hm.
Qed.

Lemma set_force_constants_keeps_positions_witness :
  let self' :=
    fst (SetRestraintParameters [("k0", 5)]%string sample_bond) in
  r1 self' = r1 sample_bond /\ r2 self' = r2 sample_bond
  /\ r3 self' = r3 sample_bond /\ r4 self' = r4 sample_bond
  /\ (snd (SetRestraintParameters [("k0", 5)]%string sample_bond) = Ok tt
      <-> ordered sample_bond).
Proof.
  apply (set_force_constants_keeps_positions [("k0", 5)]%string sample_bond);
    reflexivity.
Defined.

(** X5.  In AmberRestraint.py every call of [SetRestraintParameters] on an
    angle or a torsion multiplies the four stored positions by pi/180,
    also those that the call does not set: a call that only changes a
    force constant shrinks the well. *)
Theorem legacy_set_parameters_rescales (rstr_params : dict Q)
    (self : AmberRestraint.NmroptRestraint) :
  AmberRestraint.rstType self = "Angle"%string
  \/ AmberRestraint.rstType self = "Torsion"%string ->
  get "r0"%string rstr_params = None ->
  get "r1"%string rstr_params = None ->
  get "r2"%string rstr_params = None ->
  get "r3"%string rstr_params = None ->
  get "r4"%string rstr_params = None ->
  let self' :=
    fst (AmberRestraint.SetRestraintParameters rstr_params self) in
  AmberRestraint.r1 self' = AmberRestraint.r1 self * pi / 180
  /\ AmberRestraint.r2 self' = AmberRestraint.r2 self * pi / 180
  /\ AmberRestraint.r3 self' = AmberRestraint.r3 self * pi / 180
  /\ AmberRestraint.r4 self' = AmberRestraint.r4 self * pi / 180.
Proof.
  intros Ht H0 H1 H2 H3 H4.
  destruct self as [atoms n w t a1 a2 a3 a4 k2 k3].
  cbn [AmberRestraint.rstType] in Ht.
  unfold AmberRestraint.SetRestraintParameters,
    AmberRestraint.set_positions, AmberRestraint.given.
  rewrite H0, H1, H2, H3, H4.
  cbn [AmberRestraint.r1 AmberRestraint.r2 AmberRestraint.r3
       AmberRestraint.r4 AmberRestraint.set_r].
  unfold AmberRestraint.to_radians.
  cbn [AmberRestraint.rstType AmberRestraint.r1 AmberRestraint.r2
       AmberRestraint.r3 AmberRestraint.r4 AmberRestraint.set_r].
  assert (Hb : (String.eqb t "Angle" || String.eqb t "Torsion")%string
               = true).
  { destruct Ht as [-> | ->]; reflexivity. }
  rewrite Hb.
  match goal with
  | |- context [if negb ?m then _ else _] => destruct m
  end; cbn [negb fst];
    unfold AmberRestraint.set_force_constants;
    destruct (get "k0"%string rstr_params); cbn; repeat split.
Qed.

Lemma legacy_set_parameters_rescales_witness :
  let self :=
    AmberRestraint.mkRestraint [1; 2; 3]%Z 3 None "Angle" 1 2 2 3 10 10 in
  let self' :=
    fst (AmberRestraint.SetRestraintParameters [("k0", 5)]%string self) in
  AmberRestraint.r1 self' = 1 * pi / 180
  /\ AmberRestraint.r2 self' = 2 * pi / 180
  /\ AmberRestraint.r3 self' = 2 * pi / 180
  /\ AmberRestraint.r4 self' = 3 * pi / 180.
Proof.
  apply (legacy_set_parameters_rescales [("k0", 5)]%string
           (AmberRestraint.mkRestraint [1; 2; 3]%Z 3 None "Angle"
              1 2 2 3 10 10));
    [left; reflexivity | reflexivity ..].
Defined.

(** X6.  A position that [SetRestraintParameters] is given is written as
    [str] spells that very value, although angles and torsions store their
    positions in radians: the number [WriteRstNamelist] writes for r1, r2,
    r3 or r4 is the value of that keyword rounded to twelve significant
    digits, and with r0 it writes the rounded r0 for both r2 and r3.  The
    number written is therefore within 5e-12 of the magnitude of the value
    given, and is the value given when that has at most twelve significant
    digits. *)
Theorem positions_written_as_set (rstr_params : dict Q)
    (self : NmroptRestraint) :
  let self' := fst (SetRestraintParameters rstr_params self) in
  let written := float_values (WriteRstNamelist self') in
  (forall r0, get "r0"%string rstr_params = Some r0 ->
     exists w2 w3,
       get "r2"%string written = Some w2 /\ w2 == str_float r0
       /\ get "r3"%string written = Some w3 /\ w3 == str_float r0)
  /\ (get "r0"%string rstr_params = None ->
      (forall v, get "r1"%string rstr_params = Some v ->
         exists w, get "r1"%string written = Some w /\ w == str_float v)
      /\ (forall v, get "r2"%string rstr_params = Some v ->
            exists w, get "r2"%string written = Some w /\ w == str_float v)
      /\ (forall v, get "r3"%string rstr_params = Some v ->
            exists w, get "r3"%string written = Some w /\ w == str_float v)
      /\ (forall v, get "r4"%string rstr_params = Some v ->
            exists w, get "r4"%string written = Some w
                      /\ w == str_float v))
  /\ (forall x : Q, Qabs (str_float x - x) <= (1 # 2) * 10 ^ (-11) * Qabs x)
  /\ (forall (x : Q) (N K : Z),
         (Z.abs N < 10 ^ 12)%Z -> x == inject_Z N * 10 ^ K ->
         str_float x == x).
Proof.
  cbv zeta.
  assert (Hpos : r1 (fst (SetRestraintParameters rstr_params self))
                 = r1 (set_positions rstr_params self)
                 /\ r2 (fst (SetRestraintParameters rstr_params self))
                    = r2 (set_positions rstr_params self)
                 /\ r3 (fst (SetRestraintParameters rstr_params self))
                    = r3 (set_positions rstr_params self)
                 /\ r4 (fst (SetRestraintParameters rstr_params self))
                    = r4 (set_positions rstr_params self)
                 /\ _report_conversion
                      (fst (SetRestraintParameters rstr_params self))
                    = _report_conversion self).
  { destruct (set_positions_frame rstr_params self) as (Pc & _).
    destruct (SetRestraintParameters_cases rstr_params self)
      as [[_ ->] | [_ ->]]; cbn [fst].
    - repeat split. unfold _report_conversion. rewrite Pc. reflexivity.
    - destruct (set_force_constants_frame rstr_params
                  (set_positions rstr_params self))
        as (Fc & _ & _ & F1 & F2 & F3 & F4).
      repeat split; try assumption.
      unfold _report_conversion. rewrite Fc, Pc. reflexivity. }
  destruct Hpos as (E1 & E2 & E3 & E4 & Ec).
  set (s' := fst (SetRestraintParameters rstr_params self)) in *.
  pose proof (conversion_pos self) as Hc.
  unfold WriteRstNamelist. cbn [float_values]. rewrite Ec, E1, E2, E3, E4.
  clearbody s'. clear E1 E2 E3 E4 Ec.
  rewrite (set_positions_fields rstr_params self).
  unfold set_r. cbn [r1 r2 r3 r4].
  assert (Hstr : forall v, str_float (v / _report_conversion self
                                      * _report_conversion self)
                           == str_float v).
  { intro v. apply str_float_comp. apply (Qdiv_mult_same _ _ Hc). }
  split; [|split; [|split; [exact str_float_error|exact str_float_exact]]].
  - intros r0 H0. rewrite H0. eexists; eexists.
    split; [reflexivity|]. split; [apply Hstr|].
    split; [reflexivity | apply Hstr].
  - intro H0. rewrite H0. unfold given.
    repeat split; intros v Hv; rewrite Hv; eexists;
      (split; [reflexivity | apply Hstr]).
Qed.

(** ** Setting parameters on a whole collection *)

Lemma getitem_app (A : Type) (pre : list A) (x : A) (rest : list A) :
  getitem (pre ++ x :: rest) (Z.of_nat (length pre)) = Ok x.
Proof.
  unfold getitem, norm_index.
  assert (H : (Z.of_nat (length pre) <? 0)%Z = false)
    by (apply Z.ltb_ge; lia).
  rewrite H.
  assert (H2 : ((0 <=? Z.of_nat (length pre))
                && (Z.of_nat (length pre)
                    <? Z.of_nat (length (pre ++ x :: rest))))%Z = true).
  { rewrite length_app. cbn [length]. apply andb_true_iff.
    split; [apply Z.leb_le | apply Z.ltb_lt]; lia. }
  rewrite H2, Nat2Z.id, nth_error_app2, Nat.sub_diag; [reflexivity | lia].
Qed.

Lemma update_nth_app (A : Type) (f : A -> A) (pre : list A) (x : A)
    (rest : list A) :
  update_nth (length pre) f (pre ++ x :: rest) = pre ++ f x :: rest.
Proof.
  induction pre as [|a pre IH]; [reflexivity|].
  cbn [length app update_nth]. rewrite IH. reflexivity.
Qed.

Lemma set_by_values_in_order (params : string) (values : list Q) :
  forall pre rest : list NmroptRestraint,
    (length values <= length rest)%nat ->
    set_by_values params (Z.of_nat (length pre)) values (pre ++ rest)
    = (pre ++ fst (assign_in_order params rest values),
       snd (assign_in_order params rest values)).
Proof.
  induction values as [|v values IH]; intros pre rest Hlen.
  - destruct rest; reflexivity.
  - destruct rest as [|s rest]; [cbn in Hlen; lia|].
    cbn [set_by_values assign_in_order]. rewrite getitem_app.
    rewrite Nat2Z.id.
    destruct (SetRestraintParameters [(params, v)] s) as [s' [[]|e]].
    + rewrite update_nth_app.
      replace (Z.of_nat (length pre) + 1)%Z
        with (Z.of_nat (length (pre ++ [s'])))
        by (rewrite length_app; cbn [length]; lia).
      replace (pre ++ s' :: rest) with ((pre ++ [s']) ++ rest)
        by (rewrite <- app_assoc; reflexivity).
      rewrite IH by (cbn [length] in Hlen; lia).
      destruct (assign_in_order params rest values) as [rest' out].
      cbn [fst snd]. rewrite <- app_assoc. reflexivity.
    + rewrite update_nth_app. reflexivity.
Qed.

Lemma set_by_members_in_order (params : string)
    (rstrs : list NmroptRestraint) :
  forall vpre vrest : list Q,
    (length rstrs <= length vrest)%nat ->
    set_by_members params (Z.of_nat (length vpre)) (vpre ++ vrest) rstrs
    = assign_in_order params rstrs vrest.
Proof.
  induction rstrs as [|s rstrs IH]; intros vpre vrest Hlen.
  - reflexivity.
  - destruct vrest as [|v vrest]; [cbn in Hlen; lia|].
    cbn [set_by_members assign_in_order]. rewrite getitem_app.
    destruct (SetRestraintParameters [(params, v)] s) as [s' [[]|e]];
      [|reflexivity].
    replace (Z.of_nat (length vpre) + 1)%Z
      with (Z.of_nat (length (vpre ++ [v])))
      by (rewrite length_app; cbn [length]; lia).
    replace (vpre ++ v :: vrest) with ((vpre ++ [v]) ++ vrest)
      by (rewrite <- app_assoc; reflexivity).
    rewrite IH by (cbn [length] in Hlen; lia). reflexivity.
Qed.

(** X7.  The bulk [SetRestraintParameters] of a collection, called with
    one keyword and a list of values, sets the i-th restraint with the
    i-th value, in order, until the values or the restraints run out or a
    value is rejected; restraints after that point are untouched, and
    those before it keep their new values when the call raises.  Both
    branches of the code do this; a warning is printed exactly when there
    are more values than restraints. *)
Theorem bulk_set_parameters_in_order (params : string) (values : list Q)
    (self : AmberRestraint) :
  AmberRestraint_SetRestraintParameters [(params, values)] self
  = (fst (assign_in_order params self values),
     if (length values <=? length self)%nat then []
     else [("Warning: " ++ str_of_nat (length values)
            ++ " restraint parameters were specified, but only "
            ++ str_of_nat (length self)
            ++ " restraints are defined.")%string],
     snd (assign_in_order params self values)).
Proof.
  unfold AmberRestraint_SetRestraintParameters.
  cbn [set_parameters_loop].
  destruct (length values <=? length self)%nat eqn:E.
  - apply Nat.leb_le in E.
    pose proof (set_by_values_in_order params values [] self E) as H.
    cbn [length app] in H. change (Z.of_nat 0) with 0%Z in H. rewrite H.
    destruct (assign_in_order params self values) as [self' [[]|e]];
      reflexivity.
  - apply Nat.leb_gt in E.
    pose proof (set_by_members_in_order params self [] values
                  (Nat.lt_le_incl _ _ E)) as H.
    cbn [length app] in H. change (Z.of_nat 0) with 0%Z in H. rewrite H.
    destruct (assign_in_order params self values) as [self' [[]|e]];
      reflexivity.
Qed.

Lemma same_identity_refl (a : NmroptRestraint) : same_identity a a.
Proof. repeat split. Qed.

Lemma same_identity_trans (a b c : NmroptRestraint) :
  same_identity a b -> same_identity b c -> same_identity a c.
Proof.
  unfold same_identity. intros (H1 & H2 & H3) (H4 & H5 & H6).
  repeat split; congruence.
Qed.

Lemma Forall2_same_identity_refl (l : list NmroptRestraint) :
  Forall2 same_identity l l.
Proof. induction l; constructor; [apply same_identity_refl | assumption]. Qed.

Lemma Forall2_same_identity_trans (l1 l2 l3 : list NmroptRestraint) :
  Forall2 same_identity l1 l2 -> Forall2 same_identity l2 l3 ->
  Forall2 same_identity l1 l3.
Proof.
  intro H. revert l3. induction H as [|a b l1 l2 Hab H IH]; intros l3 H3;
    inversion H3; subst; constructor.
  - apply (same_identity_trans _ _ _ Hab). assumption.
  - apply IH. assumption.
Qed.

Lemma SetRestraintParameters_identity (p : dict Q) (s : NmroptRestraint) :
  same_identity s (fst (SetRestraintParameters p s))
  /\ (snd (SetRestraintParameters p s) = Ok tt
      \/ snd (SetRestraintParameters p s) = Raise ValueError).
Proof.
  destruct (set_positions_frame p s) as (Hc & Hi & Hw & _).
  destruct (SetRestraintParameters_cases p s) as [[_ ->] | [_ ->]];
    cbn [fst snd].
  - split; [|right; reflexivity]. repeat split; symmetry; assumption.
  - split; [|left; reflexivity].
    destruct (set_force_constants_frame p (set_positions p s))
      as (Hc' & Hi' & Hw' & _).
    repeat split; congruence.
Qed.

Lemma assign_in_order_frame (params : string) (rstrs : list NmroptRestraint) :
  forall values : list Q,
    Forall2 same_identity rstrs (fst (assign_in_order params rstrs values))
    /\ (snd (assign_in_order params rstrs values) = Ok tt
        \/ snd (assign_in_order params rstrs values) = Raise ValueError)
    /\ forall i, (length values <= i)%nat ->
         nth_error (fst (assign_in_order params rstrs values)) i
         = nth_error rstrs i.
Proof.
  induction rstrs as [|s rstrs IH]; intros values.
  - cbn. split; [constructor|]. split; [left; reflexivity|]. reflexivity.
  - destruct values as [|v values].
    + cbn [assign_in_order fst snd].
      split; [apply Forall2_same_identity_refl|].
      split; [left; reflexivity | reflexivity].
    + cbn [assign_in_order].
      destruct (SetRestraintParameters_identity [(params, v)] s)
        as [Hid Hout].
      destruct (SetRestraintParameters [(params, v)] s) as [s' [[]|e]];
        cbn [fst snd] in Hid, Hout.
      * destruct (IH values) as (HF & Ho & Hn).
        destruct (assign_in_order params rstrs values) as [rest out].
        cbn [fst snd] in *. split; [constructor; assumption|].
        split; [exact Ho|]. intros [|i] Hi; [cbn in Hi; lia|].
        cbn [nth_error]. apply Hn. cbn [length] in Hi. lia.
      * cbn [fst snd].
        split; [constructor; [exact Hid|apply Forall2_same_identity_refl]|].
        split; [exact Hout|]. intros [|i] Hi; [cbn in Hi; lia|].
        reflexivity.
Qed.

Lemma set_parameters_loop_cons (params : string) (values : list Q)
    (rest : list (string * list Q)) (self : AmberRestraint)
    (printed : list string) :
  exists printed',
    set_parameters_loop (length self) ((params, values) :: rest) self printed
    = match snd (assign_in_order params self values) with
      | Ok _ =>
          set_parameters_loop (length self) rest
            (fst (assign_in_order params self values)) printed'
      | Raise e => (fst (assign_in_order params self values), printed', Raise e)
      end.
Proof.
  cbn [set_parameters_loop].
  destruct (length values <=? length self)%nat eqn:E.
  - apply Nat.leb_le in E. exists printed.
    pose proof (set_by_values_in_order params values [] self E) as H.
    cbn [length app] in H. change (Z.of_nat 0) with 0%Z in H. rewrite H.
    destruct (assign_in_order params self values) as [self' [[]|e]];
      reflexivity.
  - apply Nat.leb_gt in E. eexists.
    pose proof (set_by_members_in_order params self [] values
                  (Nat.lt_le_incl _ _ E)) as H.
    cbn [length app] in H. change (Z.of_nat 0) with 0%Z in H. rewrite H.
    destruct (assign_in_order params self values) as [self' [[]|e]];
      reflexivity.
Qed.

Lemma set_parameters_loop_frame (rstr_params : list (string * list Q)) :
  forall (self : AmberRestraint) (printed : list string),
    Forall2 same_identity self
      (fst (fst (set_parameters_loop (length self) rstr_params self printed)))
    /\ (snd (set_parameters_loop (length self) rstr_params self printed)
        = Ok tt
        \/ snd (set_parameters_loop (length self) rstr_params self printed)
           = Raise ValueError)
    /\ forall i,
         (forall params values,
             In (params, values) rstr_params -> (length values <= i)%nat) ->
         nth_error
           (fst (fst (set_parameters_loop (length self) rstr_params self
                        printed))) i
         = nth_error self i.
Proof.
  induction rstr_params as [|[params values] rest IH]; intros self printed.
  - cbn [set_parameters_loop fst snd].
    split; [apply Forall2_same_identity_refl|].
    split; [left; reflexivity | reflexivity].
  - destruct (set_parameters_loop_cons params values rest self printed)
      as [printed' ->].
    destruct (assign_in_order_frame params self values) as (HF & Ho & Hn).
    destruct (assign_in_order params self values) as [self' out].
    cbn [fst snd] in *.
    destruct Ho as [-> | ->].
    + pose proof (Forall2_length HF) as Hlen. rewrite Hlen.
      destruct (IH self' printed') as (HF' & Ho' & Hn').
      split; [apply (Forall2_same_identity_trans _ _ _ HF HF')|].
      split; [exact Ho'|]. intros i Hi. rewrite Hn'.
      * apply Hn. apply (Hi params values). left. reflexivity.
      * intros q vs Hin. apply (Hi q vs). right. exact Hin.
    + cbn [fst snd]. split; [exact HF|]. split; [right; reflexivity|].
      intros i Hi. apply Hn. apply (Hi params values). left. reflexivity.
Qed.

(** X8.  Whatever keywords and values the bulk [SetRestraintParameters]
    is given, it ends normally or with [ValueError], never with an index
    error; the collection keeps its length, and every member its class,
    atoms and weights; and a member at an index that no list of values
    reaches is left exactly as it was. *)
Theorem bulk_set_parameters_frame (rstr_params : list (string * list Q))
    (self : AmberRestraint) :
  let result := AmberRestraint_SetRestraintParameters rstr_params self in
  (snd result = Ok tt \/ snd result = Raise ValueError)
  /\ length (fst (fst result)) = length self
  /\ Forall2 same_identity self (fst (fst result))
  /\ forall i,
       (forall params values,
           In (params, values) rstr_params -> (length values <= i)%nat) ->
       nth_error (fst (fst result)) i = nth_error self i.
Proof.
  unfold AmberRestraint_SetRestraintParameters. cbv zeta.
  destruct (set_parameters_loop_frame rstr_params self [])
    as (HF & Ho & Hn).
  split; [exact Ho|]. split; [symmetry; apply (Forall2_length HF)|].
  split; [exact HF | exact Hn].
Qed.

(** ** Energy and gradients of a collection *)

Lemma iadd_item_app (pre : list Q) (a : Q) (rest : list Q) (v : Q) :
  iadd_item (pre ++ a :: rest) (Z.of_nat (length pre)) v
  = Ok (pre ++ (a + v) :: rest).
Proof.
  unfold iadd_item, norm_index.
  assert (H : (Z.of_nat (length pre) <? 0)%Z = false)
    by (apply Z.ltb_ge; lia).
  rewrite H.
  assert (H2 : ((0 <=? Z.of_nat (length pre))
                && (Z.of_nat (length pre)
                    <? Z.of_nat (length (pre ++ a :: rest))))%Z = true).
  { rewrite length_app. cbn [length]. apply andb_true_iff.
    split; [apply Z.leb_le | apply Z.ltb_lt]; lia. }
  rewrite H2, Nat2Z.id, update_nth_app. reflexivity.
Qed.

Lemma iadd_item_beyond (l : list Q) (v : Q) :
  iadd_item l (Z.of_nat (length l)) v = Raise IndexError.
Proof.
  unfold iadd_item, norm_index.
  assert (H : (Z.of_nat (length l) <? 0)%Z = false)
    by (apply Z.ltb_ge; lia).
  rewrite H.
  assert (H2 : (Z.of_nat (length l) <? Z.of_nat (length l))%Z = false)
    by (apply Z.ltb_ge; lia).
  rewrite H2, andb_false_r. reflexivity.
Qed.

Lemma length_add_onto (gradients g : list Q) :
  length (add_onto gradients g) = length gradients.
Proof.
  revert g. induction gradients as [|a gradients IH]; intros [|b g];
    cbn [add_onto length]; try reflexivity.
  rewrite IH. reflexivity.
Qed.

(** The inner loop adds [g] onto [gradients], and fails when [g] is the
    longer list. *)
Lemma add_gradients_spec (g : list Q) :
  forall pre rest : list Q,
    add_gradients (Z.of_nat (length pre)) g (pre ++ rest)
    = if (length g <=? length rest)%nat
      then Ok (pre ++ add_onto rest g)
      else Raise IndexError.
Proof.
  induction g as [|b g IH]; intros pre rest.
  - cbn [add_gradients length Nat.leb]. destruct rest; reflexivity.
  - cbn [add_gradients]. destruct rest as [|a rest].
    + rewrite app_nil_r, iadd_item_beyond. reflexivity.
    + rewrite iadd_item_app. cbn [bind].
      replace (Z.of_nat (length pre) + 1)%Z
        with (Z.of_nat (length (pre ++ [a + b])))
        by (rewrite length_app; cbn [length]; lia).
      replace (pre ++ (a + b) :: rest) with ((pre ++ [a + b]) ++ rest)
        by (rewrite <- app_assoc; reflexivity).
      rewrite IH. cbn [length Nat.leb add_onto].
      destruct (length g <=? length rest)%nat; [|reflexivity].
      rewrite <- app_assoc. reflexivity.
Qed.

Lemma add_gradients_from_0 (g gradients : list Q) :
  add_gradients 0 g gradients
  = if (length g <=? length gradients)%nat
    then Ok (add_onto gradients g)
    else Raise IndexError.
Proof. apply (add_gradients_spec g [] gradients). Qed.

Section CollectionGradientFacts.

Variable geom : coordinates.

Lemma EnergyAndGradients_loop_energy (rsts : list NmroptRestraint)
    (crds : list Q) :
  forall (e0 : Q) (g0 : list Q) (E : Q) (g : list Q),
    EnergyAndGradients_loop geom rsts crds e0 g0 = Ok (E, g) ->
    Energy_by_crds geom rsts crds e0 = Ok E /\ length g = length g0.
Proof.
  induction rsts as [|rst rsts IH]; intros e0 g0 E g H.
  - cbn in H. injection H as <- <-. split; reflexivity.
  - cbn [EnergyAndGradients_loop] in H. cbn [Energy_by_crds].
    unfold Energy.
    destruct (EnergyAndGradients geom rst (PyList crds)) as [[e gi]|];
      [|discriminate].
    cbn [bind] in H |- *. rewrite add_gradients_from_0 in H.
    destruct (length gi <=? length g0)%nat; [|discriminate].
    cbn [bind] in H. apply IH in H. destruct H as [H1 H2].
    split; [exact H1|]. rewrite H2. apply length_add_onto.
Qed.

End CollectionGradientFacts.

(** X9.  When the list passed is not as long as the collection, so that
    [Energy] reads it as Cartesian coordinates too, the energy that
    [AmberRestraint.EnergyAndGradients] returns is the one [Energy]
    returns, and the gradient has one entry per coordinate. *)
Theorem collection_gradients_with_energy (geom : coordinates)
    (self : AmberRestraint) (crds : list Q) (E : Q) (g : list Q) :
  length crds <> length self ->
  AmberRestraint_EnergyAndGradients geom self crds = Ok (E, g) ->
  AmberRestraint_Energy geom self crds = Ok E /\ length g = length crds.
Proof.
  intros Hlen H. unfold AmberRestraint_EnergyAndGradients in H.
  apply EnergyAndGradients_loop_energy in H. destruct H as [H1 H2].
  unfold AmberRestraint_Energy.
  apply Nat.eqb_neq in Hlen. rewrite Hlen.
  split; [exact H1|]. rewrite H2. apply repeat_length.
Qed.

Lemma collection_gradients_with_energy_witness :
  exists E g,
    AmberRestraint_EnergyAndGradients (constant_geometry 1.5)
      [harmonic_bond] two_atoms = Ok (E, g)
    /\ AmberRestraint_Energy (constant_geometry 1.5) [harmonic_bond]
         two_atoms = Ok E
    /\ length g = 6%nat.
Proof.
  destruct (AmberRestraint_EnergyAndGradients (constant_geometry 1.5)
              [harmonic_bond] two_atoms) as [[E g]|] eqn:H;
    [|vm_compute in H; discriminate H].
  exists E, g. split; [reflexivity|].
  apply (collection_gradients_with_energy (constant_geometry 1.5)
           [harmonic_bond] two_atoms E g); [|exact H].
  vm_compute. discriminate.
Defined.

Lemma EnergyAndGradients_loop_sum (geom : coordinates) (crds : list Q)
    (rsts : list NmroptRestraint) (egs : list (Q * list Q)) :
  Forall2 (fun rst eg =>
             EnergyAndGradients geom rst (PyList crds) = Ok eg
             /\ (length (snd eg) <= length crds)%nat) rsts egs ->
  forall (e0 : Q) (g0 : list Q),
    length g0 = length crds ->
    EnergyAndGradients_loop geom rsts crds e0 g0
    = Ok (fold_left (fun E eg => E + fst eg) egs e0,
          fold_left (fun G eg => add_onto G (snd eg)) egs g0).
Proof.
  induction 1 as [|rst [e g] rsts egs [Hrst Hlen] HF IH]; intros e0 g0 Hg0.
  - reflexivity.
  - cbn [EnergyAndGradients_loop fold_left fst snd]. rewrite Hrst.
    cbn [bind]. rewrite add_gradients_from_0.
    cbn [snd] in Hlen. rewrite Hg0.
    apply Nat.leb_le in Hlen. rewrite Hlen. cbn [bind].
    apply IH. rewrite length_add_onto. exact Hg0.
Qed.

Lemma EnergyAndGradients_loop_overflow (geom : coordinates) (crds : list Q)
    (pre : list NmroptRestraint) (egs : list (Q * list Q)) :
  Forall2 (fun rst eg =>
             EnergyAndGradients geom rst (PyList crds) = Ok eg
             /\ (length (snd eg) <= length crds)%nat) pre egs ->
  forall (rst : NmroptRestraint) (post : list NmroptRestraint) (e : Q)
         (g : list Q) (e0 : Q) (g0 : list Q),
    length g0 = length crds ->
    EnergyAndGradients geom rst (PyList crds) = Ok (e, g) ->
    (length crds < length g)%nat ->
    EnergyAndGradients_loop geom (pre ++ rst :: post) crds e0 g0
    = Raise IndexError.
Proof.
  induction 1 as [|r0 [e1 g1] pre egs [Hrst Hlen] HF IH];
    intros rst post e g e0 g0 Hg0 He Hlong.
  - cbn [app EnergyAndGradients_loop]. rewrite He. cbn [bind].
    rewrite add_gradients_from_0, Hg0.
    apply Nat.leb_gt in Hlong. rewrite Hlong. reflexivity.
  - cbn [app EnergyAndGradients_loop]. rewrite Hrst. cbn [bind].
    rewrite add_gradients_from_0. cbn [snd] in Hlen. rewrite Hg0.
    apply Nat.leb_le in Hlen. rewrite Hlen. cbn [bind].
    apply (IH rst post e g); [|exact He | exact Hlong].
    rewrite length_add_onto. exact Hg0.
Qed.

(** X10.  [AmberRestraint.EnergyAndGradients] adds up the members: when
    each member returns an energy and a gradient no longer than the
    coordinate list, the collection returns the sum of the energies and
    the component-wise sum of the gradients.  The first member whose
    gradient is longer than the coordinate list makes the call end with
    [IndexError]. *)
Theorem collection_gradients_sum (geom : coordinates) (crds : list Q)
    (self : AmberRestraint) (egs : list (Q * list Q)) :
  Forall2 (fun rst eg =>
             EnergyAndGradients geom rst (PyList crds) = Ok eg
             /\ (length (snd eg) <= length crds)%nat) self egs ->
  AmberRestraint_EnergyAndGradients geom self crds
  = Ok (fold_left (fun E eg => E + fst eg) egs 0,
        fold_left (fun G eg => add_onto G (snd eg)) egs
                  (zeros (length crds)))
  /\ forall rst post e g,
       EnergyAndGradients geom rst (PyList crds) = Ok (e, g) ->
       (length crds < length g)%nat ->
       AmberRestraint_EnergyAndGradients geom (self ++ rst :: post) crds
       = Raise IndexError.
Proof.
  intro HF. unfold AmberRestraint_EnergyAndGradients. split.
  - apply (EnergyAndGradients_loop_sum geom crds self egs HF).
    apply repeat_length.
  - intros rst post e g He Hlong.
    apply (EnergyAndGradients_loop_overflow geom crds self egs HF rst post
             e g); [apply repeat_length | exact He | exact Hlong].
Qed.

Lemma collection_gradients_sum_witness :
  let geom := constant_geometry 1.5 in
  let eg := (snd (well harmonic_bond 1.5),
             map (fun d => fst (well harmonic_bond 1.5) * d)
                 (zeros 6)) in
  AmberRestraint_EnergyAndGradients geom [harmonic_bond; harmonic_bond]
    two_atoms
  = Ok (0 + fst eg + fst eg,
        add_onto (add_onto (zeros 6) (snd eg)) (snd eg)).
Proof.
  intros geom eg.
  refine (proj1 (collection_gradients_sum geom two_atoms
                   [harmonic_bond; harmonic_bond] [eg; eg] _)).
  repeat constructor.
Defined.

(** ** Coordinates and their gradients *)

Lemma gdc_loops_agree (geom : coordinates) (self : NmroptRestraint)
    (crds : list Q) (ws : list Q) :
  forall (k : Z) (r : Q) (drdx : list Q) (r' : Q) (drdx' : list Q),
    gdc_grad_loop geom self crds k ws r drdx = Ok (r', drdx') ->
    gdc_coord_loop geom self crds k ws r = Ok r'.
Proof.
  induction ws as [|w ws IH]; intros k r drdx r' drdx' H.
  - cbn in H. injection H as <- _. reflexivity.
  - cbn [gdc_grad_loop] in H. cbn [gdc_coord_loop].
    destruct (getitem (iat self) (2 * k + 0)) as [ii|]; [|discriminate].
    destruct (getitem (iat self) (2 * k + 1)) as [jj|]; [|discriminate].
    cbn [bind] in H |- *.
    destruct (BondAndGradients geom crds (ii - 1) (jj - 1))
      as [[x gi] gj].
    destruct (gdc_grad_inner [0; 1; 2]%Z (ii - 1) (jj - 1) w gi gj drdx)
      as [drdx1|]; [|discriminate].
    cbn [bind] in H. apply (IH _ _ _ _ _ H).
Qed.

Lemma Coord_of_CoordAndGradients (geom : coordinates)
    (self : NmroptRestraint) (crds : list Q) (r : Q) (drdx : list Q) :
  coordinates_ok geom ->
  CoordAndGradients geom self crds = Ok (r, drdx) ->
  Coord geom self crds = Ok r.
Proof.
  intros Hok H. unfold CoordAndGradients in H. unfold Coord.
  destruct (class_of self).
  - destruct (getitem (iat self) 0) as [ii|]; [|discriminate].
    destruct (getitem (iat self) 1) as [jj|]; [|discriminate].
    cbn [bind] in H |- *.
    rewrite <- (Bond_value geom Hok).
    destruct (BondAndGradients geom crds (ii - 1) (jj - 1))
      as [[x gi] gj].
    injection H as <- _. reflexivity.
  - destruct (getitem (iat self) 0) as [ii|]; [|discriminate].
    destruct (getitem (iat self) 1) as [jj|]; [|discriminate].
    destruct (getitem (iat self) 2) as [kk|]; [|discriminate].
    cbn [bind] in H |- *.
    rewrite <- (Angle_value geom Hok).
    destruct (AngleAndGradients geom crds (ii - 1) (jj - 1) (kk - 1))
      as [[[x gi] gj] gk].
    injection H as <- _. reflexivity.
  - destruct (getitem (iat self) 0) as [ii|]; [|discriminate].
    destruct (getitem (iat self) 1) as [jj|]; [|discriminate].
    destruct (getitem (iat self) 2) as [kk|]; [|discriminate].
    destruct (getitem (iat self) 3) as [ll|]; [|discriminate].
    cbn [bind] in H |- *.
    rewrite <- (Dihedral_value geom Hok).
    destruct (DihedralAndGradients geom crds (ii - 1) (jj - 1) (kk - 1)
                (ll - 1)) as [[[[x gi] gj] gk] gl].
    injection H as <- _. reflexivity.
  - apply (gdc_loops_agree _ _ _ _ _ _ _ _ _ H).
Qed.

(** X11.  For every class, the value that [CoordAndGradients] returns
    with the gradient is the value of [Coord], and the energy computed
    from Cartesian coordinates is the energy computed from that value
    passed as a number. *)
Theorem coord_value_is_shared (geom : coordinates) (self : NmroptRestraint)
    (crds : list Q) (r : Q) (drdx : list Q) :
  coordinates_ok geom ->
  CoordAndGradients geom self crds = Ok (r, drdx) ->
  Coord geom self crds = Ok r
  /\ Energy geom self (PyList crds) = Energy geom self (PyFloat r)
  /\ exists E,
       EnergyAndGradients geom self (PyList crds)
       = Ok (E, map (fun d => fst (well self r) * d) drdx)
       /\ EnergyAndGradients geom self (PyFloat r)
          = Ok (E, [fst (well self r) * 0]).
Proof.
  intros Hok H.
  split; [apply (Coord_of_CoordAndGradients geom self crds r drdx Hok H)|].
  destruct (Energy_of_crds geom self crds r drdx H) as [H1 H2].
  destruct (Energy_of_value geom self r) as [H3 H4].
  split; [rewrite H2, H4; reflexivity|].
  exists (snd (well self r)). split; assumption.
Qed.

Lemma coord_value_is_shared_witness :
  exists r drdx,
    CoordAndGradients (constant_geometry 1.5) harmonic_bond two_atoms
    = Ok (r, drdx)
    /\ Coord (constant_geometry 1.5) harmonic_bond two_atoms = Ok r
    /\ Energy (constant_geometry 1.5) harmonic_bond (PyList two_atoms)
       = Energy (constant_geometry 1.5) harmonic_bond (PyFloat r).
Proof.
  destruct (CoordAndGradients (constant_geometry 1.5) harmonic_bond
              two_atoms) as [[r drdx]|] eqn:H;
    [|vm_compute in H; discriminate H].
  exists r, drdx. split; [reflexivity|].
  destruct (coord_value_is_shared (constant_geometry 1.5) harmonic_bond
              two_atoms r drdx (constant_geometry_ok 1.5) H)
    as (H1 & H2 & _).
  split; assumption.
Defined.

(** Assigning three values to the slice of an atom inside the list. *)
Lemma slice_assign_atom (l v : list Q) (i : Z) :
  (0 <= i)%Z -> (3 * (i + 1) <= Z.of_nat (length l))%Z ->
  length v = 3%nat ->
  length (slice_assign l (3 * i) (3 * (i + 1)) v) = length l
  /\ forall p : nat,
       nth p (slice_assign l (3 * i) (3 * (i + 1)) v) 0
       = if coordinate_of_atom p (i + 1)
         then nth (p - Z.to_nat (3 * i)) v 0
         else nth p l 0.
Proof.
  intros Hi Hn Hv. unfold slice_assign, slice_bound.
  assert (E1 : (3 * i <? 0)%Z = false) by (apply Z.ltb_ge; lia).
  assert (E2 : (3 * (i + 1) <? 0)%Z = false) by (apply Z.ltb_ge; lia).
  rewrite E1, E2.
  rewrite (Z.min_l (3 * i)) by lia.
  rewrite (Z.min_l (3 * (i + 1))) by lia.
  rewrite Z.max_r by lia.
  set (a := Z.to_nat (3 * i)).
  assert (Hb : Z.to_nat (3 * (i + 1)) = (a + 3)%nat) by (subst a; lia).
  rewrite Hb.
  assert (Ha : (a + 3 <= length l)%nat) by (subst a; lia).
  split.
  - rewrite !length_app, length_firstn, length_skipn, Hv. lia.
  - intro p. unfold coordinate_of_atom.
    replace (i + 1 - 1)%Z with i by lia.
    destruct (3 * i <=? Z.of_nat p)%Z eqn:Ep; cbn [andb].
    + apply Z.leb_le in Ep.
      assert (Hap : (a <= p)%nat) by (subst a; lia).
      rewrite app_nth2 by (rewrite length_firstn; lia).
      rewrite length_firstn, Nat.min_l by lia.
      destruct (Z.of_nat p <? 3 * (i + 1))%Z eqn:Eq.
      * apply Z.ltb_lt in Eq. rewrite app_nth1 by (subst a; lia).
        reflexivity.
      * apply Z.ltb_ge in Eq. rewrite app_nth2 by (subst a; lia).
        rewrite Hv, nth_skipn. f_equal. subst a. lia.
    + apply Z.leb_gt in Ep.
      assert (Hap : (p < a)%nat) by (subst a; lia).
      rewrite app_nth1 by (rewrite length_firstn; lia).
      rewrite nth_firstn.
      assert (El : (p <? a)%nat = true) by (apply Nat.ltb_lt; exact Hap).
      rewrite El. reflexivity.
Qed.

Lemma nth_zeros (p n : nat) : nth p (zeros n) 0 = 0.
Proof. apply nth_repeat. Qed.

(** X12.  For a bond restraint on atoms [ii] and [jj] that lie within the
    coordinate list, [CoordAndGradients] returns the provider's value and
    a gradient as long as the coordinate list: the three entries of atom
    [jj] hold the provider's gradient for the second atom, those of atom
    [ii] the gradient for the first (unless both are the same atom, when
    the second assignment overwrites the first), and every other entry
    is zero. *)
Theorem bond_gradient_layout (geom : coordinates) (self : NmroptRestraint)
    (crds : list Q) (ii jj : Z) (r : Q) (gi gj : list Q) :
  class_of self = BondRestraint ->
  iat self = [ii; jj] ->
  (1 <= ii)%Z -> (3 * ii <= Z.of_nat (length crds))%Z ->
  (1 <= jj)%Z -> (3 * jj <= Z.of_nat (length crds))%Z ->
  BondAndGradients geom crds (ii - 1) (jj - 1) = (r, gi, gj) ->
  length gi = 3%nat -> length gj = 3%nat ->
  exists drdx,
    CoordAndGradients geom self crds = Ok (r, drdx)
    /\ length drdx = length crds
    /\ forall p : nat,
         nth p drdx 0
         = if coordinate_of_atom p jj
           then nth (p - Z.to_nat (3 * (jj - 1))) gj 0
           else if coordinate_of_atom p ii
                then nth (p - Z.to_nat (3 * (ii - 1))) gi 0
                else 0.
Proof.
  intros Hc Hi Hi1 Hi2 Hj1 Hj2 Hg Hgi Hgj.
  unfold CoordAndGradients. rewrite Hc, Hi.
  assert (E0 : getitem [ii; jj] 0 = Ok ii) by reflexivity.
  assert (E1 : getitem [ii; jj] 1 = Ok jj) by reflexivity.
  rewrite E0, E1. cbn [bind]. rewrite Hg.
  assert (Hz : length (zeros (length crds)) = length crds)
    by apply repeat_length.
  destruct (slice_assign_atom (zeros (length crds)) gi (ii - 1))
    as [L1 N1]; [lia | rewrite Hz; lia | exact Hgi |].
  set (d1 := slice_assign (zeros (length crds)) (3 * (ii - 1))
                          (3 * (ii - 1 + 1)) gi) in *.
  destruct (slice_assign_atom d1 gj (jj - 1))
    as [L2 N2]; [lia | rewrite L1, Hz; lia | exact Hgj |].
  eexists. split; [reflexivity|]. split; [rewrite L2, L1; exact Hz|].
  intro p. rewrite N2, N1, nth_zeros.
  replace (jj - 1 + 1)%Z with jj by lia.
  replace (ii - 1 + 1)%Z with ii by lia. reflexivity.
Qed.

Lemma bond_gradient_layout_witness :
  exists drdx,
    CoordAndGradients (constant_geometry 1.5) harmonic_bond two_atoms
    = Ok (1.5, drdx)
    /\ length drdx = length two_atoms
    /\ forall p : nat,
         nth p drdx 0
         = if coordinate_of_atom p 2
           then nth (p - Z.to_nat (3 * (2 - 1))) [0; 0; 0] 0
           else if coordinate_of_atom p 1
                then nth (p - Z.to_nat (3 * (1 - 1))) [0; 0; 0] 0
                else 0.
Proof.
  apply (bond_gradient_layout (constant_geometry 1.5) harmonic_bond
           two_atoms 1 2 1.5 [0; 0; 0] [0; 0; 0]);
    try reflexivity; vm_compute; discriminate.
Defined.

Lemma Forall_atoms_2 (P : Z -> Prop) (l : list Z) :
  length l = 2%nat -> Forall P l ->
  exists a b, l = [a; b] /\ P a /\ P b.
Proof.
  destruct l as [|a [|b [|c l]]]; try discriminate. intros _ H.
  inversion H as [|? ? Ha H1]; subst. inversion H1 as [|? ? Hb H2]; subst.
  exists a, b. auto.
Qed.

Lemma Forall_atoms_3 (P : Z -> Prop) (l : list Z) :
  length l = 3%nat -> Forall P l ->
  exists a b c, l = [a; b; c] /\ P a /\ P b /\ P c.
Proof.
  destruct l as [|a [|b [|c [|d l]]]]; try discriminate. intros _ H.
  inversion H as [|? ? Ha H1]; subst. inversion H1 as [|? ? Hb H2]; subst.
  inversion H2 as [|? ? Hc0 H3]; subst.
  exists a, b, c. auto.
Qed.

Lemma Forall_atoms_4 (P : Z -> Prop) (l : list Z) :
  length l = 4%nat -> Forall P l ->
  exists a b c d, l = [a; b; c; d] /\ P a /\ P b /\ P c /\ P d.
Proof.
  destruct l as [|a [|b [|c [|d [|e l]]]]]; try discriminate. intros _ H.
  inversion H as [|? ? Ha H1]; subst. inversion H1 as [|? ? Hb H2]; subst.
  inversion H2 as [|? ? Hc0 H3]; subst. inversion H3 as [|? ? Hd H4]; subst.
  exists a, b, c, d. auto.
Qed.

(** Gradients of bonds, angles and torsions touch their own atoms only. *)
Lemma CoordAndGradients_local (geom : coordinates) (self : NmroptRestraint)
    (crds : list Q) :
  three_components geom ->
  constructed self ->
  class_of self <> GenDistCoordRestraint ->
  Forall (fun a => 1 <= a /\ 3 * a <= Z.of_nat (length crds))%Z (iat self) ->
  exists r drdx,
    CoordAndGradients geom self crds = Ok (r, drdx)
    /\ length drdx = length crds
    /\ forall p : nat,
         existsb (coordinate_of_atom p) (iat self) = false ->
         nth p drdx 0 = 0.
Proof.
  intros H3 [_ Hcon] Hgdc Hat. unfold CoordAndGradients.
  assert (Hz : length (zeros (length crds)) = length crds)
    by apply repeat_length.
  destruct (class_of self); [| | |contradiction].
  - destruct Hcon as [Hlen _].
    destruct (Forall_atoms_2 _ _ Hlen Hat)
      as (ii & jj & -> & [Hi1 Hi2] & [Hj1 Hj2]).
    assert (E0 : getitem [ii; jj] 0 = Ok ii) by reflexivity.
    assert (E1 : getitem [ii; jj] 1 = Ok jj) by reflexivity.
    rewrite E0, E1. cbn [bind].
    destruct (Bond_gradients geom H3 crds (ii - 1) (jj - 1)) as [Gi Gj].
    destruct (BondAndGradients geom crds (ii - 1) (jj - 1)) as [[r gi] gj].
    cbn [fst snd] in Gi, Gj.
    destruct (slice_assign_atom (zeros (length crds)) gi (ii - 1))
      as [L1 N1]; [lia | rewrite Hz; lia | exact Gi |].
    set (d1 := slice_assign (zeros (length crds)) (3 * (ii - 1))
                            (3 * (ii - 1 + 1)) gi) in *.
    destruct (slice_assign_atom d1 gj (jj - 1))
      as [L2 N2]; [lia | rewrite L1, Hz; lia | exact Gj |].
    eexists; eexists. split; [reflexivity|].
    split; [rewrite L2, L1; exact Hz|].
    intros p Hp. cbn [existsb] in Hp.
    apply orb_false_iff in Hp. destruct Hp as [Pi Hp].
    apply orb_false_iff in Hp. destruct Hp as [Pj _].
    rewrite N2, N1, nth_zeros.
    replace (jj - 1 + 1)%Z with jj by lia.
    replace (ii - 1 + 1)%Z with ii by lia.
    rewrite Pi, Pj. reflexivity.
  - destruct Hcon as [Hlen _].
    destruct (Forall_atoms_3 _ _ Hlen Hat)
      as (ii & jj & kk & -> & [Hi1 Hi2] & [Hj1 Hj2] & [Hk1 Hk2]).
    assert (E0 : getitem [ii; jj; kk] 0 = Ok ii) by reflexivity.
    assert (E1 : getitem [ii; jj; kk] 1 = Ok jj) by reflexivity.
    assert (E2 : getitem [ii; jj; kk] 2 = Ok kk) by reflexivity.
    rewrite E0, E1, E2. cbn [bind].
    destruct (Angle_gradients geom H3 crds (ii - 1) (jj - 1) (kk - 1))
      as (Gi & Gj & Gk).
    destruct (AngleAndGradients geom crds (ii - 1) (jj - 1) (kk - 1))
      as [[[r gi] gj] gk].
    cbn [fst snd] in Gi, Gj, Gk.
    destruct (slice_assign_atom (zeros (length crds)) gi (ii - 1))
      as [L1 N1]; [lia | rewrite Hz; lia | exact Gi |].
    set (d1 := slice_assign (zeros (length crds)) (3 * (ii - 1))
                            (3 * (ii - 1 + 1)) gi) in *.
    destruct (slice_assign_atom d1 gj (jj - 1))
      as [L2 N2]; [lia | rewrite L1, Hz; lia | exact Gj |].
    set (d2 := slice_assign d1 (3 * (jj - 1)) (3 * (jj - 1 + 1)) gj) in *.
    destruct (slice_assign_atom d2 gk (kk - 1))
      as [L3 N3]; [lia | rewrite L2, L1, Hz; lia | exact Gk |].
    eexists; eexists. split; [reflexivity|].
    split; [rewrite L3, L2, L1; exact Hz|].
    intros p Hp. cbn [existsb] in Hp.
    apply orb_false_iff in Hp. destruct Hp as [Pi Hp].
    apply orb_false_iff in Hp. destruct Hp as [Pj Hp].
    apply orb_false_iff in Hp. destruct Hp as [Pk _].
    rewrite N3, N2, N1, nth_zeros.
    replace (kk - 1 + 1)%Z with kk by lia.
    replace (jj - 1 + 1)%Z with jj by lia.
    replace (ii - 1 + 1)%Z with ii by lia.
    rewrite Pi, Pj, Pk. reflexivity.
  - destruct Hcon as [Hlen _].
    destruct (Forall_atoms_4 _ _ Hlen Hat)
      as (ii & jj & kk & ll & -> & [Hi1 Hi2] & [Hj1 Hj2] & [Hk1 Hk2]
          & [Hl1 Hl2]).
    assert (E0 : getitem [ii; jj; kk; ll] 0 = Ok ii) by reflexivity.
    assert (E1 : getitem [ii; jj; kk; ll] 1 = Ok jj) by reflexivity.
    assert (E2 : getitem [ii; jj; kk; ll] 2 = Ok kk) by reflexivity.
    assert (E3 : getitem [ii; jj; kk; ll] 3 = Ok ll) by reflexivity.
    rewrite E0, E1, E2, E3. cbn [bind].
    destruct (Dihedral_gradients geom H3 crds (ii - 1) (jj - 1) (kk - 1)
                (ll - 1)) as (Gi & Gj & Gk & Gl).
    destruct (DihedralAndGradients geom crds (ii - 1) (jj - 1) (kk - 1)
                (ll - 1)) as [[[[r gi] gj] gk] gl].
    cbn [fst snd] in Gi, Gj, Gk, Gl.
    destruct (slice_assign_atom (zeros (length crds)) gi (ii - 1))
      as [L1 N1]; [lia | rewrite Hz; lia | exact Gi |].
    set (d1 := slice_assign (zeros (length crds)) (3 * (ii - 1))
                            (3 * (ii - 1 + 1)) gi) in *.
    destruct (slice_assign_atom d1 gj (jj - 1))
      as [L2 N2]; [lia | rewrite L1, Hz; lia | exact Gj |].
    set (d2 := slice_assign d1 (3 * (jj - 1)) (3 * (jj - 1 + 1)) gj) in *.
    destruct (slice_assign_atom d2 gk (kk - 1))
      as [L3 N3]; [lia | rewrite L2, L1, Hz; lia | exact Gk |].
    set (d3 := slice_assign d2 (3 * (kk - 1)) (3 * (kk - 1 + 1)) gk) in *.
    destruct (slice_assign_atom d3 gl (ll - 1))
      as [L4 N4]; [lia | rewrite L3, L2, L1, Hz; lia | exact Gl |].
    eexists; eexists. split; [reflexivity|].
    split; [rewrite L4, L3, L2, L1; exact Hz|].
    intros p Hp. cbn [existsb] in Hp.
    apply orb_false_iff in Hp. destruct Hp as [Pi Hp].
    apply orb_false_iff in Hp. destruct Hp as [Pj Hp].
    apply orb_false_iff in Hp. destruct Hp as [Pk Hp].
    apply orb_false_iff in Hp. destruct Hp as [Pl _].
    rewrite N4, N3, N2, N1, nth_zeros.
    replace (ll - 1 + 1)%Z with ll by lia.
    replace (kk - 1 + 1)%Z with kk by lia.
    replace (jj - 1 + 1)%Z with jj by lia.
    replace (ii - 1 + 1)%Z with ii by lia.
    rewrite Pi, Pj, Pk, Pl. reflexivity.
Qed.

Lemma three_components_constant (v : Q) :
  three_components (constant_geometry v).
Proof. split; intros; cbn; repeat split. Qed.

Lemma harmonic_bond_constructed : constructed harmonic_bond.
Proof.
  apply (BondRestraint_init_constructed [1; 2]%Z
           [("r0", 1.0); ("k0", 10)]%string).
  apply harmonic_bond_built.
Qed.

Lemma nth_map_scaled (c : Q) (l : list Q) (p : nat) :
  nth p (map (fun d => c * d) l) 0 == c * nth p l 0.
Proof.
  destruct (Nat.lt_ge_cases p (length l)) as [H | H].
  - rewrite (nth_indep _ 0 (c * 0)) by (rewrite length_map; exact H).
    rewrite (map_nth (fun d => c * d)). reflexivity.
  - rewrite !nth_overflow by (rewrite ?length_map; exact H). ring.
Qed.

(** X13.  Whenever [EnergyAndGradients] returns for a bond, an angle or
    a torsion whose atoms lie within the coordinate list, the gradient has
    one entry per coordinate, and the entries of all other atoms are zero:
    the restraint acts on its own atoms only.  For a bond and for an
    angle, whose code has no loop, it does return. *)
Theorem restraint_gradient_is_local (geom : coordinates)
    (self : NmroptRestraint) (crds : list Q) :
  three_components geom ->
  constructed self ->
  class_of self <> GenDistCoordRestraint ->
  Forall (fun a => 1 <= a /\ 3 * a <= Z.of_nat (length crds))%Z (iat self) ->
  (forall E g,
      EnergyAndGradients geom self (PyList crds) = Ok (E, g) ->
      length g = length crds
      /\ forall p : nat,
           existsb (coordinate_of_atom p) (iat self) = false ->
           nth p g 0 == 0)
  /\ (class_of self <> TorsionRestraint ->
      exists E g, EnergyAndGradients geom self (PyList crds) = Ok (E, g)).
Proof.
  intros H3 Hcon Hgdc Hat.
  destruct (CoordAndGradients_local geom self crds H3 Hcon Hgdc Hat)
    as (r & drdx & Hcg & Hlen & Hloc).
  destruct (Energy_of_crds geom self crds r drdx Hcg) as [He _].
  split.
  - intros E g HE. rewrite He in HE. injection HE as <- <-.
    split; [rewrite length_map; exact Hlen|].
    intros p Hp. rewrite nth_map_scaled, (Hloc p Hp). ring.
  - intros _. eexists; eexists. exact He.
Qed.

Lemma restraint_gradient_is_local_witness :
  exists E g,
    EnergyAndGradients (constant_geometry 1.5) harmonic_bond
      (PyList (two_atoms ++ [1; 1; 1])) = Ok (E, g)
    /\ length g = 9%nat
    /\ forall p : nat,
         existsb (coordinate_of_atom p) [1; 2]%Z = false ->
         nth p g 0 == 0.
Proof.
  destruct (restraint_gradient_is_local (constant_geometry 1.5) harmonic_bond
              (two_atoms ++ [1; 1; 1])) as [Hlocal Hreturns].
  - apply three_components_constant.
  - apply harmonic_bond_constructed.
  - discriminate.
  - repeat constructor; vm_compute; discriminate.
  - destruct Hreturns as (E & g & HE); [discriminate|].
    exists E, g. split; [exact HE|]. exact (Hlocal E g HE).
Defined.

Lemma getitem_beyond (A : Type) (l : list A) :
  getitem l (Z.of_nat (length l)) = Raise IndexError.
Proof.
  unfold getitem, norm_index.
  assert (H : (Z.of_nat (length l) <? 0)%Z = false)
    by (apply Z.ltb_ge; lia).
  rewrite H.
  assert (H2 : (Z.of_nat (length l) <? Z.of_nat (length l))%Z = false)
    by (apply Z.ltb_ge; lia).
  rewrite H2, andb_false_r. reflexivity.
Qed.

Lemma gdc_coord_loop_sum (geom : coordinates) (Hok : coordinates_ok geom)
    (self : NmroptRestraint) (crds : list Q) (ws : list Q) :
  forall (pre rest : list Z) (k : Z) (r : Q),
    iat self = pre ++ rest ->
    Z.of_nat (length pre) = (2 * k)%Z ->
    gdc_coord_loop geom self crds k ws r
    = if (2 * length ws <=? length rest)%nat
      then Ok (weighted_distances geom crds ws (atom_pairs rest) r)
      else Raise IndexError.
Proof.
  induction ws as [|w ws IH]; intros pre rest k r Hi Hk.
  - reflexivity.
  - cbn [gdc_coord_loop]. rewrite Hi.
    replace (2 * k + 0)%Z with (Z.of_nat (length pre)) by lia.
    destruct rest as [|a rest].
    { rewrite app_nil_r, getitem_beyond. reflexivity. }
    rewrite getitem_app. cbn [bind].
    replace (2 * k + 1)%Z with (Z.of_nat (length (pre ++ [a])))
      by (rewrite length_app; cbn [length]; lia).
    replace (pre ++ a :: rest) with ((pre ++ [a]) ++ rest)
      by (rewrite <- app_assoc; reflexivity).
    destruct rest as [|b rest].
    { rewrite app_nil_r, getitem_beyond. cbn [bind length].
      replace (2 * S (length ws) <=? 1)%nat with false; [reflexivity|].
      symmetry. apply Nat.leb_gt. lia. }
    rewrite getitem_app. cbn [bind].
    pose proof (Bond_value geom Hok crds (a - 1) (b - 1)) as Hv.
    destruct (BondAndGradients geom crds (a - 1) (b - 1)) as [[x gi] gj].
    cbn [fst] in Hv. subst x.
    rewrite (IH (pre ++ [a; b]) rest (k + 1)%Z).
    + cbn [length atom_pairs].
      replace (2 * S (length ws) <=? S (S (length rest)))%nat
        with (2 * length ws <=? length rest)%nat.
      * destruct (2 * length ws <=? length rest)%nat; reflexivity.
      * destruct (2 * length ws <=? length rest)%nat eqn:E.
        -- apply Nat.leb_le in E. symmetry. apply Nat.leb_le. lia.
        -- apply Nat.leb_gt in E. symmetry. apply Nat.leb_gt. lia.
    + rewrite Hi, <- app_assoc. reflexivity.
    + rewrite length_app. cbn [length]. lia.
Qed.

(** X14.  The coordinate of a generalized distance restraint is the sum of
    the distances of its atom pairs (atoms 1 and 2, atoms 3 and 4, ...),
    each multiplied by its weight.  Atoms beyond the pairs that have
    a weight are ignored; a weight without a pair of atoms ends the call
    with [IndexError]. *)
Theorem generalized_distance_is_weighted_sum (geom : coordinates)
    (self : NmroptRestraint) (crds : list Q) :
  coordinates_ok geom ->
  class_of self = GenDistCoordRestraint ->
  Coord geom self crds
  = if (2 * length (rstwt self) <=? length (iat self))%nat
    then Ok (weighted_distances geom crds (rstwt self)
               (atom_pairs (iat self)) 0)
    else Raise IndexError.
Proof.
  intros Hok Hc. unfold Coord. rewrite Hc.
  apply (gdc_coord_loop_sum geom Hok self crds (rstwt self) [] (iat self));
    reflexivity.
Qed.

Lemma generalized_distance_is_weighted_sum_witness :
  let self := mkRestraint GenDistCoordRestraint [1; 2; 3; 4]%Z
                          (-5) 0 0 5 3 3 [1; -1] in
  Coord (constant_geometry 1.5) self two_atoms
  = Ok (0 + 1 * 1.5 + -1 * 1.5).
Proof.
  apply (generalized_distance_is_weighted_sum (constant_geometry 1.5)
           (mkRestraint GenDistCoordRestraint [1; 2; 3; 4]%Z
                        (-5) 0 0 5 3 3 [1; -1]) two_atoms).
  - apply constant_geometry_ok.
  - reflexivity.
Defined.

(** ** What the reader returns *)

Lemma read_namelists_filter (namelists : list namelist)
    (acc : AmberRestraint) :
  read_namelists namelists acc = read_namelists (filter is_rst namelists) acc.
Proof.
  revert acc. induction namelists as [|nl rest IH]; intro acc;
    [reflexivity|].
  cbn [filter]. unfold is_rst at 1.
  destruct (String.eqb (name nl) "rst") eqn:E.
  - cbn [read_namelists]. rewrite E.
    destruct (iat_value nl) as [[|a l]|]; try reflexivity.
    match goal with
    | |- bind ?c _ = bind ?c _ => destruct c; [|reflexivity]
    end.
    cbn [bind]. apply IH.
  - cbn [read_namelists]. rewrite E. apply IH.
Qed.

Lemma legacy_read_namelists_filter (namelists : list namelist)
    (key_bound : bool) (acc : AmberRestraint.AmberRestraint) :
  AmberRestraint.read_namelists namelists key_bound acc
  = AmberRestraint.read_namelists (filter is_rst namelists) key_bound acc.
Proof.
  revert key_bound acc.
  induction namelists as [|nl rest IH]; intros key_bound acc;
    [reflexivity|].
  cbn [filter]. unfold is_rst at 1.
  destruct (String.eqb (name nl) "rst") eqn:E.
  - cbn [AmberRestraint.read_namelists]. rewrite E.
    destruct (iat_value nl) as [l|]; try reflexivity.
    match goal with
    | |- bind ?c _ = bind ?c _ => destruct c; [|reflexivity]
    end.
    cbn [bind]. apply IH.
  - cbn [AmberRestraint.read_namelists]. rewrite E. apply IH.
Qed.

(** X15.  Both readers look at the groups named [rst] only: whatever
    other groups a file holds, before, between or after them, the result
    (collection, printed lines, or exception) is that of the file with
    these groups removed. *)
Theorem read_ignores_other_groups (ReadNamelists : string -> list namelist)
    (rstFilename : string) :
  rstr.ReadAmberRestraintFile ReadNamelists rstFilename
  = rstr.ReadAmberRestraintFile
      (fun f => filter is_rst (ReadNamelists f)) rstFilename
  /\ AmberRestraint.ReadAmberRestraintFile ReadNamelists rstFilename
     = AmberRestraint.ReadAmberRestraintFile
         (fun f => filter is_rst (ReadNamelists f)) rstFilename.
Proof.
  unfold rstr.ReadAmberRestraintFile, AmberRestraint.ReadAmberRestraintFile.
  rewrite read_namelists_filter, legacy_read_namelists_filter.
  split; reflexivity.
Qed.

Lemma NmroptRestraint_init_set_rstwt (c : rstr_class) (atoms : list Z)
    (p : dict Q) (s : NmroptRestraint) :
  NmroptRestraint_init c atoms p = Ok s ->
  NmroptRestraint_init (class_of s) (iat s) p = Ok (set_rstwt s []).
Proof.
  intro H. destruct (NmroptRestraint_init_iat c atoms p s H)
    as (Hc & Hi & Hw).
  rewrite Hc, Hi, H. f_equal. destruct s. cbn in Hw. subst.
  reflexivity.
Qed.

Lemma init_decodes (nl : namelist) (a0 : Z) (atoms : list Z)
    (rst : NmroptRestraint) :
  iat_value nl = Some (a0 :: atoms) ->
  match rstwt_value nl with
  | Some rstwt =>
      GenDistCoordRestraint_init (a0 :: atoms) rstwt (float_values nl)
  | None =>
      if (length (a0 :: atoms) =? 2)%nat
      then BondRestraint_init (a0 :: atoms) (float_values nl)
      else if (length (a0 :: atoms) =? 3)%nat
      then AngleRestraint_init (a0 :: atoms) (float_values nl)
      else if (length (a0 :: atoms) =? 4)%nat
      then TorsionRestraint_init (a0 :: atoms) (float_values nl)
      else Raise Exception
  end = Ok rst ->
  decodes_to nl rst.
Proof.
  intros Hi H. unfold decodes_to.
  destruct (rstwt_value nl) as [w|].
  - pose proof (GenDistCoordRestraint_init_constructed _ _ _ _ H) as Hcon.
    unfold GenDistCoordRestraint_init in H.
    destruct (length (a0 :: atoms) mod 2 =? 0)%nat; [|discriminate].
    destruct (NmroptRestraint_init GenDistCoordRestraint (a0 :: atoms)
                (float_values nl)) as [s0|] eqn:E0; [|discriminate].
    cbn [bind] in H. destruct w as [|w0 w]; [discriminate|].
    cbn [floats_of_fields bind] in H.
    destruct (negb (length (rstwt (set_rstwt s0 (w0 :: w)))
                    =? length (a0 :: atoms) / 2)%nat); [discriminate|].
    injection H as <-.
    pose proof (NmroptRestraint_init_iat _ _ _ _ E0) as (Hc & Hat & Hw).
    cbn [iat class_of rstwt set_rstwt]. rewrite Hat, Hc.
    split; [exact Hi|]. split; [split; reflexivity|].
    split; [|exact Hcon].
    rewrite E0. f_equal. destruct s0. cbn in Hw. subst. reflexivity.
  - destruct (length (a0 :: atoms) =? 2)%nat eqn:E2.
    { pose proof (BondRestraint_init_constructed _ _ _ H) as Hcon.
      unfold BondRestraint_init in H. rewrite E2 in H.
      pose proof (NmroptRestraint_init_iat _ _ _ _ H) as (Hc & Hat & Hw).
      apply Nat.eqb_eq in E2. rewrite Hat, Hc, E2.
      split; [exact Hi|]. split; [reflexivity|]. split; [|exact Hcon].
      rewrite <- Hc, <- Hat.
      apply (NmroptRestraint_init_set_rstwt _ _ _ _ H). }
    destruct (length (a0 :: atoms) =? 3)%nat eqn:E3.
    { pose proof (AngleRestraint_init_constructed _ _ _ H) as Hcon.
      unfold AngleRestraint_init in H. rewrite E3 in H.
      pose proof (NmroptRestraint_init_iat _ _ _ _ H) as (Hc & Hat & Hw).
      apply Nat.eqb_eq in E3. rewrite Hat, Hc, E3.
      split; [exact Hi|]. split; [reflexivity|]. split; [|exact Hcon].
      rewrite <- Hc, <- Hat.
      apply (NmroptRestraint_init_set_rstwt _ _ _ _ H). }
    destruct (length (a0 :: atoms) =? 4)%nat eqn:E4; [|discriminate].
    pose proof (TorsionRestraint_init_constructed _ _ _ H) as Hcon.
    unfold TorsionRestraint_init in H. rewrite E4 in H.
    pose proof (NmroptRestraint_init_iat _ _ _ _ H) as (Hc & Hat & Hw).
    apply Nat.eqb_eq in E4. rewrite Hat, Hc, E4.
    split; [exact Hi|]. split; [reflexivity|]. split; [|exact Hcon].
    rewrite <- Hc, <- Hat.
    apply (NmroptRestraint_init_set_rstwt _ _ _ _ H).
Qed.

Lemma read_namelists_decodes (namelists : list namelist) :
  forall acc rs : AmberRestraint,
    read_namelists namelists acc = Ok rs ->
    exists rs',
      rs = acc ++ rs' /\ Forall2 decodes_to (filter is_rst namelists) rs'.
Proof.
  induction namelists as [|nl rest IH]; intros acc rs H.
  - injection H as <-. exists []. rewrite app_nil_r.
    split; [reflexivity | constructor].
  - cbn [read_namelists] in H. cbn [filter]. unfold is_rst at 1.
    destruct (String.eqb (name nl) "rst"); [|apply (IH _ _ H)].
    destruct (iat_value nl) as [[|a0 atoms]|] eqn:Hi; try discriminate.
    match type of H with
    | bind ?c _ = _ => destruct c as [rst|] eqn:Hrst; [|discriminate]
    end.
    cbn [bind] in H. apply IH in H. destruct H as (rs' & -> & HF).
    exists (rst :: rs'). rewrite <- app_assoc. split; [reflexivity|].
    constructor; [|exact HF].
    apply (init_decodes nl a0 atoms rst Hi Hrst).
Qed.

(** X16.  When [ReadAmberRestraintFile] of rstr.py returns, the collection
    holds one restraint for each group named [rst], in the order of the
    file: its atoms are those of [iat]; it is a generalized distance with
    the weights of [rstwt] when that key is present, otherwise a bond, an
    angle or a torsion for two, three or four atoms; its positions and
    force constants are those the constructor derives from the group's
    other keys; and it satisfies the constructors' invariant (ordered
    positions, atoms and weights in the numbers of its class).  The warning
    is printed exactly when the collection is empty. *)
Theorem read_file_decodes_each_group
    (ReadNamelists : string -> list namelist) (rstFilename : string)
    (amberRstr : AmberRestraint) (printed : list string) :
  rstr.ReadAmberRestraintFile ReadNamelists rstFilename
  = Ok (amberRstr, printed) ->
  Forall2 decodes_to (filter is_rst (ReadNamelists rstFilename)) amberRstr
  /\ (printed = [] <-> amberRstr <> []).
Proof.
  unfold rstr.ReadAmberRestraintFile. intro H.
  destruct (read_namelists (ReadNamelists rstFilename) []) as [rs|] eqn:E;
    [|discriminate].
  cbn [bind] in H. injection H as <- <-.
  apply read_namelists_decodes in E. destruct E as (rs' & -> & HF).
  split; [exact HF|]. cbn [app].
  destruct rs'; cbn; split; try discriminate; intro; congruence.
Qed.

Lemma read_file_decodes_each_group_witness :
  exists amberRstr printed,
    rstr.ReadAmberRestraintFile sample_reader "in.RST"
    = Ok (amberRstr, printed)
    /\ Forall2 decodes_to (filter is_rst (sample_reader "in.RST")) amberRstr
    /\ (printed = [] <-> amberRstr <> []).
Proof.
  destruct (rstr.ReadAmberRestraintFile sample_reader "in.RST")
    as [[amberRstr printed]|] eqn:Hread; [|discriminate Hread].
  exists amberRstr, printed. split; [reflexivity|].
  apply (read_file_decodes_each_group sample_reader "in.RST" amberRstr
           printed Hread).
Defined.

(** ** The decomposition by kind *)

Lemma iadd_key_bucket (c : rstr_class) (e b a t g : Q) :
  iadd_key (component_type c) e (buckets b a t g)
  = Ok (buckets (if class_eqb c BondRestraint then b + e else b)
                (if class_eqb c AngleRestraint then a + e else a)
                (if class_eqb c TorsionRestraint then t + e else t)
                (if class_eqb c GenDistCoordRestraint then g + e else g)).
Proof. destruct c; reflexivity. Qed.

Lemma Decompose_loop_by_kind (geom : coordinates) (by_value : bool)
    (crds : list Q) (pairs : list (NmroptRestraint * Q)) (es : list Q) :
  Forall2 (fun rr e =>
             Energy geom (fst rr)
                    (if by_value then PyFloat (snd rr) else PyList crds)
             = Ok e) pairs es ->
  forall b a t g : Q,
    Decompose_loop geom by_value pairs crds (buckets b a t g)
    = Ok (buckets
            (kind_total BondRestraint (combine (map fst pairs) es) b)
            (kind_total AngleRestraint (combine (map fst pairs) es) a)
            (kind_total TorsionRestraint (combine (map fst pairs) es) t)
            (kind_total GenDistCoordRestraint (combine (map fst pairs) es)
                        g)).
Proof.
  induction 1 as [|[rst r] e pairs es He HF IH]; intros b a t g.
  - reflexivity.
  - cbn [Decompose_loop fst snd] in *. rewrite He. cbn [bind].
    rewrite iadd_key_bucket. cbn [bind]. rewrite IH. reflexivity.
Qed.

Lemma Energy_by_value_sum (geom : coordinates)
    (pairs : list (NmroptRestraint * Q)) (es : list Q) :
  Forall2 (fun rr e => Energy geom (fst rr) (PyFloat (snd rr)) = Ok e)
          pairs es ->
  forall e0, Energy_by_value geom pairs e0 = Ok (fold_left Qplus es e0).
Proof.
  induction 1 as [|[rst r] e pairs es He HF IH]; intro e0; [reflexivity|].
  cbn [Energy_by_value fst snd fold_left] in *. rewrite He. cbn [bind].
  apply IH.
Qed.

Lemma Energy_by_crds_sum (geom : coordinates) (crds : list Q)
    (rsts : list NmroptRestraint) (es : list Q) :
  Forall2 (fun rst e => Energy geom rst (PyList crds) = Ok e) rsts es ->
  forall e0, Energy_by_crds geom rsts crds e0 = Ok (fold_left Qplus es e0).
Proof.
  induction 1 as [|rst e rsts es He HF IH]; intro e0; [reflexivity|].
  cbn [Energy_by_crds fold_left]. rewrite He. cbn [bind]. apply IH.
Qed.

Lemma Forall2_combine_fst (A B C : Type) (P : A -> C -> Prop)
    (l1 : list A) (l2 : list B) (l3 : list C) :
  (length l1 <= length l2)%nat ->
  Forall2 (fun ab c => P (fst ab) c) (combine l1 l2) l3 ->
  Forall2 P l1 l3.
Proof.
  revert l2 l3. induction l1 as [|a l1 IH]; intros l2 l3 Hlen HF.
  - inversion HF. constructor.
  - destruct l2 as [|b l2]; [cbn in Hlen; lia|].
    cbn [combine] in HF. inversion HF; subst. constructor; [assumption|].
    apply (IH l2); [cbn in Hlen; lia | assumption].
Qed.

Lemma map_fst_combine_le (A B : Type) (l1 : list A) (l2 : list B) :
  (length l1 <= length l2)%nat -> map fst (combine l1 l2) = l1.
Proof.
  revert l2. induction l1 as [|a l1 IH]; intros [|b l2] Hlen;
    cbn in *; try reflexivity; try lia.
  rewrite IH by lia. reflexivity.
Qed.

(** X17.  [DecomposeEnergy] files the energy of each member it visits
    under the kind of that member: the entry of a kind is the sum of the
    energies of the visited members of that class, taken in order, and
    the entry [Restraint] is the sum of the four.  The members visited are
    those paired with an entry of [crds].  When [crds] has at least as many
    entries as the collection has members, all are visited and the entry
    [Restraint] equals the value of [Energy]. *)
Theorem decompose_energy_by_kind (geom : coordinates) (self : AmberRestraint)
    (crds : list Q) (es : list Q) :
  Forall2 (fun rr e =>
             Energy geom (fst rr)
                    (if (length crds =? length self)%nat
                     then PyFloat (snd rr) else PyList crds)
             = Ok e) (combine self crds) es ->
  let members := combine (map fst (combine self crds)) es in
  let eBond := kind_total BondRestraint members 0 in
  let eAngle := kind_total AngleRestraint members 0 in
  let eTorsion := kind_total TorsionRestraint members 0 in
  let eGen := kind_total GenDistCoordRestraint members 0 in
  exists d,
    DecomposeEnergy geom self crds = Ok d
    /\ get "Bond"%string d = Some eBond
    /\ get "Angle"%string d = Some eAngle
    /\ get "Torsion"%string d = Some eTorsion
    /\ get "Gen. Dist. Coord."%string d = Some eGen
    /\ get "Restraint"%string d = Some (0 + eBond + eAngle + eTorsion + eGen)
    /\ ((length self <= length crds)%nat ->
        exists E,
          AmberRestraint_Energy geom self crds = Ok E
          /\ E == 0 + eBond + eAngle + eTorsion + eGen).
Proof.
  intros HF members eBond eAngle eTorsion eGen.
  pose proof (Decompose_loop_by_kind geom _ crds _ _ HF 0 0 0 0) as HD.
  fold members in HD. fold eBond eAngle eTorsion eGen in HD.
  unfold DecomposeEnergy.
  change [("Bond", 0); ("Angle", 0); ("Torsion", 0);
          ("Gen. Dist. Coord.", 0)]%string with (buckets 0 0 0 0).
  rewrite HD. cbn [bind]. eexists. split; [reflexivity|].
  repeat (split; [reflexivity|]).
  intro Hlen.
  assert (HE : exists E, AmberRestraint_Energy geom self crds = Ok E).
  { unfold AmberRestraint_Energy.
    destruct (length crds =? length self)%nat.
    - eexists. apply (Energy_by_value_sum geom _ es). exact HF.
    - eexists. apply (Energy_by_crds_sum geom crds self es).
      apply (Forall2_combine_fst _ _ _
               (fun rst e => Energy geom rst (PyList crds) = Ok e)
               self crds es Hlen). exact HF. }
  destruct HE as [E HE]. exists E. split; [exact HE|].
  destruct (decompose_energy_sums_to_total geom self crds E Hlen HE)
    as (d & b & a & t & g & total & Hd & Hb & Ha & Ht & Hg & _ & Hsum & _).
  unfold DecomposeEnergy in Hd.
  change [("Bond", 0); ("Angle", 0); ("Torsion", 0);
          ("Gen. Dist. Coord.", 0)]%string with (buckets 0 0 0 0) in Hd.
  rewrite HD in Hd. cbn [bind] in Hd. injection Hd as <-.
  cbn in Hb, Ha, Ht, Hg.
  injection Hb as <-. injection Ha as <-. injection Ht as <-.
  injection Hg as <-. rewrite <- Hsum. ring.
Qed.

Lemma decompose_energy_by_kind_witness :
  let geom := constant_geometry 1.5 in
  let self := [harmonic_bond; harmonic_bond] in
  let e := snd (well harmonic_bond 1.5) in
  exists d,
    DecomposeEnergy geom self two_atoms = Ok d
    /\ get "Bond"%string d = Some (0 + e + e)
    /\ get "Angle"%string d = Some 0.
Proof.
  intros geom self e.
  destruct (decompose_energy_by_kind geom self two_atoms [e; e])
    as (d & Hd & Hb & Ha & _); [repeat constructor|].
  exists d. split; [exact Hd|]. split; [exact Hb | exact Ha].
Defined.

(** ** The order of the members *)

Lemma fold_left_Qplus_start (l : list Q) (e0 : Q) :
  fold_left Qplus l e0 == e0 + fold_left Qplus l 0.
Proof.
  revert e0. induction l as [|x l IH]; intro e0; cbn [fold_left].
  - ring.
  - rewrite (IH (e0 + x)), (IH (0 + x)). ring.
Qed.

Lemma fold_left_Qplus_perm (l l' : list Q) :
  Permutation l l' -> fold_left Qplus l 0 == fold_left Qplus l' 0.
Proof.
  induction 1 as [|x l l' HP IH|x y l|l l' l'' H1 IH1 H2 IH2];
    cbn [fold_left].
  - reflexivity.
  - rewrite (fold_left_Qplus_start l), (fold_left_Qplus_start l'), IH.
    reflexivity.
  - rewrite (fold_left_Qplus_start l (0 + y + x)),
      (fold_left_Qplus_start l (0 + x + y)). ring.
  - rewrite IH1. exact IH2.
Qed.

Lemma Energy_by_crds_energies (geom : coordinates) (crds : list Q)
    (rsts : list NmroptRestraint) :
  forall e0 E,
    Energy_by_crds geom rsts crds e0 = Ok E ->
    exists es,
      Forall2 (fun rst e => Energy geom rst (PyList crds) = Ok e) rsts es
      /\ E = fold_left Qplus es e0.
Proof.
  induction rsts as [|rst rsts IH]; intros e0 E H.
  - injection H as <-. exists []. split; [constructor | reflexivity].
  - cbn [Energy_by_crds] in H.
    destruct (Energy geom rst (PyList crds)) as [e|] eqn:He;
      [|discriminate].
    cbn [bind] in H. apply IH in H. destruct H as (es & HF & ->).
    exists (e :: es). split; [constructor; assumption | reflexivity].
Qed.

(** X18.  When the list passed is read as Cartesian coordinates (it is not
    as long as the collection), the value of [AmberRestraint.Energy] does
    not depend on the order of the members: a rearranged collection has
    the same energy. *)
Theorem collection_energy_order_independent (geom : coordinates)
    (self other : AmberRestraint) (crds : list Q) (E : Q) :
  Permutation self other ->
  length crds <> length self ->
  AmberRestraint_Energy geom self crds = Ok E ->
  exists E', AmberRestraint_Energy geom other crds = Ok E' /\ E' == E.
Proof.
  intros HP Hlen H. unfold AmberRestraint_Energy in *.
  assert (Hlen' : length crds <> length other)
    by (rewrite <- (Permutation_length HP); exact Hlen).
  apply Nat.eqb_neq in Hlen, Hlen'. rewrite Hlen in H. rewrite Hlen'.
  apply Energy_by_crds_energies in H. destruct H as (es & HF & ->).
  destruct (Permutation_Forall2 HP HF) as (es' & HPe & HF').
  exists (fold_left Qplus es' 0).
  split; [apply (Energy_by_crds_sum geom crds other es' HF')|].
  symmetry. apply fold_left_Qplus_perm. exact HPe.
Qed.

Lemma collection_energy_order_independent_witness :
  exists E E',
    AmberRestraint_Energy (constant_geometry 1.5)
      [harmonic_bond; sample_bond] two_atoms = Ok E
    /\ AmberRestraint_Energy (constant_geometry 1.5)
         [sample_bond; harmonic_bond] two_atoms = Ok E'
    /\ E' == E.
Proof.
  destruct (AmberRestraint_Energy (constant_geometry 1.5)
              [harmonic_bond; sample_bond] two_atoms) as [E|] eqn:H;
    [|vm_compute in H; discriminate H].
  destruct (collection_energy_order_independent (constant_geometry 1.5)
              [harmonic_bond; sample_bond] [sample_bond; harmonic_bond]
              two_atoms E) as (E' & H' & Heq).
  - apply perm_swap.
  - vm_compute. discriminate.
  - exact H.
  - exists E, E'. split; [reflexivity|]. split; assumption.
Defined.

(** ** Sign of the energy *)

Lemma well_nonnegative (self : NmroptRestraint) (r : Q) :
  ordered self -> 0 <= rk2 self -> 0 <= rk3 self ->
  0 <= snd (well self r).
Proof.
  intros Ho H2 H3. pose proof Ho as (O1 & O2 & O3).
  destruct (well_cases self r Ho)
    as [[C ->] | [(C1 & C2 & ->) | [(C1 & C2 & ->) | [(C1 & C2 & ->)
        | [C ->]]]]];
    unfold branch_below_r1, branch_r1_r2, branch_r2_r3, branch_r3_r4,
      branch_above_r4; cbn [snd].
  - setoid_replace (2 * rk2 self * (r1 self - r2 self) * (r - r1 self)
                    + rk2 self * (r1 self - r2 self) ^ 2)
      with (rk2 self * ((r2 self - r1 self)
                        * (2 * (r1 self - r) + (r2 self - r1 self))))
      by ring.
    apply Qmult_le_0_compat; [exact H2|].
    apply Qmult_le_0_compat; lra.
  - apply Qmult_le_0_compat; [exact H2|]. nra.
  - lra.
  - apply Qmult_le_0_compat; [exact H3|]. nra.
  - setoid_replace (2 * rk3 self * (r4 self - r3 self) * (r - r4 self)
                    + rk3 self * (r4 self - r3 self) ^ 2)
      with (rk3 self * ((r4 self - r3 self)
                        * (2 * (r - r4 self) + (r4 self - r3 self))))
      by ring.
    apply Qmult_le_0_compat; [exact H3|].
    apply Qmult_le_0_compat; lra.
Qed.

Lemma Qsquare_pos (x : Q) : ~ x == 0 -> 0 < x ^ 2.
Proof.
  intro H. destruct (Qlt_le_dec 0 x) as [Hp | Hn].
  - nra.
  - assert (x < 0) by (apply Qle_lteq in Hn; destruct Hn; [assumption|];
                       contradiction).
    nra.
Qed.

Lemma well_zero_in_window (self : NmroptRestraint) (r : Q) :
  r1 self < r2 self -> r2 self <= r3 self -> r3 self < r4 self ->
  0 < rk2 self -> 0 < rk3 self ->
  (snd (well self r) == 0 <-> r2 self <= r /\ r <= r3 self).
Proof.
  intros O1 O2 O3 H2 H3.
  assert (Ho : ordered self) by (unfold ordered; lra).
  destruct (well_cases self r Ho)
    as [[C ->] | [(C1 & C2 & ->) | [(C1 & C2 & ->) | [(C1 & C2 & ->)
        | [C ->]]]]];
    unfold branch_below_r1, branch_r1_r2, branch_r2_r3, branch_r3_r4,
      branch_above_r4; cbn [snd].
  - split; [|intros [? ?]; lra]. intro E. exfalso.
    assert (0 < rk2 self * ((r2 self - r1 self)
                             * (2 * (r1 self - r) + (r2 self - r1 self)))).
    { apply Qmult_lt_0_compat; [exact H2|].
      apply Qmult_lt_0_compat; lra. }
    setoid_replace (2 * rk2 self * (r1 self - r2 self) * (r - r1 self)
                    + rk2 self * (r1 self - r2 self) ^ 2)
      with (rk2 self * ((r2 self - r1 self)
                        * (2 * (r1 self - r) + (r2 self - r1 self))))
      in E by ring.
    lra.
  - split; [|intros [? ?]; lra]. intro E. exfalso.
    assert (0 < rk2 self * (r - r2 self) ^ 2).
    { apply Qmult_lt_0_compat; [exact H2|]. apply Qsquare_pos. lra. }
    lra.
  - split; [intros _; lra | reflexivity].
  - split.
    + intro E. split; [lra|].
      destruct (Qlt_le_dec (r3 self) r) as [L | L]; [|exact L].
      exfalso.
      assert (0 < rk3 self * (r - r3 self) ^ 2).
      { apply Qmult_lt_0_compat; [exact H3|]. apply Qsquare_pos. lra. }
      lra.
    + intros [_ L]. assert (E : r == r3 self) by lra. rewrite E. ring.
  - split; [|intros [? ?]; lra]. intro E. exfalso.
    assert (0 < rk3 self * ((r4 self - r3 self)
                             * (2 * (r - r4 self) + (r4 self - r3 self)))).
    { apply Qmult_lt_0_compat; [exact H3|].
      apply Qmult_lt_0_compat; lra. }
    setoid_replace (2 * rk3 self * (r4 self - r3 self) * (r - r4 self)
                    + rk3 self * (r4 self - r3 self) ^ 2)
      with (rk3 self * ((r4 self - r3 self)
                        * (2 * (r - r4 self) + (r4 self - r3 self))))
      in E by ring.
    lra.
Qed.

(** X19.  The energy of a restraint with ordered positions and force
    constants that are not negative is never negative.  When both force
    constants are positive and r1 < r2, r3 < r4, the energy is zero
    exactly for the coordinates from r2 to r3, both ends included. *)
Theorem energy_is_nonnegative (geom : coordinates) (self : NmroptRestraint)
    (r : Q) :
  ordered self -> 0 <= rk2 self -> 0 <= rk3 self ->
  exists E,
    Energy geom self (PyFloat r) = Ok E
    /\ 0 <= E
    /\ (0 < rk2 self -> 0 < rk3 self ->
        r1 self < r2 self -> r3 self < r4 self ->
        (E == 0 <-> r2 self <= r /\ r <= r3 self)).
Proof.
  intros Ho H2 H3. exists (snd (well self r)).
  split; [apply (Energy_of_value geom self r)|].
  split; [apply (well_nonnegative self r Ho H2 H3)|].
  intros K2 K3 O1 O3. destruct Ho as (_ & O2 & _).
  apply (well_zero_in_window self r O1 O2 O3 K2 K3).
Qed.

Lemma sample_bond_ordered : ordered sample_bond.
Proof. unfold ordered. repeat split; vm_compute; discriminate. Qed.

Lemma energy_is_nonnegative_witness :
  exists E,
    Energy (constant_geometry 0) sample_bond (PyFloat (7 # 2)) = Ok E
    /\ 0 <= E.
Proof.
  destruct (energy_is_nonnegative (constant_geometry 0) sample_bond (7 # 2))
    as (E & HE & Hpos & _).
  - apply sample_bond_ordered.
  - vm_compute. discriminate.
  - vm_compute. discriminate.
  - exists E. split; assumption.
Defined.

(** ** A pure harmonic well *)

Lemma SetRestraintParameters_r0_k0 (p : dict Q) (s : NmroptRestraint)
    (r0 k0 : Q) :
  get "r0"%string p = Some r0 -> get "k0"%string p = Some k0 ->
  SetRestraintParameters p s
  = SetRestraintParameters [("r0", r0); ("k0", k0)]%string s.
Proof.
  intros H0 Hk.
  assert (Hp : set_positions p s
               = set_positions [("r0", r0); ("k0", k0)]%string s).
  { rewrite !set_positions_fields. rewrite H0.
    change (get "r0"%string [("r0", r0); ("k0", k0)]%string) with (Some r0).
    reflexivity. }
  assert (Hf : forall x, set_force_constants p x
                         = set_force_constants
                             [("r0", r0); ("k0", k0)]%string x).
  { intro x. rewrite !set_rk_fields. rewrite Hk.
    change (get "k0"%string [("r0", r0); ("k0", k0)]%string) with (Some k0).
    reflexivity. }
  unfold SetRestraintParameters. rewrite Hp, Hf. reflexivity.
Qed.

(** X20.  When both r0 and k0 are among the keywords of a constructor,
    every other keyword is ignored: the restraint is the one that r0 and
    k0 alone define.  Its energy between r1 and r4 is the parabola
    k0 (r - r0/c)^2, where c is the conversion factor of the class (1 for
    distances, 180/pi for angles and torsions). *)
Theorem harmonic_well (c : rstr_class) (atoms : list Z) (p : dict Q)
    (r0 k0 : Q) (s : NmroptRestraint) :
  get "r0"%string p = Some r0 -> get "k0"%string p = Some k0 ->
  NmroptRestraint_init c atoms p = Ok s ->
  NmroptRestraint_init c atoms [("r0", r0); ("k0", k0)]%string = Ok s
  /\ forall (geom : coordinates) (r : Q),
       r1 s <= r -> r < r4 s ->
       exists E,
         Energy geom s (PyFloat r) = Ok E
         /\ E == k0 * (r - r0 / _report_conversion s) ^ 2.
Proof.
  intros H0 Hk H.
  assert (H' : NmroptRestraint_init c atoms [("r0", r0); ("k0", k0)]%string
               = Ok s).
  { unfold NmroptRestraint_init in *.
    rewrite <- (SetRestraintParameters_r0_k0 p _ r0 k0 H0 Hk). exact H. }
  split; [exact H'|]. intros geom r L1 L4.
  exists (snd (well s r)). split; [apply (Energy_of_value geom s r)|].
  pose proof (NmroptRestraint_init_ordered _ _ _ _ H) as Ho.
  unfold NmroptRestraint_init in H.
  set (s0 := mkRestraint c atoms 0 0 0 0 0 0 []) in *.
  destruct (SetRestraintParameters_cases p s0) as [[_ E] | [_ E]];
    rewrite E in H; [discriminate|]. injection H as <-.
  destruct (set_force_constants_frame p (set_positions p s0))
    as (Fc & _ & _ & F1 & F2 & F3 & F4).
  destruct (set_positions_r0 p s0 r0 H0) as (P2 & P3 & _ & _).
  destruct (set_positions_frame p s0) as (Pc & _).
  set (s1 := set_force_constants p (set_positions p s0)) in *.
  assert (K : rk2 s1 = k0 /\ rk3 s1 = k0).
  { subst s1. rewrite set_rk_fields, Hk. split; reflexivity. }
  destruct K as [K2 K3].
  assert (Hconv : _report_conversion s1 = _report_conversion s0).
  { unfold _report_conversion. rewrite Fc, Pc. reflexivity. }
  rewrite Hconv.
  assert (R2 : r2 s1 = r0 / _report_conversion s0) by congruence.
  assert (R3 : r3 s1 = r0 / _report_conversion s0) by congruence.
  clearbody s1. clear E F1 F2 F3 F4 P2 P3.
  set (m := r0 / _report_conversion s0) in *.
  destruct (well_cases s1 r Ho)
    as [[C ->] | [(C1 & C2 & ->) | [(C1 & C2 & ->) | [(C1 & C2 & ->)
        | [C ->]]]]];
    unfold branch_below_r1, branch_r1_r2, branch_r2_r3, branch_r3_r4,
      branch_above_r4; cbn [snd]; rewrite ?K2, ?K3, ?R2, ?R3 in *;
    try lra; try reflexivity.
Qed.

Lemma harmonic_well_witness :
  NmroptRestraint_init BondRestraint [1; 2]%Z
    [("r0", 1.0); ("k0", 10)]%string = Ok harmonic_bond
  /\ forall (geom : coordinates) (r : Q),
       r1 harmonic_bond <= r -> r < r4 harmonic_bond ->
       exists E,
         Energy geom harmonic_bond (PyFloat r) = Ok E
         /\ E == 10 * (r - 1.0 / _report_conversion harmonic_bond) ^ 2.
Proof.
  apply (harmonic_well BondRestraint [1; 2]%Z
           [("r1", 0); ("r0", 1.0); ("rk2", 3); ("k0", 10)]%string
           1.0 10 harmonic_bond); reflexivity.
Defined.

(** ** The result of the loop on machine doubles *)

(** X21.  A value that the nearest-image loop returns on machine doubles
    is a fixed point of the loop: both tests of the loop are false at it,
    the loop started from it returns it at the first test, and allowing
    the loop more tests does not change what it returns. *)
Theorem loop_result_is_fixed_point (n : nat)
    (rmean r v : PrimFloat.float) :
  Binary64.nearest_image_loop n rmean r = Some v ->
  PrimFloat.ltb Binary64.pi (PrimFloat.sub v rmean) = false
  /\ PrimFloat.ltb Binary64.pi (PrimFloat.sub rmean v) = false
  /\ (forall m : nat, Binary64.nearest_image_loop (S m) rmean v = Some v)
  /\ (forall m : nat, Binary64.nearest_image_loop (n + m) rmean r = Some v).
Proof.
  intro H.
  destruct (binary64_loop_result n rmean r v H) as [C1 C2].
  split; [exact C1|]. split; [exact C2|]. split.
  - intro m. cbn [Binary64.nearest_image_loop]. rewrite C1, C2. reflexivity.
  - intro m. apply binary64_loop_more_fuel. exact H.
Qed.

Lemma loop_result_is_fixed_point_witness :
  exists v : PrimFloat.float,
    Binary64.nearest_image_loop 20 Binary64.cycle_raw Binary64.cycle_rmean
    = Some v
    /\ PrimFloat.ltb Binary64.pi (PrimFloat.sub v Binary64.cycle_raw) = false
    /\ PrimFloat.ltb Binary64.pi (PrimFloat.sub Binary64.cycle_raw v) = false
    /\ (forall m : nat,
           Binary64.nearest_image_loop (S m) Binary64.cycle_raw v = Some v)
    /\ (forall m : nat,
           Binary64.nearest_image_loop (20 + m) Binary64.cycle_raw
                                       Binary64.cycle_rmean
           = Some v).
Proof.
  eexists. split; [vm_compute; reflexivity|].
  apply (loop_result_is_fixed_point 20 Binary64.cycle_raw
           Binary64.cycle_rmean).
  vm_compute. reflexivity.
Defined.

(** ** The slope is the derivative of the energy *)

Lemma square_le_square (a b : Q) : 0 <= a -> a <= b -> a ^ 2 <= b ^ 2.
Proof. intros. nra. Qed.

Lemma square_nonneg (a : Q) : 0 <= a ^ 2.
Proof. nra. Qed.

(** One flank: the energy at [y] is the energy at [x] plus slope times
    distance, up to the square of the distance. *)
Lemma flank_taylor (x y w : Q) :
  0 <= w ->
  0 <= flank_energy y w - flank_energy x w - flank_slope x w * (y - x)
  /\ flank_energy y w - flank_energy x w - flank_slope x w * (y - x)
     <= (y - x) ^ 2.
Proof.
  intro Hw. pose proof (square_nonneg (y - x)) as Hsq.
  unfold flank_energy, flank_slope. cmp_cases; split;
    try nra;
    try (pose proof (square_le_square (w - y) (x - y)); nra);
    try (pose proof (square_le_square y (y - x)); nra);
    try (pose proof (square_le_square (y - w) (y - x)); nra).
Qed.

Lemma Qabs_triangle_scaled (k a b : Q) :
  0 <= a -> a <= b -> Qabs (k * a) <= Qabs k * b.
Proof.
  intros Ha Hab. rewrite Qabs_Qmult, (Qabs_pos a) by exact Ha.
  pose proof (Qabs_nonneg k). nra.
Qed.

(** X22.  The factor dE/dr that [EnergyAndGradients] multiplies the
    coordinate gradient with is the derivative of the energy it returns:
    for ordered positions, the energy at a coordinate [s] differs from the
    energy at [r] plus dE/dr times (s - r) by at most
    (|rk2| + |rk3|) (s - r)^2. *)
Theorem slope_is_derivative (geom : coordinates) (self : NmroptRestraint)
    (r s : Q) :
  ordered self ->
  exists E E' g,
    EnergyAndGradients geom self (PyFloat r) = Ok (E, g)
    /\ Energy geom self (PyFloat s) = Ok E'
    /\ g = [fst (well self r) * 0]
    /\ Qabs (E' - E - fst (well self r) * (s - r))
       <= (Qabs (rk2 self) + Qabs (rk3 self)) * (s - r) ^ 2.
Proof.
  intro Ho. destruct (Energy_of_value geom self r) as [H1 _].
  destruct (Energy_of_value geom self s) as [_ H2].
  exists (snd (well self r)), (snd (well self s)), [fst (well self r) * 0].
  split; [exact H1|]. split; [exact H2|]. split; [reflexivity|].
  destruct (well_as_flanks self r Ho) as [Dr Er].
  destruct (well_as_flanks self s Ho) as [_ Es].
  pose proof Ho as (O1 & O2 & O3).
  assert (W2 : 0 <= r2 self - r1 self) by lra.
  assert (W3 : 0 <= r4 self - r3 self) by lra.
  destruct (flank_taylor (r2 self - r) (r2 self - s) _ W2) as [L1 L2].
  destruct (flank_taylor (r - r3 self) (s - r3 self) _ W3) as [R1 R2].
  set (fl := flank_energy (r2 self - s) (r2 self - r1 self)
             - flank_energy (r2 self - r) (r2 self - r1 self)
             - flank_slope (r2 self - r) (r2 self - r1 self)
               * (r2 self - s - (r2 self - r))) in *.
  set (fr := flank_energy (s - r3 self) (r4 self - r3 self)
             - flank_energy (r - r3 self) (r4 self - r3 self)
             - flank_slope (r - r3 self) (r4 self - r3 self)
               * (s - r3 self - (r - r3 self))) in *.
  assert (Hsum : snd (well self s) - snd (well self r)
                 - fst (well self r) * (s - r)
                 == rk2 self * fl + rk3 self * fr).
  { rewrite Es, Er, Dr. subst fl fr. ring. }
  rewrite Hsum.
  assert (Q2 : (r2 self - s - (r2 self - r)) ^ 2 == (s - r) ^ 2) by ring.
  assert (Q3 : (s - r3 self - (r - r3 self)) ^ 2 == (s - r) ^ 2) by ring.
  rewrite Q2 in L2. rewrite Q3 in R2.
  eapply Qle_trans; [apply Qabs_triangle|].
  pose proof (Qabs_triangle_scaled (rk2 self) fl _ L1 L2).
  pose proof (Qabs_triangle_scaled (rk3 self) fr _ R1 R2).
  lra.
Qed.

Lemma slope_is_derivative_witness :
  exists E E' g,
    EnergyAndGradients (constant_geometry 0) sample_bond (PyFloat 1.5)
    = Ok (E, g)
    /\ Energy (constant_geometry 0) sample_bond (PyFloat 1.75) = Ok E'
    /\ g = [fst (well sample_bond 1.5) * 0]
    /\ Qabs (E' - E - fst (well sample_bond 1.5) * (1.75 - 1.5))
       <= (Qabs (rk2 sample_bond) + Qabs (rk3 sample_bond))
          * (1.75 - 1.5) ^ 2.
Proof.
  apply (slope_is_derivative (constant_geometry 0) sample_bond 1.5 1.75).
  apply sample_bond_ordered.
Defined.

(** ** Building a collection *)

Lemma extend_loop_restraints (rs : list NmroptRestraint) :
  forall (self : AmberRestraint) (tail : list pyobj),
    extend_loop self (map PyRestraint rs ++ tail)
    = extend_loop (self ++ rs) tail.
Proof.
  induction rs as [|r rs IH]; intros self tail.
  - rewrite app_nil_r. reflexivity.
  - cbn [map app extend_loop AmberRestraint_append]. rewrite IH.
    rewrite <- app_assoc. reflexivity.
Qed.

(** X23.  [extend] appends the restraints of a sequence in order.  It
    stops with [TypeError] at the first item that is not a restraint, and
    the restraints before that item stay in the collection.  An argument
    without [__iter__], a single restraint included, is ignored without
    any error. *)
Theorem extend_appends_in_order (self : AmberRestraint)
    (rs : list NmroptRestraint) :
  AmberRestraint_extend self (PyIterable (map PyRestraint rs))
  = (self ++ rs, Ok tt)
  /\ (forall bad rest,
         (forall r, bad <> PyRestraint r) ->
         AmberRestraint_extend self
           (PyIterable (map PyRestraint rs ++ bad :: rest))
         = (self ++ rs, Raise TypeError))
  /\ (forall r, AmberRestraint_extend self (PyRestraint r) = (self, Ok tt))
  /\ AmberRestraint_extend self PyOther = (self, Ok tt).
Proof.
  split.
  { cbn [AmberRestraint_extend].
    rewrite <- (app_nil_r (map PyRestraint rs)), extend_loop_restraints.
    reflexivity. }
  split; [|split; reflexivity].
  intros bad rest Hbad. cbn [AmberRestraint_extend].
  rewrite extend_loop_restraints. cbn [extend_loop].
  destruct bad as [r| |]; [exfalso; apply (Hbad r); reflexivity| |];
    reflexivity.
Qed.

Lemma init_loop_skips (rstrs : list pyobj) :
  forall self : AmberRestraint,
    init_loop self rstrs = init_loop self (filter is_iterable rstrs).
Proof.
  induction rstrs as [|o rstrs IH]; intro self; [reflexivity|].
  cbn [filter]. destruct o as [r|items|]; cbn [is_iterable].
  - cbn [init_loop AmberRestraint_extend]. apply IH.
  - cbn [init_loop]. destruct (AmberRestraint_extend self (PyIterable items))
      as [self' [[]|e]]; [apply IH | reflexivity].
  - cbn [init_loop AmberRestraint_extend]. apply IH.
Qed.

Lemma init_loop_groups (groups : list (list NmroptRestraint)) :
  forall self : AmberRestraint,
    init_loop self (map (fun rs => PyIterable (map PyRestraint rs)) groups)
    = Ok (self ++ concat groups).
Proof.
  induction groups as [|rs groups IH]; intro self.
  - cbn. rewrite app_nil_r. reflexivity.
  - cbn [map init_loop AmberRestraint_extend concat].
    rewrite <- (app_nil_r (map PyRestraint rs)), extend_loop_restraints.
    cbn [extend_loop]. rewrite IH, <- app_assoc. reflexivity.
Qed.

(** X24.  The constructor [AmberRestraint(...)] joins the sequences of
    restraints it is given, in order.  Arguments without [__iter__] are
    passed over in silence, so a restraint given directly, not inside a
    list, is left out and the collection built from it alone is empty. *)
Theorem collection_constructor (groups : list (list NmroptRestraint))
    (rstrs : list pyobj) (r : NmroptRestraint) :
  AmberRestraint_init
    (map (fun rs => PyIterable (map PyRestraint rs)) groups)
  = Ok (concat groups)
  /\ AmberRestraint_init rstrs
     = AmberRestraint_init (filter is_iterable rstrs)
  /\ AmberRestraint_init [PyRestraint r] = Ok []
  /\ AmberRestraint_init [PyIterable [PyRestraint r]] = Ok [r].
Proof.
  unfold AmberRestraint_init. split; [apply (init_loop_groups groups [])|].
  split; [apply init_loop_skips|]. split; reflexivity.
Qed.

(** ** AmberRestraint.py: gradients *)

Lemma Forall_firstn_of (P : Q -> Prop) (n : nat) (l : list Q) :
  Forall P l -> Forall P (firstn n l).
Proof.
  intro H. revert n. induction H as [|a l Ha Hl IH]; intros [|n];
    cbn [firstn]; constructor; auto.
Qed.

Lemma Forall_skipn_of (P : Q -> Prop) (n : nat) (l : list Q) :
  Forall P l -> Forall P (skipn n l).
Proof.
  intro H. revert n. induction H as [|a l Ha Hl IH]; intros [|n];
    cbn [skipn]; try constructor; auto.
Qed.

Lemma Forall_slice_assign (P : Q -> Prop) (l v : list Q) (lo hi : Z) :
  Forall P l -> Forall P v -> Forall P (slice_assign l lo hi v).
Proof.
  intros Hl Hv. unfold slice_assign.
  apply Forall_app. split; [apply Forall_firstn_of; exact Hl|].
  apply Forall_app. split; [exact Hv | apply Forall_skipn_of; exact Hl].
Qed.

Lemma Forall_update_nth (P : Q -> Prop) (f : Q -> Q) (l : list Q) (j : nat) :
  (forall x, P x -> P (f x)) -> Forall P l -> Forall P (update_nth j f l).
Proof.
  intros Hf Hl. revert j. induction Hl as [|a l Ha Hl IH]; intros [|j];
    cbn [update_nth]; constructor; auto.
Qed.

Lemma Forall_iadd_item (l l' : list Q) (i : Z) (v : Q) :
  v == 0 -> Forall (fun x => x == 0) l ->
  iadd_item l i v = Ok l' -> Forall (fun x => x == 0) l'.
Proof.
  intros Hv Hl. unfold iadd_item.
  destruct (norm_index (Z.of_nat (length l)) i); [|discriminate].
  intro H. injection H as <-.
  apply Forall_update_nth; [|exact Hl].
  intros x Hx. cbn beta. rewrite Hx, Hv. reflexivity.
Qed.

Lemma getitem_In (A : Type) (l : list A) (i : Z) (x : A) :
  getitem l i = Ok x -> In x l.
Proof.
  unfold getitem. destruct (norm_index (Z.of_nat (length l)) i) as [j|];
    [|discriminate].
  destruct (nth_error l j) eqn:E; [|discriminate].
  intro H. injection H as <-. apply (nth_error_In _ _ E).
Qed.

Lemma Forall_zeros : Forall (fun x => x == 0) [0; 0; 0].
Proof. repeat constructor. Qed.

Lemma Forall_zeros_n (n : nat) : Forall (fun x => x == 0) (zeros n).
Proof.
  induction n; cbn; constructor; [reflexivity | assumption].
Qed.

Lemma gdc_grad_inner_zero (ms : list Z) (i j : Z) (w : Q)
    (gi gj : list Q) :
  Forall (fun x => x == 0) gi -> Forall (fun x => x == 0) gj ->
  forall drdx drdx',
    Forall (fun x => x == 0) drdx ->
    gdc_grad_inner ms i j w gi gj drdx = Ok drdx' ->
    Forall (fun x => x == 0) drdx'.
Proof.
  intros Hgi Hgj. induction ms as [|m ms IH]; intros drdx drdx' Hd H.
  - injection H as <-. exact Hd.
  - cbn [gdc_grad_inner] in H.
    destruct (getitem gi m) as [x|] eqn:Ex; [|discriminate].
    cbn [bind] in H.
    destruct (iadd_item drdx (3 * i + m) (w * x)) as [d1|] eqn:E1;
      [|discriminate].
    cbn [bind] in H.
    destruct (getitem gj m) as [y|] eqn:Ey; [|discriminate].
    cbn [bind] in H.
    destruct (iadd_item d1 (3 * j + m) (w * y)) as [d2|] eqn:E2;
      [|discriminate].
    cbn [bind] in H.
    apply getitem_In in Ex, Ey.
    pose proof (proj1 (Forall_forall _ _) Hgi x Ex) as Hx.
    pose proof (proj1 (Forall_forall _ _) Hgj y Ey) as Hy.
    cbn beta in Hx, Hy.
    apply (IH d2 drdx'); [|exact H].
    apply (Forall_iadd_item d1 d2 (3 * j + m) (w * y));
      [rewrite Hy; ring| |exact E2].
    apply (Forall_iadd_item drdx d1 (3 * i + m) (w * x));
      [rewrite Hx; ring| |exact E1].
    exact Hd.
Qed.

Lemma legacy_gdc_loop_zero (geom : coordinates)
    (self : AmberRestraint.NmroptRestraint) (crds : list Q) (ws : list Q) :
  forall k r drdx r' drdx',
    Forall (fun x => x == 0) drdx ->
    AmberRestraint.gdc_loop geom self crds k ws r drdx = Ok (r', drdx') ->
    Forall (fun x => x == 0) drdx'.
Proof.
  induction ws as [|w ws IH]; intros k r drdx r' drdx' Hd H.
  - injection H as _ <-. exact Hd.
  - cbn [AmberRestraint.gdc_loop] in H.
    destruct (getitem (AmberRestraint.iat self) (2 * k + 0)) as [ii|];
      [|discriminate].
    destruct (getitem (AmberRestraint.iat self) (2 * k + 1)) as [jj|];
      [|discriminate].
    cbn [bind] in H.
    destruct (gdc_grad_inner [0; 1; 2]%Z (ii - 1) (jj - 1) w [0; 0; 0]
                [0; 0; 0] drdx) as [d1|] eqn:E1; [|discriminate].
    cbn [bind] in H. eapply IH; [|exact H].
    apply (gdc_grad_inner_zero _ _ _ _ _ _ Forall_zeros Forall_zeros
                               drdx d1 Hd E1).
Qed.

Lemma legacy_CoordAndGradients_zero (geom : coordinates)
    (self : AmberRestraint.NmroptRestraint) (crds : list Q) (r : Q)
    (drdx : list Q) :
  AmberRestraint.CoordAndGradients geom self crds = Ok (r, drdx) ->
  Forall (fun x => x == 0) drdx.
Proof.
  unfold AmberRestraint.CoordAndGradients. intro H.
  pose proof (Forall_zeros_n (length crds)) as Hz.
  pose proof Forall_zeros as H3.
  destruct (String.eqb (AmberRestraint.rstType self) "Bond").
  { destruct (getitem (AmberRestraint.iat self) 0); [|discriminate].
    destruct (getitem (AmberRestraint.iat self) 1); [|discriminate].
    cbn [bind] in H. injection H as _ <-.
    repeat apply Forall_slice_assign; assumption. }
  destruct (String.eqb (AmberRestraint.rstType self) "Angle").
  { destruct (getitem (AmberRestraint.iat self) 0); [|discriminate].
    destruct (getitem (AmberRestraint.iat self) 1); [|discriminate].
    destruct (getitem (AmberRestraint.iat self) 2); [|discriminate].
    cbn [bind] in H. injection H as _ <-.
    repeat apply Forall_slice_assign; assumption. }
  destruct (String.eqb (AmberRestraint.rstType self) "Torsion").
  { destruct (getitem (AmberRestraint.iat self) 0); [|discriminate].
    destruct (getitem (AmberRestraint.iat self) 1); [|discriminate].
    destruct (getitem (AmberRestraint.iat self) 2); [|discriminate].
    destruct (getitem (AmberRestraint.iat self) 3); [|discriminate].
    cbn [bind] in H. injection H as _ <-.
    repeat apply Forall_slice_assign; assumption. }
  destruct (String.eqb (AmberRestraint.rstType self) "Gen. Dist. Coord.");
    [|discriminate].
  destruct (AmberRestraint.rstwt self) as [ws|]; [|discriminate].
  eapply legacy_gdc_loop_zero; [exact Hz | exact H].
Qed.

Lemma legacy_EnergyAndGradients_zero (geom : coordinates)
    (self : AmberRestraint.NmroptRestraint) (crds : list Q) (E : Q)
    (g : list Q) :
  AmberRestraint.EnergyAndGradients geom self crds = Ok (E, g) ->
  Forall (fun x => x == 0) g.
Proof.
  unfold AmberRestraint.EnergyAndGradients. intro H.
  destruct (AmberRestraint.CoordAndGradients geom self crds)
    as [[r drdx]|] eqn:Hc; [|discriminate].
  cbn [bind] in H.
  destruct (AmberRestraint.well self r) as [dedr energy].
  injection H as _ <-.
  apply legacy_CoordAndGradients_zero in Hc.
  apply Forall_map. revert Hc. apply Forall_impl.
  intros x Hx. rewrite Hx. ring.
Qed.

Lemma Forall_add_onto (gradients g : list Q) :
  Forall (fun x => x == 0) gradients -> Forall (fun x => x == 0) g ->
  Forall (fun x => x == 0) (add_onto gradients g).
Proof.
  intro H. revert g. induction H as [|a l Ha Hl IH]; intros g Hg.
  - constructor.
  - destruct g as [|b g]; cbn [add_onto]; [constructor; assumption|].
    inversion Hg as [|? ? Hb Hg']; subst. constructor.
    + rewrite Ha, Hb. reflexivity.
    + apply IH. exact Hg'.
Qed.

Lemma legacy_loop_zero (geom : coordinates)
    (rsts : list AmberRestraint.NmroptRestraint) (crds : list Q) :
  forall e0 g0 E g,
    Forall (fun x => x == 0) g0 ->
    AmberRestraint.EnergyAndGradients_loop geom rsts crds e0 g0
    = Ok (E, g) ->
    Forall (fun x => x == 0) g.
Proof.
  induction rsts as [|rst rsts IH]; intros e0 g0 E g H0 H.
  - injection H as _ <-. exact H0.
  - cbn [AmberRestraint.EnergyAndGradients_loop] in H.
    destruct (AmberRestraint.EnergyAndGradients geom rst crds)
      as [[e gi]|] eqn:He; [|discriminate].
    cbn [bind] in H. rewrite add_gradients_from_0 in H.
    destruct (length gi <=? length g0)%nat; [|discriminate].
    cbn [bind] in H. eapply IH; [|exact H].
    apply (Forall_add_onto g0 gi H0).
    apply (legacy_EnergyAndGradients_zero geom rst crds e gi He).
Qed.

(** ** AmberRestraint.py: what the constructor and the reader return *)

Lemma legacy_set_frame (p : dict Q) (s : AmberRestraint.NmroptRestraint) :
  let s' := fst (AmberRestraint.SetRestraintParameters p s) in
  AmberRestraint.iat s' = AmberRestraint.iat s
  /\ AmberRestraint.nAtoms s' = AmberRestraint.nAtoms s
  /\ AmberRestraint.rstwt s' = AmberRestraint.rstwt s
  /\ AmberRestraint.rstType s' = AmberRestraint.rstType s
  /\ (snd (AmberRestraint.SetRestraintParameters p s) = Ok tt ->
      AmberRestraint.monotonic s' = true).
Proof.
  assert (F1 : forall x,
             AmberRestraint.iat (AmberRestraint.set_positions p x)
             = AmberRestraint.iat x
             /\ AmberRestraint.nAtoms (AmberRestraint.set_positions p x)
                = AmberRestraint.nAtoms x
             /\ AmberRestraint.rstwt (AmberRestraint.set_positions p x)
                = AmberRestraint.rstwt x
             /\ AmberRestraint.rstType (AmberRestraint.set_positions p x)
                = AmberRestraint.rstType x).
  { intro x. unfold AmberRestraint.set_positions.
    destruct (get "r0"%string p); [|repeat split].
    cbn [AmberRestraint.rstType AmberRestraint.set_r].
    destruct (String.eqb (AmberRestraint.rstType x) "Torsion");
      [repeat split|].
    destruct (String.eqb (AmberRestraint.rstType x) "Angle");
      repeat split. }
  assert (F2 : forall x,
             AmberRestraint.iat (AmberRestraint.to_radians x)
             = AmberRestraint.iat x
             /\ AmberRestraint.nAtoms (AmberRestraint.to_radians x)
                = AmberRestraint.nAtoms x
             /\ AmberRestraint.rstwt (AmberRestraint.to_radians x)
                = AmberRestraint.rstwt x
             /\ AmberRestraint.rstType (AmberRestraint.to_radians x)
                = AmberRestraint.rstType x).
  { intro x. unfold AmberRestraint.to_radians.
    destruct (String.eqb (AmberRestraint.rstType x) "Angle"
              || String.eqb (AmberRestraint.rstType x) "Torsion");
      repeat split. }
  assert (F3 : forall x,
             AmberRestraint.iat (AmberRestraint.set_force_constants p x)
             = AmberRestraint.iat x
             /\ AmberRestraint.nAtoms (AmberRestraint.set_force_constants p x)
                = AmberRestraint.nAtoms x
             /\ AmberRestraint.rstwt (AmberRestraint.set_force_constants p x)
                = AmberRestraint.rstwt x
             /\ AmberRestraint.rstType
                  (AmberRestraint.set_force_constants p x)
                = AmberRestraint.rstType x
             /\ AmberRestraint.monotonic
                  (AmberRestraint.set_force_constants p x)
                = AmberRestraint.monotonic x).
  { intro x. unfold AmberRestraint.set_force_constants.
    destruct (get "k0"%string p); repeat split. }
  cbv zeta. unfold AmberRestraint.SetRestraintParameters.
  set (s1 := AmberRestraint.to_radians (AmberRestraint.set_positions p s)).
  destruct (F1 s) as (A1 & A2 & A3 & A4).
  destruct (F2 (AmberRestraint.set_positions p s)) as (B1 & B2 & B3 & B4).
  fold s1 in B1, B2, B3, B4.
  destruct (AmberRestraint.monotonic s1) eqn:Em; cbn [negb fst snd].
  - destruct (F3 s1) as (C1 & C2 & C3 & C4 & C5).
    repeat split; congruence.
  - repeat split; congruence.
Qed.

Lemma legacy_init_shape (atoms : list Z) (w : option (list Q)) (p : dict Q)
    (s : AmberRestraint.NmroptRestraint) :
  AmberRestraint.NmroptRestraint_init atoms w p = Ok s ->
  w = None
  /\ AmberRestraint.iat s = atoms
  /\ AmberRestraint.nAtoms s = length atoms
  /\ AmberRestraint.rstwt s = None
  /\ AmberRestraint.rstType s
     = match length atoms with
       | 2%nat => "Bond"
       | 3%nat => "Angle"
       | _ => "Torsion"
       end%string
  /\ (2 <= length atoms <= 4)%nat
  /\ AmberRestraint.monotonic s = true.
Proof.
  unfold AmberRestraint.NmroptRestraint_init.
  destruct w as [w|]; [discriminate|]. intro H.
  split; [reflexivity|].
  assert (HT : exists t,
             (if (length atoms =? 2)%nat then Ok "Bond"
              else if (length atoms =? 3)%nat then Ok "Angle"
              else if (length atoms =? 4)%nat then Ok "Torsion"
              else Raise Exception)%string = Ok t
             /\ t = match length atoms with
                    | 2%nat => "Bond"
                    | 3%nat => "Angle"
                    | _ => "Torsion"
                    end%string
             /\ (2 <= length atoms <= 4)%nat).
  { destruct (length atoms) as [|[|[|[|[|n]]]]]; cbn in H |- *;
      try discriminate; eexists; (split; [reflexivity|]);
      (split; [reflexivity | lia]). }
  destruct HT as (t & Et & Ht & Hn). rewrite Et in H. cbn [bind] in H.
  set (s0 := AmberRestraint.mkRestraint atoms (length atoms) None t
                                        0 0 0 0 0 0) in *.
  destruct (legacy_set_frame p s0) as (A1 & A2 & A3 & A4 & A5).
  destruct (AmberRestraint.SetRestraintParameters p s0) as [s' [[]|e]];
    [|discriminate].
  injection H as <-. cbn [fst snd] in *.
  rewrite A1, A2, A3, A4. subst s0. cbn. rewrite <- Ht.
  repeat split; try lia. apply A5. reflexivity.
Qed.

Lemma legacy_CoordAndGradients_returns (geom : coordinates)
    (s : AmberRestraint.NmroptRestraint) (crds : list Q) :
  AmberRestraint.rstType s
  = match length (AmberRestraint.iat s) with
    | 2%nat => "Bond"
    | 3%nat => "Angle"
    | _ => "Torsion"
    end%string ->
  (2 <= length (AmberRestraint.iat s) <= 4)%nat ->
  exists r drdx, AmberRestraint.CoordAndGradients geom s crds = Ok (r, drdx).
Proof.
  intros Ht Hn. unfold AmberRestraint.CoordAndGradients. rewrite Ht.
  destruct (AmberRestraint.iat s) as [|a [|b [|c [|d [|e l]]]]];
    cbn [length] in Hn |- *; try lia.
  - eexists; eexists. reflexivity.
  - eexists; eexists. reflexivity.
  - eexists; eexists. reflexivity.
Qed.

(** X25.  In AmberRestraint.py the docstring's warning holds: whenever
    [CoordAndGradients], [EnergyAndGradients] of a restraint or
    [EnergyAndGradients] of a collection returns, every entry of the
    gradient is zero, whatever the coordinates and the restraint.  And
    they do return for every restraint the constructor has built. *)
Theorem legacy_gradients_are_zero (geom : coordinates) (crds : list Q) :
  (forall self r drdx,
      AmberRestraint.CoordAndGradients geom self crds = Ok (r, drdx) ->
      Forall (fun x => x == 0) drdx)
  /\ (forall self E g,
         AmberRestraint.EnergyAndGradients geom self crds = Ok (E, g) ->
         Forall (fun x => x == 0) g)
  /\ (forall rsts E g,
         AmberRestraint.AmberRestraint_EnergyAndGradients geom rsts crds
         = Ok (E, g) ->
         Forall (fun x => x == 0) g)
  /\ (forall atoms p self,
         AmberRestraint.NmroptRestraint_init atoms None p = Ok self ->
         exists E g,
           AmberRestraint.EnergyAndGradients geom self crds = Ok (E, g)).
Proof.
  split; [intros self r drdx;
          apply legacy_CoordAndGradients_zero|].
  split; [intros self E g; apply legacy_EnergyAndGradients_zero|].
  split.
  { intros rsts E g.
    unfold AmberRestraint.AmberRestraint_EnergyAndGradients.
    apply legacy_loop_zero. apply Forall_zeros_n. }
  intros atoms p self H.
  destruct (legacy_init_shape atoms None p self H)
    as (_ & Hi & _ & _ & Ht & Hn & _).
  rewrite <- Hi in Ht, Hn.
  destruct (legacy_CoordAndGradients_returns geom self crds Ht Hn)
    as (r & drdx & Hc).
  unfold AmberRestraint.EnergyAndGradients. rewrite Hc. cbn [bind].
  destruct (AmberRestraint.well self r) as [dedr energy].
  eexists; eexists. reflexivity.
Qed.

Lemma legacy_read_namelists_shape (namelists : list namelist) :
  forall (key_bound : bool) (acc rs : AmberRestraint.AmberRestraint),
    AmberRestraint.read_namelists namelists key_bound acc = Ok rs ->
    exists rs',
      rs = acc ++ rs'
      /\ Forall2 (fun nl s =>
                    iat_value nl = Some (AmberRestraint.iat s)
                    /\ rstwt_value nl = None
                    /\ AmberRestraint.NmroptRestraint_init
                         (AmberRestraint.iat s) None (float_values nl)
                       = Ok s)
                 (filter is_rst namelists) rs'.
Proof.
  induction namelists as [|nl rest IH]; intros key_bound acc rs H.
  - injection H as <-. exists []. rewrite app_nil_r.
    split; [reflexivity | constructor].
  - cbn [AmberRestraint.read_namelists] in H. cbn [filter].
    unfold is_rst at 1.
    destruct (String.eqb (name nl) "rst"); [|apply (IH _ _ _ H)].
    destruct (iat_value nl) as [atoms|] eqn:Hi; [|discriminate].
    destruct (AmberRestraint.NmroptRestraint_init atoms (rstwt_value nl)
                (float_values nl)) as [s|] eqn:Hs; [|discriminate].
    cbn [bind] in H. apply IH in H. destruct H as (rs' & -> & HF).
    exists (s :: rs'). rewrite <- app_assoc. split; [reflexivity|].
    constructor; [|exact HF].
    destruct (legacy_init_shape _ _ _ _ Hs) as (Hw & Hat & _).
    rewrite Hat. rewrite Hw in Hs. repeat split; assumption.
Qed.

(** X26.  When [ReadAmberRestraintFile] of AmberRestraint.py returns, the
    collection is not empty and holds one restraint for each group named
    [rst], in order; none of these groups has the key [rstwt], each has
    two, three or four atoms, and the restraint is the bond, angle or
    torsion the constructor builds from the group's atoms and keys.  The
    earlier reader thus never returns a generalized distance restraint. *)
Theorem legacy_read_file_shape (ReadNamelists : string -> list namelist)
    (rstFilename : string) (amberRst : AmberRestraint.AmberRestraint) :
  AmberRestraint.ReadAmberRestraintFile ReadNamelists rstFilename
  = Ok amberRst ->
  amberRst <> []
  /\ Forall2 (fun nl s =>
                iat_value nl = Some (AmberRestraint.iat s)
                /\ rstwt_value nl = None
                /\ AmberRestraint.NmroptRestraint_init
                     (AmberRestraint.iat s) None (float_values nl)
                   = Ok s
                /\ AmberRestraint.rstwt s = None
                /\ (2 <= length (AmberRestraint.iat s) <= 4)%nat
                /\ AmberRestraint.rstType s
                   = match length (AmberRestraint.iat s) with
                     | 2%nat => "Bond"
                     | 3%nat => "Angle"
                     | _ => "Torsion"
                     end%string)
             (filter is_rst (ReadNamelists rstFilename)) amberRst.
Proof.
  unfold AmberRestraint.ReadAmberRestraintFile. intro H.
  destruct (AmberRestraint.read_namelists (ReadNamelists rstFilename)
              false []) as [rs|] eqn:E; [|discriminate].
  cbn [bind] in H.
  destruct (length rs <? 1)%nat eqn:El; [discriminate|].
  injection H as <-. split.
  { intros ->. discriminate El. }
  apply legacy_read_namelists_shape in E. destruct E as (rs' & -> & HF).
  cbn [app]. revert HF. apply Forall2_impl.
  intros nl s (H1 & H2 & H3).
  destruct (legacy_init_shape _ _ _ _ H3) as (_ & _ & _ & Hw & Ht & Hn & _).
  repeat split; assumption || lia.
Qed.

Lemma legacy_read_file_shape_witness :
  exists amberRst,
    AmberRestraint.ReadAmberRestraintFile
      (fun _ => [mkNamelist "cntrl" None None [];
                 mkNamelist "rst" (Some [1; 2]%Z) None
                   [("r0", 1); ("k0", 10)]%string]) "in.RST"
    = Ok amberRst
    /\ amberRst <> [].
Proof.
  destruct (AmberRestraint.ReadAmberRestraintFile
              (fun _ => [mkNamelist "cntrl" None None [];
                         mkNamelist "rst" (Some [1; 2]%Z) None
                           [("r0", 1); ("k0", 10)]%string]) "in.RST")
    as [amberRst|] eqn:H; [|discriminate H].
  exists amberRst. split; [reflexivity|].
  apply (legacy_read_file_shape _ _ _ H).
Defined.

(** ** AmberRestraint.py: the decomposition *)

Lemma legacy_iadd_key_buckets (k : string) (e b a t g : Q) :
  In k legacy_kinds ->
  exists b' a' t' g',
    iadd_key k e (legacy_buckets b a t g) = Ok (legacy_buckets b' a' t' g')
    /\ b' + a' + t' + g' == b + a + t + g + e.
Proof.
  intros [<- | [<- | [<- | [<- | []]]]].
  - exists (b + e), a, t, g. split; [reflexivity | ring].
  - exists b, (a + e), t, g. split; [reflexivity | ring].
  - exists b, a, (t + e), g. split; [reflexivity | ring].
  - exists b, a, t, (g + e). split; [reflexivity | ring].
Qed.

Lemma legacy_Decompose_loop_total (geom : coordinates) (crds : list Q)
    (rsts : list AmberRestraint.NmroptRestraint) :
  Forall (fun s => In (AmberRestraint.rstType s) legacy_kinds) rsts ->
  forall e0 E b a t g,
    AmberRestraint.Energy_loop geom rsts crds e0 = Ok E ->
    exists b' a' t' g',
      AmberRestraint.Decompose_loop geom rsts crds (legacy_buckets b a t g)
      = Ok (legacy_buckets b' a' t' g')
      /\ b' + a' + t' + g' - (b + a + t + g) == E - e0.
Proof.
  induction 1 as [|rst rsts Hk HF IH]; intros e0 E b a t g H.
  - injection H as <-. exists b, a, t, g. split; [reflexivity | ring].
  - cbn [AmberRestraint.Energy_loop AmberRestraint.Decompose_loop] in *.
    destruct (AmberRestraint.Energy geom rst crds) as [e|]; [|discriminate].
    cbn [bind] in *.
    destruct (legacy_iadd_key_buckets (AmberRestraint.rstType rst) e b a t g
                Hk) as (b1 & a1 & t1 & g1 & -> & Hs).
    cbn [bind].
    destruct (IH _ _ b1 a1 t1 g1 H) as (b' & a' & t' & g' & -> & Hs').
    exists b', a', t', g'. split; [reflexivity|]. lra.
Qed.

(** X27.  In AmberRestraint.py [DecomposeEnergy] visits every member, so
    for a collection of restraints of the four kinds its entries add up to
    the value of [Energy], and so does its entry [Restraint], whatever the
    length of the coordinate list. *)
Theorem legacy_decompose_energy_total (geom : coordinates)
    (self : AmberRestraint.AmberRestraint) (crds : list Q) (E : Q) :
  Forall (fun s => In (AmberRestraint.rstType s) legacy_kinds) self ->
  AmberRestraint.AmberRestraint_Energy geom self crds = Ok E ->
  exists d b a t g total,
    AmberRestraint.DecomposeEnergy geom self crds = Ok d
    /\ get "Bond"%string d = Some b
    /\ get "Angle"%string d = Some a
    /\ get "Torsion"%string d = Some t
    /\ get "Gen. Dist. Coord."%string d = Some g
    /\ get "Restraint"%string d = Some total
    /\ b + a + t + g == E /\ total == E.
Proof.
  intros Hk H. unfold AmberRestraint.AmberRestraint_Energy in H.
  destruct (legacy_Decompose_loop_total geom crds self Hk 0 E 0 0 0 0 H)
    as (b & a & t & g & HD & Hs).
  unfold AmberRestraint.DecomposeEnergy.
  change [("Restraint", 0); ("Bond", 0); ("Angle", 0); ("Torsion", 0);
          ("Gen. Dist. Coord.", 0)]%string with (legacy_buckets 0 0 0 0).
  rewrite HD. cbn [bind].
  eexists; exists b, a, t, g; eexists.
  split; [reflexivity|]. repeat (split; [reflexivity|]).
  split; [lra|]. unfold sum_values, legacy_buckets. cbn [fold_left snd].
  lra.
Qed.

Lemma legacy_decompose_energy_total_witness :
  let bond :=
    AmberRestraint.mkRestraint [1; 2]%Z 2 None "Bond" 0 1 1 501 10 10 in
  exists E d total,
    AmberRestraint.AmberRestraint_Energy (constant_geometry 1.5)
      (repeat bond 7) two_atoms = Ok E
    /\ AmberRestraint.DecomposeEnergy (constant_geometry 1.5)
         (repeat bond 7) two_atoms = Ok d
    /\ get "Restraint"%string d = Some total
    /\ total == E.
Proof.
  intro bond.
  destruct (AmberRestraint.AmberRestraint_Energy (constant_geometry 1.5)
              (repeat bond 7) two_atoms) as [E|] eqn:H;
    [|vm_compute in H; discriminate H].
  destruct (legacy_decompose_energy_total (constant_geometry 1.5)
              (repeat bond 7) two_atoms E)
    as (d & b & a & t & g & total & Hd & _ & _ & _ & _ & Ht & _ & He).
  - repeat constructor.
  - exact H.
  - exists E, d, total. split; [reflexivity|]. repeat split; assumption.
Defined.

(** ** The gradient of a generalized distance *)

Lemma length_update_nth (A : Type) (f : A -> A) (l : list A) (j : nat) :
  length (update_nth j f l) = length l.
Proof.
  revert j. induction l as [|a l IH]; intros [|j]; cbn [update_nth length];
    try reflexivity.
  rewrite IH. reflexivity.
Qed.

Lemma nth_update_nth_other (A : Type) (f : A -> A) (l : list A) (j p : nat)
    (d : A) :
  p <> j -> nth p (update_nth j f l) d = nth p l d.
Proof.
  revert j p. induction l as [|a l IH]; intros [|j] [|p] H;
    cbn [update_nth nth]; try reflexivity; try contradiction.
  apply IH. intro E. apply H. rewrite E. reflexivity.
Qed.

Lemma iadd_item_in_range (l : list Q) (z : Z) (v : Q) :
  (0 <= z < Z.of_nat (length l))%Z ->
  exists l',
    iadd_item l z v = Ok l'
    /\ length l' = length l
    /\ forall p : nat, Z.of_nat p <> z -> nth p l' 0 = nth p l 0.
Proof.
  intro Hz. unfold iadd_item, norm_index.
  assert (E1 : (z <? 0)%Z = false) by (apply Z.ltb_ge; lia).
  assert (E2 : ((0 <=? z) && (z <? Z.of_nat (length l)))%Z = true).
  { apply andb_true_iff. split; [apply Z.leb_le | apply Z.ltb_lt]; lia. }
  rewrite E1, E2. eexists. split; [reflexivity|].
  split; [apply length_update_nth|].
  intros p Hp. apply nth_update_nth_other. lia.
Qed.

Lemma getitem_three (g : list Q) (m : Z) :
  length g = 3%nat -> (0 <= m < 3)%Z -> exists x, getitem g m = Ok x.
Proof.
  intros Hg Hm. destruct g as [|a [|b [|c [|d g]]]]; try discriminate.
  assert (H : m = 0%Z \/ m = 1%Z \/ m = 2%Z) by lia.
  destruct H as [-> | [-> | ->]]; eexists; reflexivity.
Qed.

Lemma coordinate_of_atom_false (p : nat) (a m : Z) :
  coordinate_of_atom p a = false -> (0 <= m < 3)%Z ->
  Z.of_nat p <> (3 * (a - 1) + m)%Z.
Proof.
  unfold coordinate_of_atom. intros H Hm E.
  apply andb_false_iff in H. destruct H as [H | H].
  - apply Z.leb_gt in H. lia.
  - apply Z.ltb_ge in H. lia.
Qed.

Lemma gdc_grad_inner_local (ii jj : Z) (w : Q) (gi gj : list Q)
    (n : nat) (ms : list Z) :
  length gi = 3%nat -> length gj = 3%nat ->
  (1 <= ii /\ 3 * ii <= Z.of_nat n)%Z ->
  (1 <= jj /\ 3 * jj <= Z.of_nat n)%Z ->
  Forall (fun m => 0 <= m < 3)%Z ms ->
  forall drdx : list Q,
    length drdx = n ->
    exists drdx',
      gdc_grad_inner ms (ii - 1) (jj - 1) w gi gj drdx = Ok drdx'
      /\ length drdx' = n
      /\ forall p : nat,
           coordinate_of_atom p ii = false ->
           coordinate_of_atom p jj = false ->
           nth p drdx' 0 = nth p drdx 0.
Proof.
  intros Hgi Hgj Hi Hj Hms.
  induction Hms as [|m ms Hm Hms IH]; intros drdx Hn.
  - exists drdx. split; [reflexivity|]. split; [exact Hn | reflexivity].
  - cbn [gdc_grad_inner].
    destruct (getitem_three gi m Hgi Hm) as [x ->]. cbn [bind].
    destruct (iadd_item_in_range drdx (3 * (ii - 1) + m) (w * x))
      as (d1 & -> & L1 & N1); [rewrite Hn; lia|]. cbn [bind].
    destruct (getitem_three gj m Hgj Hm) as [y ->]. cbn [bind].
    destruct (iadd_item_in_range d1 (3 * (jj - 1) + m) (w * y))
      as (d2 & -> & L2 & N2); [rewrite L1, Hn; lia|]. cbn [bind].
    destruct (IH d2) as (drdx' & -> & L' & N');
      [rewrite L2, L1; exact Hn|].
    exists drdx'. split; [reflexivity|]. split; [exact L'|].
    intros p Pi Pj. rewrite (N' p Pi Pj).
    rewrite N2 by (apply coordinate_of_atom_false; assumption).
    apply N1. apply coordinate_of_atom_false; assumption.
Qed.

Lemma gdc_grad_loop_local (geom : coordinates) (H3 : three_components geom)
    (self : NmroptRestraint) (crds : list Q) (n : nat) (ws : list Q) :
  forall (pre rest : list Z) (k : Z) (r : Q) (drdx : list Q),
    iat self = pre ++ rest ->
    Z.of_nat (length pre) = (2 * k)%Z ->
    (2 * length ws <= length rest)%nat ->
    Forall (fun a => 1 <= a /\ 3 * a <= Z.of_nat n)%Z rest ->
    length drdx = n ->
    exists r' drdx',
      gdc_grad_loop geom self crds k ws r drdx = Ok (r', drdx')
      /\ length drdx' = n
      /\ forall p : nat,
           existsb (coordinate_of_atom p) rest = false ->
           nth p drdx' 0 = nth p drdx 0.
Proof.
  induction ws as [|w ws IH]; intros pre rest k r drdx Hi Hk Hlen Hat Hn.
  - exists r, drdx. split; [reflexivity|]. split; [exact Hn | reflexivity].
  - destruct rest as [|a [|b rest]]; cbn [length] in Hlen; try lia.
    cbn [gdc_grad_loop]. rewrite Hi.
    replace (2 * k + 0)%Z with (Z.of_nat (length pre)) by lia.
    rewrite getitem_app. cbn [bind].
    replace (2 * k + 1)%Z with (Z.of_nat (length (pre ++ [a])))
      by (rewrite length_app; cbn [length]; lia).
    replace (pre ++ a :: b :: rest) with ((pre ++ [a]) ++ b :: rest)
      by (rewrite <- app_assoc; reflexivity).
    rewrite getitem_app. cbn [bind].
    apply Forall_cons_iff in Hat. destruct Hat as [Ha Hat1].
    apply Forall_cons_iff in Hat1. destruct Hat1 as [Hb Hat2].
    destruct (Bond_gradients geom H3 crds (a - 1) (b - 1)) as [Gi Gj].
    destruct (BondAndGradients geom crds (a - 1) (b - 1)) as [[x gi] gj].
    cbn [fst snd] in Gi, Gj.
    destruct (gdc_grad_inner_local a b w gi gj n [0; 1; 2]%Z Gi Gj Ha Hb)
      with (drdx := drdx) as (d1 & -> & L1 & N1);
      [repeat constructor; lia | exact Hn |].
    cbn [bind].
    destruct (IH (pre ++ [a; b]) rest (k + 1)%Z (r + w * x) d1)
      as (r' & drdx' & -> & L' & N').
    + rewrite Hi, <- app_assoc. reflexivity.
    + rewrite length_app. cbn [length]. lia.
    + lia.
    + exact Hat2.
    + exact L1.
    + exists r', drdx'. split; [reflexivity|]. split; [exact L'|].
      intros p Hp. cbn [existsb] in Hp.
      apply orb_false_iff in Hp. destruct Hp as [Pa Hp].
      apply orb_false_iff in Hp. destruct Hp as [Pb Hp].
      rewrite (N' p Hp). apply (N1 p Pa Pb).
Qed.

(** X28.  For a constructed generalized distance restraint whose atoms
    lie within the coordinate list, [CoordAndGradients] and
    [EnergyAndGradients] return, with a gradient that has one entry per
    coordinate and is zero at the coordinates of all other atoms. *)
Theorem generalized_distance_gradient_is_local (geom : coordinates)
    (self : NmroptRestraint) (crds : list Q) :
  three_components geom ->
  constructed self ->
  class_of self = GenDistCoordRestraint ->
  Forall (fun a => 1 <= a /\ 3 * a <= Z.of_nat (length crds))%Z (iat self) ->
  (exists r drdx,
      CoordAndGradients geom self crds = Ok (r, drdx)
      /\ length drdx = length crds
      /\ forall p : nat,
           existsb (coordinate_of_atom p) (iat self) = false ->
           nth p drdx 0 = 0)
  /\ exists E g,
       EnergyAndGradients geom self (PyList crds) = Ok (E, g)
       /\ length g = length crds
       /\ forall p : nat,
            existsb (coordinate_of_atom p) (iat self) = false ->
            nth p g 0 == 0.
Proof.
  intros H3 [_ Hcon] Hc Hat. rewrite Hc in Hcon.
  destruct Hcon as (Hev & _ & Hw).
  assert (Hlen : (2 * length (rstwt self) <= length (iat self))%nat).
  { rewrite Hw. pose proof (Nat.div_mod_eq (length (iat self)) 2). lia. }
  destruct (gdc_grad_loop_local geom H3 self crds (length crds)
              (rstwt self) [] (iat self) 0 0 (zeros (length crds))
              eq_refl eq_refl Hlen Hat (repeat_length _ _))
    as (r & drdx & Hcg & L & N).
  assert (Hcg' : CoordAndGradients geom self crds = Ok (r, drdx)).
  { unfold CoordAndGradients. rewrite Hc. exact Hcg. }
  assert (Hloc : forall p : nat,
             existsb (coordinate_of_atom p) (iat self) = false ->
             nth p drdx 0 = 0).
  { intros p Hp. rewrite (N p Hp). apply nth_zeros. }
  split.
  - exists r, drdx. split; [exact Hcg'|]. split; [exact L | exact Hloc].
  - destruct (Energy_of_crds geom self crds r drdx Hcg') as [He _].
    eexists; eexists. split; [exact He|].
    split; [rewrite length_map; exact L|].
    intros p Hp. rewrite nth_map_scaled, (Hloc p Hp). ring.
Qed.

Lemma generalized_distance_gradient_is_local_witness :
  let self :=
    match GenDistCoordRestraint_init [1; 2; 2; 3]%Z [1; -1]
            [("r0", 0); ("k0", 3)]%string with
    | Ok s => s
    | Raise _ => mkRestraint GenDistCoordRestraint [] 0 0 0 0 0 0 []
    end in
  exists E g,
    EnergyAndGradients (constant_geometry 1.5) self
      (PyList (two_atoms ++ [0; 1; 0; 5; 5; 5])) = Ok (E, g)
    /\ length g = 12%nat
    /\ forall p : nat,
         existsb (coordinate_of_atom p) [1; 2; 2; 3]%Z = false ->
         nth p g 0 == 0.
Proof.
  intro self.
  apply (generalized_distance_gradient_is_local (constant_geometry 1.5)
           self (two_atoms ++ [0; 1; 0; 5; 5; 5])).
  - apply three_components_constant.
  - apply (GenDistCoordRestraint_init_constructed [1; 2; 2; 3]%Z [1; -1]
             [("r0", 0); ("k0", 3)]%string).
    reflexivity.
  - reflexivity.
  - repeat constructor; vm_compute; discriminate.
Defined.
